(** * A generic ordered map on a sorted singly linked list (map_mtm.c)

    The map of [map_mtm.c] is a record in the heap that points to a dummy
    first node, followed by the chain of key-data nodes, kept sorted under the
    comparison function given at creation.  The development embeds the C
    functions over an explicit heap: nodes and map records live in finite maps
    from addresses, a pointer is an address, the null pointer or (inside a
    node that [malloc] has just returned) an indeterminate value. *)

From stdpp Require Import base option list sorting gmap.
From Stdlib Require Import ZArith Lia Sorted.

(** ** Values and heap cells *)

(** Addresses of heap blocks. *)
Abbreviation loc := positive (only parsing).

(** A pointer field: not yet written since [malloc], [NULL], or pointing to
    an object.  For keys and data the object is given by its content. *)
Inductive ptr (A : Type) : Type :=
  | Undef
  | Null
  | At (a : A).
Arguments Undef {A}.
Arguments Null {A}.
Arguments At {A} a.

Definition of_option {A} (o : option A) : ptr A :=
  match o with Some a => At a | None => Null end.

(** The result codes of map_mtm.h that the source returns. *)
Inductive MapResult :=
  | MAP_SUCCESS
  | MAP_OUT_OF_MEMORY
  | MAP_NULL_ARGUMENT
  | MAP_ITEM_DOES_NOT_EXIST.

Definition MapResult_eqb (a b : MapResult) : bool :=
  match a, b with
  | MAP_SUCCESS, MAP_SUCCESS
  | MAP_OUT_OF_MEMORY, MAP_OUT_OF_MEMORY
  | MAP_NULL_ARGUMENT, MAP_NULL_ARGUMENT
  | MAP_ITEM_DOES_NOT_EXIST, MAP_ITEM_DOES_NOT_EXIST => true
  | _, _ => false
  end.

(** The range of the C type [int]. *)
Definition INT_MAX : Z := 2147483647.
Definition INT_MIN : Z := -2147483648.

Section Model.
Context {K V : Type}.

(** The five function pointer types of the interface.  A copy function is
    given by the content of the copy it returns when its allocation succeeds;
    whether it succeeds is decided by the allocation oracle of the world. *)
Definition copyMapDataElements := V → V.
Definition copyMapKeyElements := K → K.
Definition freeMapDataElements := V → unit.
Definition freeMapKeyElements := K → unit.
Definition compareMapKeyElements := K → K → Z.

(** [struct node_t] *)
Record node_t := Node {
  data : ptr V;
  key : ptr K;
  next : ptr loc
}.

(** [struct Map_t] *)
Record Map_t := MapRec {
  iterator : option loc;
  size : Z;
  first : option loc;
  copy_data : copyMapDataElements;
  copy_key : copyMapKeyElements;
  free_data : freeMapDataElements;
  free_key : freeMapKeyElements;
  compare_keys : compareMapKeyElements
}.

(** Calls of the copy and free functions, in the order they are made. *)
Inductive event :=
  | CopyData (v : V) (ok : bool)
  | CopyKey (k : K) (ok : bool)
  | FreeData (d : option V)
  | FreeKey (k : option K).

(** The state of the program: the node heap, the heap of map records (a cell
    holding [None] is allocated and not yet initialised), the next fresh
    address, the outcomes of the allocations still to come ([true] for
    success; every allocation after the list is used up succeeds), and the
    calls made so far. *)
Record world := World {
  nodes : gmap loc node_t;
  maps : gmap loc (option Map_t);
  brk : loc;
  oracle : list bool;
  trace : list event
}.

Definition init_world (o : list bool) : world :=
  World ∅ ∅ 1%positive o [].

(** ** The monad of the embedding *)

(** A call returns a value and a new world, has undefined behaviour
    ([Fault]: a null, freed or indeterminate pointer is used, or an [int]
    overflows), or is not followed to its end by the model ([Timeout]: a
    walk over a cyclic chain, or a countdown from a negative length). *)
Inductive outcome (A : Type) : Type :=
  | Done (a : A) (w : world)
  | Fault
  | Timeout.
Arguments Done {A} a w.
Arguments Fault {A}.
Arguments Timeout {A}.

Definition M (A : Type) : Type := world → outcome A.

#[export] Instance M_ret : MRet M := λ A a w, Done a w.
#[export] Instance M_bind : MBind M := λ A B f m w,
  match m w with
  | Done a w' => f a w'
  | Fault => Fault
  | Timeout => Timeout
  end.

Definition fault {A} : M A := λ _, Fault.
Definition timeout {A} : M A := λ _, Timeout.

(** ** Memory primitives *)

Definition set_nodes (f : gmap loc node_t → gmap loc node_t) (w : world) : world :=
  World (f (nodes w)) (maps w) (brk w) (oracle w) (trace w).
Definition set_maps (f : gmap loc (option Map_t) → gmap loc (option Map_t)) (w : world) : world :=
  World (nodes w) (f (maps w)) (brk w) (oracle w) (trace w).

(** The outcome of the next allocation. *)
Definition next_ok (o : list bool) : bool := hd true o.

Definition choose : M bool := λ w,
  Done (next_ok (oracle w))
       (World (nodes w) (maps w) (brk w) (tail (oracle w)) (trace w)).

Definition emit (e : event) : M unit := λ w,
  Done tt (World (nodes w) (maps w) (brk w) (oracle w) (trace w ++ [e])).

(** [malloc(sizeof(struct node_t))]: a fresh node with indeterminate fields. *)
Definition fresh_node : M (option loc) := λ w,
  Done (Some (brk w))
    (World (<[brk w := Node Undef Undef Undef]> (nodes w)) (maps w)
           (Pos.succ (brk w)) (oracle w) (trace w)).

Definition malloc_node : M (option loc) :=
  b ← choose;
  if b : bool then fresh_node else mret None.

(** [malloc(sizeof(struct Map_t))] *)
Definition fresh_map : M (option loc) := λ w,
  Done (Some (brk w))
    (World (nodes w) (<[brk w := None]> (maps w))
           (Pos.succ (brk w)) (oracle w) (trace w)).

Definition malloc_map : M (option loc) :=
  b ← choose;
  if b : bool then fresh_map else mret None.

(** [free] of a node pointer; [free(NULL)] does nothing. *)
Definition free_node (p : option loc) : M unit :=
  match p with
  | None => mret tt
  | Some l => λ w,
      match nodes w !! l with
      | Some _ => Done tt (set_nodes (delete l) w)
      | None => Fault
      end
  end.

(** [free] of a map pointer. *)
Definition free_map (p : option loc) : M unit :=
  match p with
  | None => mret tt
  | Some l => λ w,
      match maps w !! l with
      | Some _ => Done tt (set_maps (delete l) w)
      | None => Fault
      end
  end.

(** Using a node pointer that must not be null. *)
Definition nonnull (p : option loc) : M loc :=
  match p with Some l => mret l | None => fault end.

Definition load_node (l : loc) : M node_t := λ w,
  match nodes w !! l with Some n => Done n w | None => Fault end.

Definition store_node (l : loc) (n : node_t) : M unit := λ w,
  match nodes w !! l with
  | Some _ => Done tt (set_nodes (insert l n) w)
  | None => Fault
  end.

Definition load_map (m : loc) : M Map_t := λ w,
  match maps w !! m with Some (Some r) => Done r w | _ => Fault end.

Definition store_map (m : loc) (r : Map_t) : M unit := λ w,
  match maps w !! m with
  | Some _ => Done tt (set_maps (insert m (Some r)) w)
  | None => Fault
  end.

(** [node->data], [node->key], [node->next] *)
Definition node_data (l : loc) : M (ptr V) := n ← load_node l; mret (data n).
Definition node_key (l : loc) : M (ptr K) := n ← load_node l; mret (key n).
Definition node_next (l : loc) : M (option loc) :=
  n ← load_node l;
  match next n with
  | Undef => fault
  | Null => mret None
  | At p => mret (Some p)
  end.

(** [node->data = d], [node->key = k], [node->next = p] *)
Definition set_node_data (l : loc) (d : ptr V) : M unit :=
  n ← load_node l; store_node l (Node d (key n) (next n)).
Definition set_node_key (l : loc) (k : ptr K) : M unit :=
  n ← load_node l; store_node l (Node (data n) k (next n)).
Definition set_node_next (l : loc) (p : option loc) : M unit :=
  n ← load_node l; store_node l (Node (data n) (key n) (of_option p)).

Definition with_iterator (it : option loc) (r : Map_t) : Map_t :=
  MapRec it (size r) (first r) (copy_data r) (copy_key r)
         (free_data r) (free_key r) (compare_keys r).
Definition with_size (z : Z) (r : Map_t) : Map_t :=
  MapRec (iterator r) z (first r) (copy_data r) (copy_key r)
         (free_data r) (free_key r) (compare_keys r).

(** [map->iterator = it], [map->size = z] *)
Definition set_iterator (m : loc) (it : option loc) : M unit :=
  r ← load_map m; store_map m (with_iterator it r).
Definition set_size (m : loc) (z : Z) : M unit :=
  r ← load_map m; store_map m (with_size z r).

(** The result of [int] arithmetic: overflow is undefined. *)
Definition checked (z : Z) : M Z :=
  if ((INT_MIN <=? z) && (z <=? INT_MAX))%Z then mret z else fault.

(** [!p] on a pointer value. *)
Definition is_null {A} (p : ptr A) : M bool :=
  match p with
  | Undef => fault
  | Null => mret true
  | At _ => mret false
  end.

(** ** Calls through the function pointers of the map *)

(** The copy functions are called on elements only: a null or indeterminate
    argument is outside their contract.  The call allocates. *)
Definition call_copy_data (f : copyMapDataElements) (p : ptr V) : M (ptr V) :=
  match p with
  | At v => b ← choose; emit (CopyData v b);; mret (if b : bool then At (f v) else Null)
  | _ => fault
  end.

Definition call_copy_key (f : copyMapKeyElements) (p : ptr K) : M (ptr K) :=
  match p with
  | At k => b ← choose; emit (CopyKey k b);; mret (if b : bool then At (f k) else Null)
  | _ => fault
  end.

(** The free functions accept [NULL], as [free] does: [createNewNode] relies
    on it.  They return nothing; the call is recorded. *)
Definition call_free_data (f : freeMapDataElements) (p : ptr V) : M unit :=
  match p with
  | Undef => fault
  | Null => emit (FreeData None)
  | At v => let _ := f v in emit (FreeData (Some v))
  end.

Definition call_free_key (f : freeMapKeyElements) (p : ptr K) : M unit :=
  match p with
  | Undef => fault
  | Null => emit (FreeKey None)
  | At k => let _ := f k in emit (FreeKey (Some k))
  end.

Definition call_compare (f : compareMapKeyElements) (a b : ptr K) : M Z :=
  match a, b with
  | At x, At y => mret (f x y)
  | _, _ => fault
  end.

(** ** The functions of map_mtm.c *)

Definition freeNode (map : loc) (node : loc) : M unit :=
  r ← load_map map;
  d ← node_data node;
  call_free_data (free_data r) d;;
  k ← node_key node;
  call_free_key (free_key r) k;;
  free_node (Some node).

Fixpoint freeList_loop (fuel : nat) (map : loc) (cur_node : option loc) : M unit :=
  match cur_node with
  | None => mret tt
  | Some temp =>
      match fuel with
      | O => timeout
      | S fuel' =>
          nx ← node_next temp;
          freeNode map temp;;
          freeList_loop fuel' map nx
      end
  end.

(** Every round of the loop frees a node, so the walk ends within as many
    rounds as there are nodes in the heap. *)
Definition freeList (map : loc) (list : option loc) : M unit := λ w,
  freeList_loop (S (base.size (nodes w))) map list w.

Fixpoint createNewList_loop (fuel : nat) (length : Z) (new_list_head : option loc)
  : M (option loc) :=
  if (length =? 0)%Z then mret new_list_head
  else
    match fuel with
    | O => timeout
    | S fuel' =>
        new_node ← malloc_node;
        match new_node with
        | None => free_node new_list_head;; mret None
        | Some n =>
            set_node_next n new_list_head;;
            createNewList_loop fuel' (length - 1) (Some n)
        end
    end.

(** [while(length--)] runs [length] rounds for a length that is not
    negative. *)
Definition createNewList (length : Z) : M (option loc) :=
  createNewList_loop (Z.to_nat length) length None.

Fixpoint copyList_loop (fuel : nat) (src_map : loc) (new_list_head : option loc)
    (new_list_cur src_list_cur : option loc) : M (option MapResult) :=
  match src_list_cur with
  | None => mret None
  | Some src =>
      match fuel with
      | O => timeout
      | S fuel' =>
          r ← load_map src_map;
          new ← nonnull new_list_cur;
          sd ← node_data src;
          d ← call_copy_data (copy_data r) sd;
          set_node_data new d;;
          sk ← node_key src;
          k ← call_copy_key (copy_key r) sk;
          set_node_key new k;;
          d' ← node_data new;
          k' ← node_key new;
          nd ← is_null d';
          nk ← is_null k';
          if nd || nk then
            freeList src_map new_list_head;;
            mret (Some MAP_OUT_OF_MEMORY)
          else
            src_next ← node_next src;
            new_next ← node_next new;
            copyList_loop fuel' src_map new_list_head new_next src_next
      end
  end.

(** The loop walks the source chain, which has no more nodes than the heap. *)
Definition copyList_walk (src_map : loc) (new_list_head src_list_cur : option loc)
  : M (option MapResult) := λ w,
  copyList_loop (S (base.size (nodes w))) src_map new_list_head
                new_list_head src_list_cur w.

Definition copyList (src_map new_map : option loc) : M MapResult :=
  match src_map, new_map with
  | Some src, Some new =>
      r ← load_map src;
      new_list_head ← createNewList (size r);
      match new_list_head with
      | None => mret MAP_OUT_OF_MEMORY
      | Some _ =>
          sfirst ← nonnull (first r);
          src_list_cur ← node_next sfirst;
          res ← copyList_walk src new_list_head src_list_cur;
          match res with
          | Some e => mret e
          | None =>
              rn ← load_map new;
              nfirst ← nonnull (first rn);
              set_node_next nfirst new_list_head;;
              mret MAP_SUCCESS
          end
      end
  | _, _ => mret MAP_NULL_ARGUMENT
  end.

Fixpoint findPrevNode_loop (fuel : nat) (map : loc) (cur_node : option loc)
    (element : ptr K) : M (bool * option loc) :=
  match cur_node with
  | None => mret (false, None)
  | Some cur =>
      match fuel with
      | O => timeout
      | S fuel' =>
          nx ← node_next cur;
          match nx with
          | None => mret (false, Some cur)
          | Some n =>
              r ← load_map map;
              k ← node_key n;
              result ← call_compare (compare_keys r) element k;
              if (result =? 0)%Z then mret (true, Some cur)
              else if (result <? 0)%Z then mret (false, Some cur)
              else findPrevNode_loop fuel' map (Some n) element
          end
      end
  end.

(** The pair returned is [was_found] and the node stored in [*prev_node].
    A walk of more rounds than there are nodes in the heap is on a cycle. *)
Definition findPrevNode (map : loc) (element : ptr K) : M (bool * option loc) := λ w,
  (r ← load_map map;
   findPrevNode_loop (S (base.size (nodes w))) map (first r) element) w.

Definition createNewNode (map : loc) (keyElement : ptr K) (dataElement : ptr V)
  : M (option loc) :=
  new_node ← malloc_node;
  match new_node with
  | None => mret None
  | Some n =>
      r ← load_map map;
      k ← call_copy_key (copy_key r) keyElement;
      set_node_key n k;;
      d ← call_copy_data (copy_data r) dataElement;
      set_node_data n d;;
      k' ← node_key n;
      d' ← node_data n;
      nk ← is_null k';
      nd ← is_null d';
      if nk || nd then freeNode map n;; mret None
      else mret (Some n)
  end.

Definition insertNewNode (prev_node new_node : loc) : M unit :=
  nx ← node_next prev_node;
  set_node_next new_node nx;;
  set_node_next prev_node (Some new_node).

(** The fields of the record are written in one store, after the fields of
    the dummy node. *)
Definition initializeMap (map : loc)
    (copyDataElement : copyMapDataElements) (copyKeyElement : copyMapKeyElements)
    (freeDataElement : freeMapDataElements) (freeKeyElement : freeMapKeyElements)
    (compareKeyElements : compareMapKeyElements) (dummy_first : loc) : M unit :=
  set_node_key dummy_first Null;;
  set_node_data dummy_first Null;;
  set_node_next dummy_first None;;
  store_map map
    (MapRec (Some dummy_first) 0 (Some dummy_first) copyDataElement copyKeyElement
            freeDataElement freeKeyElement compareKeyElements).

Definition mapCreate
    (copyDataElement : option copyMapDataElements)
    (copyKeyElement : option copyMapKeyElements)
    (freeDataElement : option freeMapDataElements)
    (freeKeyElement : option freeMapKeyElements)
    (compareKeyElements : option compareMapKeyElements) : M (option loc) :=
  match copyDataElement, copyKeyElement, freeDataElement, freeKeyElement,
        compareKeyElements with
  | Some cd, Some ck, Some fd, Some fk, Some cmp =>
      map ← malloc_map;
      match map with
      | None => mret None
      | Some m =>
          dummy_first ← malloc_node;
          match dummy_first with
          | None => free_map (Some m);; mret None
          | Some s => initializeMap m cd ck fd fk cmp s;; mret (Some m)
          end
      end
  | _, _, _, _, _ => mret None
  end.

Definition mapClear (map : option loc) : M MapResult :=
  match map with
  | None => mret MAP_NULL_ARGUMENT
  | Some m =>
      r ← load_map m;
      s ← nonnull (first r);
      nx ← node_next s;
      freeList m nx;;
      set_node_next s None;;
      set_size m 0;;
      mret MAP_SUCCESS
  end.

Definition mapDestroy (map : option loc) : M unit :=
  match map with
  | None => mret tt
  | Some m =>
      mapClear (Some m);;
      r ← load_map m;
      free_node (first r);;
      free_map (Some m)
  end.

Definition mapCopy (map : option loc) : M (option loc) :=
  match map with
  | None => mret None
  | Some m =>
      r ← load_map m;
      map_copy ← mapCreate (Some (copy_data r)) (Some (copy_key r))
                   (Some (free_data r)) (Some (free_key r)) (Some (compare_keys r));
      match map_copy with
      | None => mret None
      | Some mc =>
          r ← load_map m;
          set_size mc (size r);;
          r ← load_map m;
          error_code ←
            (if (size r =? 0)%Z then mret MAP_SUCCESS
             else copyList (Some m) (Some mc));
          if MapResult_eqb error_code MAP_SUCCESS then
            set_iterator m None;;
            set_iterator mc None;;
            mret (Some mc)
          else
            mapDestroy (Some mc);;
            mret None
      end
  end.

Definition mapGetSize (map : option loc) : M Z :=
  match map with
  | None => mret (-1)%Z
  | Some m => r ← load_map m; mret (size r)
  end.

Definition mapContains (map : option loc) (element : option K) : M bool :=
  match map, element with
  | Some m, Some k =>
      '(found, _) ← findPrevNode m (At k);
      if found : bool then mret true else mret false
  | _, _ => mret false
  end.

Definition mapPut (map : option loc) (keyElement : option K) (dataElement : option V)
  : M MapResult :=
  match map, keyElement, dataElement with
  | Some m, Some k, Some d =>
      '(found, prev_node) ← findPrevNode m (At k);
      if found : bool then
        r ← load_map m;
        prev ← nonnull prev_node;
        nx ← node_next prev;
        n ← nonnull nx;
        old ← node_data n;
        call_free_data (free_data r) old;;
        new ← call_copy_data (copy_data r) (At d);
        set_node_data n new;;
        new' ← node_data n;
        failed ← is_null new';
        if failed : bool then mret MAP_OUT_OF_MEMORY
        else set_iterator m None;; mret MAP_SUCCESS
      else
        new_node ← createNewNode m (At k) (At d);
        match new_node with
        | None => mret MAP_OUT_OF_MEMORY
        | Some nn =>
            prev ← nonnull prev_node;
            insertNewNode prev nn;;
            r ← load_map m;
            sz ← checked (size r + 1);
            set_size m sz;;
            set_iterator m None;;
            mret MAP_SUCCESS
        end
  | _, _, _ => mret MAP_NULL_ARGUMENT
  end.

Definition mapGet (map : option loc) (keyElement : option K) : M (ptr V) :=
  match map, keyElement with
  | Some m, Some k =>
      '(found, prev_node) ← findPrevNode m (At k);
      if found : bool then
        prev ← nonnull prev_node;
        nx ← node_next prev;
        n ← nonnull nx;
        node_data n
      else mret Null
  | _, _ => mret Null
  end.

Definition mapRemove (map : option loc) (keyElement : option K) : M MapResult :=
  match map, keyElement with
  | Some m, Some k =>
      '(found, prev_node) ← findPrevNode m (At k);
      if found : bool then
        prev ← nonnull prev_node;
        nx ← node_next prev;
        node_to_remove ← nonnull nx;
        after ← node_next node_to_remove;
        set_node_next prev after;;
        freeNode m node_to_remove;;
        r ← load_map m;
        sz ← checked (size r - 1);
        set_size m sz;;
        set_iterator m None;;
        mret MAP_SUCCESS
      else mret MAP_ITEM_DOES_NOT_EXIST
  | _, _ => mret MAP_NULL_ARGUMENT
  end.

Definition mapGetFirst (map : option loc) : M (ptr K) :=
  match map with
  | None => mret Null
  | Some m =>
      r ← load_map m;
      s ← nonnull (first r);
      nx ← node_next s;
      match nx with
      | None => mret Null
      | Some n =>
          set_iterator m (Some n);;
          node_key n
      end
  end.

Definition mapGetNext (map : option loc) : M (ptr K) :=
  match map with
  | None => mret Null
  | Some m =>
      r ← load_map m;
      match iterator r with
      | None => mret Null
      | Some it =>
          nx ← node_next it;
          match nx with
          | None => mret Null
          | Some n =>
              set_iterator m (Some n);;
              node_key n
          end
      end
  end.

End Model.

Arguments node_t : clear implicits.
Arguments Map_t : clear implicits.
Arguments event : clear implicits.
Arguments world : clear implicits.
Arguments outcome : clear implicits.
Arguments M : clear implicits.
Arguments Done {K V A} a w.
Arguments Fault {K V A}.
Arguments Timeout {K V A}.

(** * Calls of a client *)

Section Protocol.
Context {K V : Type}.

(** The calls of [mapPut] on one map for a list of pairs, in order, with
    their results. *)
Fixpoint put_all (map : option loc) (kvs : list (K * V)) : M K V (list MapResult) :=
  match kvs with
  | [] => mret []
  | (k, v) :: rest =>
      res ← mapPut map (Some k) (Some v);
      rs ← put_all map rest;
      mret (res :: rs)
  end.

(** [n] calls of [mapGetNext], with their results. *)
Fixpoint getNext_times (n : nat) (map : option loc) : M K V (list (ptr K)) :=
  match n with
  | O => mret []
  | S n' =>
      k ← mapGetNext map;
      ks ← getNext_times n' map;
      mret (k :: ks)
  end.

(** The enumeration of a client: [mapGetFirst], then [mapGetNext] until it
    returns [NULL]; the keys returned before that, in order. *)
Fixpoint enumerate_loop (fuel : nat) (map : option loc) : M K V (list (ptr K)) :=
  match fuel with
  | O => timeout
  | S fuel' =>
      k ← mapGetNext map;
      match k with
      | Null => mret []
      | _ => ks ← enumerate_loop fuel' map; mret (k :: ks)
      end
  end.

Definition enumerate (map : option loc) : M K V (list (ptr K)) := λ w,
  (k ← mapGetFirst map;
   match k with
   | Null => mret []
   | _ => ks ← enumerate_loop (S (base.size (nodes w))) map; mret (k :: ks)
   end) w.

End Protocol.

(** * The representation of a map in the heap *)

Section Representation.
Context {K V : Type}.
Implicit Types (w : world K V) (ns : gmap loc (node_t K V)) (r : Map_t K V).
Implicit Types (m s l : loc) (p q : option loc).

(** A node of the chain: its address, the content of its key and its data
    pointer ([None] for a null data pointer). *)
Definition cell : Type := loc * K * option V.

Definition cloc (c : cell) : loc := c.1.1.

Definition ckey (c : cell) : K := c.1.2.

Definition cdata (c : cell) : option V := c.2.

Definition locs (cs : list cell) : list loc := cloc <$> cs.

Definition keys (cs : list cell) : list K := ckey <$> cs.

Definition node_of (c : cell) (nx : option loc) : node_t K V :=
  Node (of_option (cdata c)) (At (ckey c)) (of_option nx).

(** [seg ns p cs q]: following [next] from [p] visits the nodes [cs] and
    arrives at [q]. *)
Fixpoint seg ns p (cs : list cell) q : Prop :=
  match cs with
  | [] => p = q
  | c :: cs' =>
      p = Some (cloc c) ∧
      ∃ nx, ns !! cloc c = Some (node_of c nx) ∧ seg ns nx cs' q
  end.

(** [is_map w m r s cs]: the record [r] is stored at [m], its dummy first
    node is [s], and the chain after it is [cs], ending in [NULL]. *)
Definition is_map w m r s (cs : list cell) : Prop :=
  maps w !! m = Some (Some r) ∧
  first r = Some s ∧
  (∃ sd sk nx, nodes w !! s = Some (Node sd sk (of_option nx)) ∧
               seg (nodes w) nx cs None) ∧
  NoDup (s :: locs cs).

(** The nodes the search walks past, the nodes from the one it stops at, the
    node it leaves in [*prev_node] and its result, on the list of cells. *)
Fixpoint before (cmp : K → K → Z) (k : K) (cs : list cell) : list cell :=
  match cs with
  | [] => []
  | c :: cs' => if (0 <? cmp k (ckey c))%Z then c :: before cmp k cs' else []
  end.

Fixpoint from (cmp : K → K → Z) (k : K) (cs : list cell) : list cell :=
  match cs with
  | [] => []
  | c :: cs' => if (0 <? cmp k (ckey c))%Z then from cmp k cs' else c :: cs'
  end.

Fixpoint prev_of (cmp : K → K → Z) (k : K) (cur : loc) (cs : list cell) : loc :=
  match cs with
  | [] => cur
  | c :: cs' => if (0 <? cmp k (ckey c))%Z then prev_of cmp k (cloc c) cs' else cur
  end.

Definition hit (cmp : K → K → Z) (k : K) (cs : list cell) : bool :=
  match from cmp k cs with
  | c :: _ => (cmp k (ckey c) =? 0)%Z
  | [] => false
  end.

(** The contract of the comparison and key copy functions: the comparison is
    a three-way comparison along a total preorder, and a copy of a key
    compares equal to the key. *)
Record lawful (cmp : K → K → Z) (ck : K → K) : Prop := {
  cmp_antisym : ∀ a b, Z.sgn (cmp a b) = (- Z.sgn (cmp b a))%Z;
  cmp_trans : ∀ a b c, (cmp a b ≤ 0)%Z → (cmp b c ≤ 0)%Z → (cmp a c ≤ 0)%Z;
  copy_same : ∀ a, cmp (ck a) a = 0%Z
}.

Definition key_lt (cmp : K → K → Z) (a b : K) : Prop := (cmp a b < 0)%Z.

(** The chain is strictly increasing, [size] counts its nodes and is an
    [int]. *)
Definition good r (cs : list cell) : Prop :=
  StronglySorted (key_lt (compare_keys r)) (keys cs) ∧
  size r = Z.of_nat (length cs) ∧
  (size r ≤ INT_MAX)%Z ∧
  lawful (compare_keys r) (copy_key r).

(** The nodes of a map: the dummy first node and the chain. *)
Definition fp s (cs : list cell) : list loc := s :: locs cs.

Record wf w : Prop := {
  wf_maps : ∀ m r, maps w !! m = Some (Some r) →
            ∃ s cs, is_map w m r s cs ∧ good r cs;
  wf_sep : ∀ m1 m2 r1 r2 s1 s2 cs1 cs2 l,
            m1 ≠ m2 → is_map w m1 r1 s1 cs1 → is_map w m2 r2 s2 cs2 →
            l ∈ fp s1 cs1 → l ∈ fp s2 cs2 → False;
  wf_nodes : ∀ l, is_Some (nodes w !! l) → (l < brk w)%positive;
  wf_cells : ∀ l, is_Some (maps w !! l) → (l < brk w)%positive
}.

(** The cell that holds the copy of [v], or a null pointer when the copy
    failed. *)
Definition new_data (b : bool) (cd : V → V) (v : V) : option V :=
  if b then Some (cd v) else None.

Definition new_key (b : bool) (ck : K → K) (k : K) : option K :=
  if b then Some (ck k) else None.

(** A call on [map] leaves every other map as it is. *)
Definition others_kept (map : option loc) w w' : Prop :=
  ∀ m2 r2 s2 cs2, map ≠ Some m2 → is_map w m2 r2 s2 cs2 → is_map w' m2 r2 s2 cs2.

Definition free_events (cs : list cell) : list (event K V) :=
  flat_map (λ c, [FreeData (cdata c); FreeKey (Some (ckey c))]) cs.

Fixpoint delete_all (ls : list loc) ns : gmap loc (node_t K V) :=
  match ls with
  | [] => ns
  | l :: ls' => delete_all ls' (delete l ns)
  end.

(** [ensures o P]: if the call returned, its result and world satisfy [P]. *)
Definition ensures {A} (o : outcome K V A) (P : A → world K V → Prop) : Prop :=
  match o with
  | Done a w' => P a w'
  | _ => True
  end.

(** The nodes from address [b0] on point to nodes from [b0] on. *)
Definition closed (b0 : loc) ns : Prop :=
  ∀ l d k t, (b0 ≤ l)%positive → ns !! l = Some (Node d k (At t)) → (b0 ≤ t)%positive.

(** [rawseg ns p ls q]: a chain of nodes whose key and data are still
    indeterminate, as [createNewList] builds it. *)
Fixpoint rawseg ns p (ls : list loc) q : Prop :=
  match ls with
  | [] => p = q
  | l :: ls' =>
      p = Some l ∧
      ∃ nx, ns !! l = Some (Node Undef Undef (of_option nx)) ∧ rawseg ns nx ls' q
  end.

(** The copy of a cell at a new address. *)
Definition copy_cell (cd : V → V) (ck : K → K) (l : loc) (c : cell) : cell :=
  (l, ck (ckey c), cd <$> cdata c).

(** The record of the duplicate. *)
Definition copy_record r (sc : loc) : Map_t K V :=
  MapRec None (size r) (Some sc) (copy_data r) (copy_key r)
         (free_data r) (free_key r) (compare_keys r).

(** The states a client reaches from the start of the program by calls of
    the eleven functions of the interface that return; the functions it
    gives to [mapCreate] keep their contract. *)
Inductive reachable : world K V → Prop :=
  | reach_init o : reachable (init_world o)
  | reach_mapCreate w cd ck fd fk cmp x w' :
      reachable w →
      (∀ f g, ck = Some f → cmp = Some g → lawful g f) →
      mapCreate cd ck fd fk cmp w = Done x w' → reachable w'
  | reach_mapDestroy w map x w' :
      reachable w → mapDestroy map w = Done x w' → reachable w'
  | reach_mapCopy w map x w' :
      reachable w → mapCopy map w = Done x w' → reachable w'
  | reach_mapGetSize w map x w' :
      reachable w → mapGetSize map w = Done x w' → reachable w'
  | reach_mapContains w map k x w' :
      reachable w → mapContains map k w = Done x w' → reachable w'
  | reach_mapPut w map k v x w' :
      reachable w → mapPut map k v w = Done x w' → reachable w'
  | reach_mapGet w map k x w' :
      reachable w → mapGet map k w = Done x w' → reachable w'
  | reach_mapRemove w map k x w' :
      reachable w → mapRemove map k w = Done x w' → reachable w'
  | reach_mapGetFirst w map x w' :
      reachable w → mapGetFirst map w = Done x w' → reachable w'
  | reach_mapGetNext w map x w' :
      reachable w → mapGetNext map w = Done x w' → reachable w'
  | reach_mapClear w map x w' :
      reachable w → mapClear map w = Done x w' → reachable w'.

(** The fields of a map record that no call changes. *)
Definition same_caps r r' : Prop :=
  first r' = first r ∧ copy_data r' = copy_data r ∧ copy_key r' = copy_key r ∧
  free_data r' = free_data r ∧ free_key r' = free_key r ∧
  compare_keys r' = compare_keys r.

(** The node the search finds for a key: the first node whose key is not
    below it, when that key compares equal. *)
Definition find_cell (cmp : K → K → Z) (k : K) (cs : list cell) : option cell :=
  match from cmp k cs with
  | c :: _ => if (cmp k (ckey c) =? 0)%Z then Some c else None
  | [] => None
  end.

(** The calls a copy of the chain makes when every one succeeds. *)
Definition copy_events (cs : list cell) : list (event K V) :=
  flat_map (λ c, match cdata c with
                 | Some v => [CopyData v true; CopyKey (ckey c) true]
                 | None => []
                 end) cs.

(** The next [n] allocations succeed. *)
Fixpoint allocs_ok (n : nat) (o : list bool) : bool :=
  match n with
  | O => true
  | S n' => next_ok o && allocs_ok n' (tail o)
  end.

End Representation.

(** * A map from integers to integers *)

(** The functions a client gives to [mapCreate] for integer keys and data. *)
Definition zcopy (x : Z) : Z := x.

Definition zfree (x : Z) : unit := tt.

Definition zcompare (a b : Z) : Z := (a - b)%Z.

Definition zcreate : M Z Z (option loc) :=
  mapCreate (Some zcopy) (Some zcopy) (Some zfree) (Some zfree) (Some zcompare).

Definition world_of {A} (o : outcome Z Z A) : world Z Z :=
  match o with
  | Done _ w => w
  | _ => init_world []
  end.

(** The states of a client that creates a map (at address 1, its dummy
    node at 2), puts 1 -> 10 (node 3) and 2 -> 20 (node 4) and starts an
    enumeration; [o] gives the outcomes of the allocations. *)
Definition zw_new (o : list bool) : world Z Z := world_of (zcreate (init_world o)).

Definition zw_one (o : list bool) : world Z Z :=
  world_of (mapPut (Some 1%positive) (Some 1%Z) (Some 10%Z) (zw_new o)).

Definition zw_two (o : list bool) : world Z Z :=
  world_of (mapPut (Some 1%positive) (Some 2%Z) (Some 20%Z) (zw_one o)).

Definition zw_enum (o : list bool) : world Z Z :=
  world_of (mapGetFirst (Some 1%positive) (zw_two o)).

(** The record of the map in these states. *)
Definition zrecord (it : option loc) (sz : Z) : Map_t Z Z :=
  MapRec it sz (Some 2%positive) zcopy zcopy zfree zfree zcompare.

(** The state after the key 1 is removed during the enumeration, after the
    value of key 1 is replaced, and after the map is copied. *)
Definition zw_removed : world Z Z :=
  world_of (mapRemove (Some 1%positive) (Some 1%Z) (zw_enum [])).

Definition zw_replaced : world Z Z :=
  world_of (mapPut (Some 1%positive) (Some 1%Z) (Some 11%Z) (zw_one [])).

Definition zw_copied : world Z Z :=
  world_of (mapCopy (Some 1%positive) (zw_two [])).

(** Three pairs put out of order, and the state after them. *)
Definition zpairs : list (Z * Z) := [(1, 10); (3, 30); (2, 20)]%Z.

Definition zw_puts : world Z Z :=
  world_of (put_all (Some 1%positive) zpairs (zw_new [])).

(** Allocation outcomes: everything succeeds up to the copy of the value in a
    second Put of key 1; everything succeeds up to the copy of the first
    value in a Copy of the map with two keys. *)
Definition zo_put_fails : list bool := [true; true; true; true; true; false].

Definition zo_copy_fails : list bool :=
  [true; true; true; true; true; true; true; true; true; true; true; true; false].

(** The state after a third Put, of 3 -> 30 (node 5), the chains of the
    map in these states, and the state after a Put of a new key that finds
    no memory. *)
Definition zw_three (o : list bool) : world Z Z :=
  world_of (mapPut (Some 1%positive) (Some 3%Z) (Some 30%Z) (zw_two o)).

Definition zcells1 : list (@cell Z Z) := [(3%positive, 1%Z, Some 10%Z)].

Definition zcells2 : list (@cell Z Z) :=
  [(3%positive, 1%Z, Some 10%Z); (4%positive, 2%Z, Some 20%Z)].

Definition zcells3 : list (@cell Z Z) :=
  [(3%positive, 1%Z, Some 10%Z); (4%positive, 2%Z, Some 20%Z);
   (5%positive, 3%Z, Some 30%Z)].

Definition zw_full : world Z Z :=
  world_of (mapPut (Some 1%positive) (Some 2%Z) (Some 20%Z) (zw_one zo_put_fails)).

(** Allocation outcomes: everything succeeds up to the third node of the new
    list in a Copy of the map with three keys. *)
Definition zo_list_fails : list bool := replicate 15 true ++ [false].

(** * Properties of the representation *)

Section Theory.
Context {K V : Type}.
Implicit Types (w : world K V) (ns : gmap loc (node_t K V)) (r : Map_t K V).
Implicit Types (m s l : loc) (p q : option loc).
Implicit Types (cs : list (@cell K V)).

Lemma bind_unfold {A B} (c : M K V A) (f : A → M K V B) w :
  (c ≫= f) w =
  match c w with Done a w' => f a w' | Fault => Fault | Timeout => Timeout end.
Proof. reflexivity. Qed.

Lemma seg_frame ns ns' p cs q :
  (∀ l, l ∈ locs cs → ns' !! l = ns !! l) →
  seg ns p cs q → seg ns' p cs q.
Proof.
  revert p. induction cs as [|c cs IH]; intros p Hf; simpl; [done|].
  intros [-> (nx & Hn & Hs)]. split; [done|]. exists nx. split.
  - rewrite Hf; [done|]. unfold locs. simpl. left.
  - apply IH; [|done]. intros l Hl. apply Hf. unfold locs. simpl. by right.
Qed.

Lemma seg_app ns p cs1 cs2 q :
  seg ns p (cs1 ++ cs2) q ↔ ∃ x, seg ns p cs1 x ∧ seg ns x cs2 q.
Proof.
  revert p. induction cs1 as [|c cs1 IH]; intros p; simpl.
  - split; [intros H; by exists p|]. by intros (x & -> & H).
  - split.
    + intros [-> (nx & Hn & Hs)]. apply IH in Hs as (x & H1 & H2).
      exists x. split; [|done]. split; [done|]. by exists nx.
    + intros (x & [-> (nx & Hn & H1)] & H2). split; [done|].
      exists nx. split; [done|]. apply IH. by exists x.
Qed.

Lemma seg_inj ns p cs cs' :
  seg ns p cs None → seg ns p cs' None → cs = cs'.
Proof.
  revert p cs'. induction cs as [|c cs IH]; intros p [|c' cs']; simpl.
  - done.
  - intros -> [? _]. done.
  - intros [-> _] ?. done.
  - intros [-> (nx & Hn & Hs)] [Hc (nx' & Hn' & Hs')].
    injection Hc as Hc. rewrite <- Hc in Hn'. rewrite Hn in Hn'.
    destruct c as [[l k] d], c' as [[l' k'] d']. unfold node_of in Hn'. simpl in *.
    assert (d = d') by (destruct d, d'; naive_solver).
    assert (nx = nx') by (destruct nx, nx'; naive_solver).
    assert (k = k') by naive_solver. subst.
    unfold cloc in Hc. simpl in Hc. subst. f_equal. by eapply IH.
Qed.

Lemma seg_lookup ns p cs q c :
  seg ns p cs q → c ∈ cs → ∃ nx, ns !! cloc c = Some (node_of c nx).
Proof.
  revert p. induction cs as [|c' cs IH]; intros p; simpl.
  - intros _ H. by apply elem_of_nil in H.
  - intros [-> (nx & Hn & Hs)] [->|H]%elem_of_cons; [by exists nx|]. by eapply IH.
Qed.

Lemma is_map_inj w m r r' s s' cs cs' :
  is_map w m r s cs → is_map w m r' s' cs' → r = r' ∧ s = s' ∧ cs = cs'.
Proof.
  intros (Hm & Hf & (sd & sk & nx & Hs & Hseg) & _)
         (Hm' & Hf' & (sd' & sk' & nx' & Hs' & Hseg') & _).
  rewrite Hm in Hm'. injection Hm' as <-. rewrite Hf in Hf'. injection Hf' as <-.
  rewrite Hs in Hs'. injection Hs' as _ _ Hnx.
  assert (nx = nx') as <- by (destruct nx, nx'; naive_solver).
  split; [done|]. split; [done|]. by eapply seg_inj.
Qed.

(** A list of distinct addresses of the heap is no longer than the heap. *)
Lemma length_le_heap {A} (h : gmap loc A) (ls : list loc) :
  NoDup ls → (∀ l, l ∈ ls → is_Some (h !! l)) → length ls ≤ base.size h.
Proof.
  intros Hnd Hin.
  rewrite <- (size_list_to_set (C:=gset loc) ls Hnd), <- size_dom.
  apply subseteq_size. intros l Hl. apply elem_of_dom, Hin.
  by apply elem_of_list_to_set in Hl.
Qed.

Lemma is_map_fuel w m r s cs :
  is_map w m r s cs → S (length cs) ≤ base.size (nodes w).
Proof.
  intros (_ & _ & (sd & sk & nx & Hs & Hseg) & Hnd).
  replace (S (length cs)) with (length (s :: locs cs))
    by (unfold locs; simpl; by rewrite length_fmap).
  apply length_le_heap; [done|].
  intros l [->|Hl]%elem_of_cons; [by eexists|].
  unfold locs in Hl. apply list_elem_of_fmap in Hl as (c & -> & Hc).
  destruct (seg_lookup _ _ _ _ _ Hseg Hc) as (? & ->). by eexists.
Qed.

(** ** The positional search *)

Lemma before_from cmp k cs : before cmp k cs ++ from cmp k cs = cs.
Proof.
  induction cs as [|c cs IH]; simpl; [done|].
  destruct (0 <? cmp k (ckey c))%Z; simpl; by rewrite ?IH.
Qed.

(** Equations of the memory primitives. *)
Lemma load_map_eq w m r :
  maps w !! m = Some (Some r) → load_map m w = Done r w.
Proof. intros H. unfold load_map. by rewrite H. Qed.

Lemma load_node_eq w l n :
  nodes w !! l = Some n → load_node l w = Done n w.
Proof. intros H. unfold load_node. by rewrite H. Qed.

Lemma node_next_eq w l d k nx :
  nodes w !! l = Some (Node d k (of_option nx)) → node_next l w = Done nx w.
Proof.
  intros H. unfold node_next. rewrite bind_unfold, (load_node_eq _ _ _ H).
  by destruct nx.
Qed.

Lemma node_key_eq w l n :
  nodes w !! l = Some n → node_key l w = Done (key n) w.
Proof. intros H. unfold node_key. by rewrite bind_unfold, (load_node_eq _ _ _ H). Qed.

Lemma node_data_eq w l n :
  nodes w !! l = Some n → node_data l w = Done (data n) w.
Proof. intros H. unfold node_data. by rewrite bind_unfold, (load_node_eq _ _ _ H). Qed.

Lemma store_node_eq w l n n' :
  nodes w !! l = Some n → store_node l n' w = Done tt (set_nodes (insert l n') w).
Proof. intros H. unfold store_node. by rewrite H. Qed.

Lemma set_node_next_eq w l n p :
  nodes w !! l = Some n →
  set_node_next l p w =
  Done tt (set_nodes (insert l (Node (data n) (key n) (of_option p))) w).
Proof.
  intros H. unfold set_node_next.
  by rewrite bind_unfold, (load_node_eq _ _ _ H), (store_node_eq _ _ _ _ H).
Qed.

Lemma set_node_data_eq w l n d :
  nodes w !! l = Some n →
  set_node_data l d w = Done tt (set_nodes (insert l (Node d (key n) (next n))) w).
Proof.
  intros H. unfold set_node_data.
  by rewrite bind_unfold, (load_node_eq _ _ _ H), (store_node_eq _ _ _ _ H).
Qed.

Lemma set_node_key_eq w l n k :
  nodes w !! l = Some n →
  set_node_key l k w = Done tt (set_nodes (insert l (Node (data n) k (next n))) w).
Proof.
  intros H. unfold set_node_key.
  by rewrite bind_unfold, (load_node_eq _ _ _ H), (store_node_eq _ _ _ _ H).
Qed.

Lemma store_map_eq w m o r :
  maps w !! m = Some o → store_map m r w = Done tt (set_maps (insert m (Some r)) w).
Proof. intros H. unfold store_map. by rewrite H. Qed.

Lemma set_iterator_eq w m r it :
  maps w !! m = Some (Some r) →
  set_iterator m it w = Done tt (set_maps (insert m (Some (with_iterator it r))) w).
Proof.
  intros H. unfold set_iterator.
  by rewrite bind_unfold, (load_map_eq _ _ _ H), (store_map_eq _ _ _ _ H).
Qed.

Lemma set_size_eq w m r z :
  maps w !! m = Some (Some r) →
  set_size m z w = Done tt (set_maps (insert m (Some (with_size z r))) w).
Proof.
  intros H. unfold set_size.
  by rewrite bind_unfold, (load_map_eq _ _ _ H), (store_map_eq _ _ _ _ H).
Qed.

Lemma free_node_eq w l n :
  nodes w !! l = Some n → free_node (Some l) w = Done tt (set_nodes (delete l) w).
Proof. intros H. unfold free_node. by rewrite H. Qed.

Lemma findPrevNode_loop_spec w m r k cs : ∀ fuel cur sd sk nx,
  maps w !! m = Some (Some r) →
  nodes w !! cur = Some (Node sd sk (of_option nx)) →
  seg (nodes w) nx cs None →
  length cs < fuel →
  findPrevNode_loop fuel m (Some cur) (At k) w =
  Done (hit (compare_keys r) k cs, Some (prev_of (compare_keys r) k cur cs)) w.
Proof.
  induction cs as [|c cs IH]; intros fuel cur sd sk nx Hm Hcur Hseg Hfuel.
  - destruct fuel as [|fuel]; [simpl in Hfuel; lia|]. simpl in Hseg. subst nx.
    simpl. by rewrite bind_unfold, (node_next_eq _ _ _ _ _ Hcur).
  - destruct fuel as [|fuel]; [simpl in Hfuel; lia|].
    destruct Hseg as [-> (nx' & Hn & Hseg)].
    simpl. rewrite bind_unfold, (node_next_eq _ _ _ _ _ Hcur).
    rewrite bind_unfold, (load_map_eq _ _ _ Hm).
    rewrite bind_unfold, (node_key_eq _ _ _ Hn). simpl.
    rewrite bind_unfold. unfold mret at 1, M_ret at 1.
    unfold hit. simpl.
    destruct (compare_keys r k (ckey c) =? 0)%Z eqn:E.
    { apply Z.eqb_eq in E. rewrite E. simpl. by rewrite E. }
    destruct (compare_keys r k (ckey c) <? 0)%Z eqn:L.
    { apply Z.ltb_lt in L.
      replace (0 <? compare_keys r k (ckey c))%Z with false
        by (symmetry; apply Z.ltb_ge; lia).
      by rewrite E. }
    apply Z.ltb_ge in L. apply Z.eqb_neq in E.
    replace (0 <? compare_keys r k (ckey c))%Z with true
      by (symmetry; apply Z.ltb_lt; lia).
    eapply IH; eauto. simpl in Hfuel. lia.
Qed.

Lemma findPrevNode_spec w m r s cs k :
  is_map w m r s cs →
  findPrevNode m (At k) w =
  Done (hit (compare_keys r) k cs, Some (prev_of (compare_keys r) k s cs)) w.
Proof.
  intros Hmap. pose proof (is_map_fuel _ _ _ _ _ Hmap) as Hfuel.
  destruct Hmap as (Hm & Hf & (sd & sk & nx & Hs & Hseg) & Hnd).
  unfold findPrevNode. rewrite bind_unfold, (load_map_eq _ _ _ Hm), Hf.
  eapply findPrevNode_loop_spec; eauto; lia.
Qed.

(** ** The invariant of the heap *)

Lemma is_map_lookup w m r s cs l :
  is_map w m r s cs → l ∈ fp s cs → is_Some (nodes w !! l).
Proof.
  intros (_ & _ & (sd & sk & nx & Hs & Hseg) & _) [->|Hl]%elem_of_cons; [by eexists|].
  unfold locs in Hl. apply list_elem_of_fmap in Hl as (c & -> & Hc).
  destruct (seg_lookup _ _ _ _ _ Hseg Hc) as (? & ->). by eexists.
Qed.

Lemma is_map_frame w w' m r s cs :
  maps w' !! m = Some (Some r) →
  (∀ l, l ∈ fp s cs → nodes w' !! l = nodes w !! l) →
  is_map w m r s cs → is_map w' m r s cs.
Proof.
  intros Hm Hfr (_ & Hf & (sd & sk & nx & Hs & Hseg) & Hnd).
  split; [done|]. split; [done|]. split; [|done].
  exists sd, sk, nx. split.
  - rewrite Hfr; [done|]. by left.
  - eapply seg_frame; [|done]. intros l Hl. apply Hfr. by right.
Qed.

(** A call that changes one map [m] (or makes it, or frees it) keeps the
    invariant when it leaves the nodes of the other maps alone and the nodes
    of [m] afterwards are nodes of [m] before or new. *)
Lemma wf_step w w' m :
  wf w →
  (brk w ≤ brk w')%positive →
  (∀ l, is_Some (nodes w' !! l) → (l < brk w')%positive) →
  (∀ l, is_Some (maps w' !! l) → (l < brk w')%positive) →
  (∀ m', m' ≠ m → maps w' !! m' = maps w !! m') →
  (∀ l n, nodes w !! l = Some n →
          (∀ r s cs, is_map w m r s cs → l ∉ fp s cs) →
          nodes w' !! l = Some n) →
  (∀ r', maps w' !! m = Some (Some r') →
     ∃ s cs, is_map w' m r' s cs ∧ good r' cs ∧
       ∀ l, l ∈ fp s cs →
         (brk w ≤ l)%positive ∨
         ∃ r0 s0 cs0, is_map w m r0 s0 cs0 ∧ l ∈ fp s0 cs0) →
  wf w'.
Proof.
  intros Hwf Hbrk Hn' Hc' Hother Hframe Hm.
  assert (Htrans : ∀ m' r s cs, m' ≠ m → is_map w m' r s cs → is_map w' m' r s cs).
  { intros m' r s cs Hne Hmap. eapply is_map_frame; [| |done].
    - rewrite Hother by done. apply Hmap.
    - intros l Hl. destruct (is_map_lookup _ _ _ _ _ _ Hmap Hl) as [n Hn].
      rewrite Hn. apply Hframe; [done|]. intros r0 s0 cs0 Hmap0 Hl0.
      by eapply (wf_sep _ Hwf m' m). }
  assert (Hold : ∀ m' r s cs, m' ≠ m → is_map w' m' r s cs → is_map w m' r s cs).
  { intros m' r s cs Hne Hmap. pose proof Hmap as (Hm' & _).
    rewrite Hother in Hm' by done.
    destruct (wf_maps _ Hwf _ _ Hm') as (s0 & cs0 & Hmap0 & _).
    pose proof (Htrans _ _ _ _ Hne Hmap0) as Hmap1.
    destruct (is_map_inj _ _ _ _ _ _ _ _ Hmap Hmap1) as (_ & -> & ->). done. }
  assert (Hside : ∀ m2 r1 r2 s1 s2 cs1 cs2 l, m2 ≠ m →
            is_map w' m r1 s1 cs1 → is_map w' m2 r2 s2 cs2 →
            l ∈ fp s1 cs1 → l ∈ fp s2 cs2 → False).
  { intros m2 r1 r2 s1 s2 cs1 cs2 l Hne H1 H2 Hl1 Hl2.
    apply Hold in H2; [|done].
    destruct (Hm r1) as (s & cs & Hmap & _ & Hfp); [apply H1|].
    destruct (is_map_inj _ _ _ _ _ _ _ _ H1 Hmap) as (_ & -> & ->).
    destruct (Hfp _ Hl1) as [Hfresh|(r0 & s0 & cs0 & Hmap0 & Hl0)].
    - pose proof (wf_nodes _ Hwf _ (is_map_lookup _ _ _ _ _ _ H2 Hl2)). lia.
    - by eapply (wf_sep _ Hwf m m2). }
  split; [| |done|done].
  - intros m' r Hm'. destruct (decide (m' = m)) as [->|Hne].
    + destruct (Hm _ Hm') as (s & cs & ? & ? & _). by exists s, cs.
    + rewrite Hother in Hm' by done.
      destruct (wf_maps _ Hwf _ _ Hm') as (s & cs & Hmap & Hgood).
      exists s, cs. split; [|done]. by apply Htrans.
  - intros m1 m2 r1 r2 s1 s2 cs1 cs2 l Hne H1 H2 Hl1 Hl2.
    destruct (decide (m1 = m)) as [->|Hne1].
    { by eapply (Hside m2). }
    destruct (decide (m2 = m)) as [->|Hne2].
    { by eapply (Hside m1). }
    eapply (wf_sep _ Hwf m1 m2); eauto.
Qed.

(** ** Consequences of the contract of the comparison *)

Section Order.
Context (cmp : K → K → Z) (ck : K → K) (Hlaw : lawful cmp ck).

Lemma cmp_flip_lt a b : (cmp a b < 0)%Z ↔ (0 < cmp b a)%Z.
Proof. pose proof (cmp_antisym _ _ Hlaw a b). lia. Qed.

Lemma cmp_flip_eq a b : cmp a b = 0%Z ↔ cmp b a = 0%Z.
Proof. pose proof (cmp_antisym _ _ Hlaw a b). lia. Qed.

Lemma cmp_lt_le_trans a b c :
  (cmp a b < 0)%Z → (cmp b c ≤ 0)%Z → (cmp a c < 0)%Z.
Proof.
  intros Hab Hbc. destruct (Z.lt_ge_cases (cmp a c) 0) as [|Hac]; [done|].
  assert (cmp c a ≤ 0)%Z as Hca by (pose proof (cmp_antisym _ _ Hlaw a c); lia).
  pose proof (cmp_trans _ _ Hlaw b c a Hbc Hca).
  pose proof (cmp_antisym _ _ Hlaw a b). lia.
Qed.

Lemma cmp_le_lt_trans a b c :
  (cmp a b ≤ 0)%Z → (cmp b c < 0)%Z → (cmp a c < 0)%Z.
Proof.
  intros Hab Hbc. destruct (Z.lt_ge_cases (cmp a c) 0) as [|Hac]; [done|].
  assert (cmp c a ≤ 0)%Z as Hca by (pose proof (cmp_antisym _ _ Hlaw a c); lia).
  pose proof (cmp_trans _ _ Hlaw c a b Hca Hab).
  pose proof (cmp_antisym _ _ Hlaw b c). lia.
Qed.

Lemma key_lt_trans a b c : key_lt cmp a b → key_lt cmp b c → key_lt cmp a c.
Proof. unfold key_lt. intros ? ?. eapply cmp_lt_le_trans; [done|lia]. Qed.

Lemma cmp_copy_l a : cmp (ck a) a = 0%Z.
Proof. apply (copy_same _ _ Hlaw). Qed.

Lemma cmp_copy_r a : cmp a (ck a) = 0%Z.
Proof. apply cmp_flip_eq, cmp_copy_l. Qed.

End Order.

(** ** Facts on the search *)

Lemma before_gt cmp k cs c :
  c ∈ before cmp k cs → (0 < cmp k (ckey c))%Z.
Proof.
  induction cs as [|c' cs IH]; simpl; [by intros ?%elem_of_nil|].
  destruct (0 <? cmp k (ckey c'))%Z eqn:E; [|by intros ?%elem_of_nil].
  intros [->|?]%elem_of_cons; [by apply Z.ltb_lt|auto].
Qed.

Lemma from_head cmp k cs c cs' :
  from cmp k cs = c :: cs' → (cmp k (ckey c) ≤ 0)%Z.
Proof.
  induction cs as [|c' cs IH]; simpl; [done|].
  destruct (0 <? cmp k (ckey c'))%Z eqn:E; [done|].
  intros [= -> ->]. by apply Z.ltb_ge.
Qed.

Lemma hit_true cmp k cs :
  hit cmp k cs = true →
  ∃ c cs', from cmp k cs = c :: cs' ∧ cmp k (ckey c) = 0%Z.
Proof.
  unfold hit. destruct (from cmp k cs) as [|c cs']; [done|].
  intros ?%Z.eqb_eq. by exists c, cs'.
Qed.

Lemma hit_false cmp k cs :
  hit cmp k cs = false →
  ∀ c cs', from cmp k cs = c :: cs' → (cmp k (ckey c) < 0)%Z.
Proof.
  unfold hit. intros H c cs' E. pose proof (from_head _ _ _ _ _ E).
  rewrite E in H. apply Z.eqb_neq in H. lia.
Qed.

Lemma locs_app cs1 cs2 : locs (cs1 ++ cs2) = locs cs1 ++ locs cs2.
Proof. unfold locs. apply fmap_app. Qed.

Lemma locs_cons c cs : locs (c :: cs) = cloc c :: locs cs.
Proof. reflexivity. Qed.

Lemma keys_cons c cs : keys (c :: cs) = ckey c :: keys cs.
Proof. reflexivity. Qed.

Lemma keys_app cs1 cs2 : keys (cs1 ++ cs2) = keys cs1 ++ keys cs2.
Proof. unfold keys. apply fmap_app. Qed.

Lemma elem_of_locs c cs : c ∈ cs → cloc c ∈ locs cs.
Proof. intros. unfold locs. by apply list_elem_of_fmap_2. Qed.

Lemma before_sub cmp k cs l : l ∈ locs (before cmp k cs) → l ∈ locs cs.
Proof.
  rewrite <- (before_from cmp k cs) at 2. rewrite locs_app, elem_of_app. auto.
Qed.

Lemma seg_head ns p cs : seg ns p cs None → p = head (locs cs).
Proof. destruct cs; simpl; [done|]. by intros [-> _]. Qed.

(** The node the search stops at points to the first node not walked past;
    writing another successor into it splices another tail into the chain. *)
Lemma relink ns cmp k cs : ∀ cur d kk nx,
  ns !! cur = Some (Node d kk (of_option nx)) →
  seg ns nx cs None →
  cur ∉ locs cs →
  NoDup (locs cs) →
  ∃ pd pk,
    ns !! prev_of cmp k cur cs =
      Some (Node pd pk (of_option (head (locs (from cmp k cs))))) ∧
    prev_of cmp k cur cs ∈ cur :: locs (before cmp k cs) ∧
    seg ns (head (locs (from cmp k cs))) (from cmp k cs) None ∧
    ∀ ns' p' cs',
      (∀ l, l ∈ cur :: locs (before cmp k cs) → l ≠ prev_of cmp k cur cs →
            ns' !! l = ns !! l) →
      ns' !! prev_of cmp k cur cs = Some (Node pd pk (of_option p')) →
      seg ns' p' cs' None →
      ∃ nx', ns' !! cur = Some (Node d kk (of_option nx')) ∧
             seg ns' nx' (before cmp k cs ++ cs') None.
Proof.
  induction cs as [|c cs IH]; intros cur d kk nx Hcur Hseg Hni Hnd.
  - simpl in *. subst nx. exists d, kk. split; [done|]. split; [by left|].
    split; [done|]. intros ns' p' cs' _ Hp Hs. by exists p'.
  - destruct Hseg as [-> (nx2 & Hc & Hseg)]. simpl.
    apply NoDup_cons in Hnd as [Hc_ni Hnd].
    destruct (0 <? cmp k (ckey c))%Z eqn:E.
    + destruct (IH (cloc c) _ _ _ Hc Hseg Hc_ni Hnd)
        as (pd & pk & Hprev & Hin & Hfrom & Hre).
      exists pd, pk. split; [done|]. split; [by right|]. split; [done|].
      intros ns' p' cs' Hsame Hp Hs.
      assert (prev_of cmp k (cloc c) cs ≠ cur) as Hne.
      { intros <-. apply Hni. apply elem_of_cons in Hin as [->|Hin].
        - by left.
        - right. by apply before_sub in Hin. }
      destruct (Hre ns' p' cs') as (nx' & Hc' & Hs'); [|done|done|].
      { intros l Hl Hlp. apply Hsame; [by right|done]. }
      exists (Some (cloc c)). split.
      * rewrite Hsame; [done|by left|done].
      * simpl. split; [done|]. by exists nx'.
    + exists d, kk. split; [done|]. split; [by left|]. split.
      { simpl. split; [done|]. by exists nx2. }
      intros ns' p' cs' _ Hp Hs. by exists p'.
Qed.

(** The node the search stops at is not among the nodes from the one it
    stops before. *)
Lemma prev_not_from w m r s cs k :
  is_map w m r s cs →
  prev_of (compare_keys r) k s cs ∈ fp s cs ∧
  prev_of (compare_keys r) k s cs ∉ locs (from (compare_keys r) k cs).
Proof.
  intros (_ & _ & (sd & sk & nx0 & Hs0 & Hseg) & Hnd).
  pose proof Hnd as Hnd0. apply NoDup_cons in Hnd as [Hs_ni Hnd].
  destruct (relink _ (compare_keys r) k cs _ _ _ _ Hs0 Hseg Hs_ni Hnd)
    as (_ & _ & _ & Hin & _).
  split.
  - apply elem_of_cons in Hin as [->|Hin]; [by left|]. right. by eapply before_sub.
  - rewrite <- (before_from (compare_keys r) k cs), locs_app in Hnd0.
    change (NoDup ((s :: locs (before (compare_keys r) k cs)) ++
                   locs (from (compare_keys r) k cs))) in Hnd0.
    apply NoDup_app in Hnd0 as (_ & Hd & _). by apply Hd.
Qed.

(** ** mapPut *)

Lemma call_free_data_eq f (d : option V) w :
  call_free_data f (of_option d) w = emit (FreeData d) w.
Proof. by destruct d. Qed.

Lemma call_free_key_eq f (k : option K) w :
  call_free_key f (of_option k) w = emit (FreeKey k) w.
Proof. by destruct k. Qed.

Lemma call_copy_data_eq f (v : V) w :
  call_copy_data f (At v) w =
  Done (of_option (new_data (next_ok (oracle w)) f v))
    (World (nodes w) (maps w) (brk w) (tail (oracle w))
           (trace w ++ [CopyData v (next_ok (oracle w))])).
Proof.
  unfold call_copy_data, new_data, mbind, M_bind, choose, emit, mret, M_ret.
  simpl. by destruct (next_ok (oracle w)).
Qed.

Lemma call_copy_key_eq f (k : K) w :
  call_copy_key f (At k) w =
  Done (of_option (new_key (next_ok (oracle w)) f k))
    (World (nodes w) (maps w) (brk w) (tail (oracle w))
           (trace w ++ [CopyKey k (next_ok (oracle w))])).
Proof.
  unfold call_copy_key, new_key, mbind, M_bind, choose, emit, mret, M_ret.
  simpl. by destruct (next_ok (oracle w)).
Qed.

Lemma ret_eq {A} (a : A) w : (mret a : M K V A) w = Done a w.
Proof. reflexivity. Qed.

Lemma nonnull_eq l w : nonnull (Some l) w = Done l w.
Proof. reflexivity. Qed.

Lemma is_null_eq {A} (o : option A) w :
  is_null (of_option o) w = Done (bool_decide (o = None)) w.
Proof. by destruct o. Qed.

Ltac tidy :=
  cbv beta iota; unfold set_nodes, set_maps;
  cbn [nodes maps brk oracle trace data key next].
Tactic Notation "step" uconstr(E) := rewrite bind_unfold, E; tidy.
Ltac side :=
  tidy;
  repeat (rewrite lookup_insert_ne by done);
  first [ eassumption | apply lookup_insert_eq ].
Tactic Notation "estep" uconstr(E) :=
  rewrite bind_unfold; erewrite E by side; tidy.

Lemma mapPut_found w m r s cs k v c cs2 :
  is_map w m r s cs →
  from (compare_keys r) k cs = c :: cs2 →
  compare_keys r k (ckey c) = 0%Z →
  let b := next_ok (oracle w) in
  ∃ nx, nodes w !! cloc c = Some (node_of c nx) ∧
  mapPut (Some m) (Some k) (Some v) w =
  Done (if b then MAP_SUCCESS else MAP_OUT_OF_MEMORY)
    (World
       (<[cloc c := node_of (cloc c, ckey c, new_data b (copy_data r) v) nx]> (nodes w))
       (if b then <[m := Some (with_iterator None r)]> (maps w) else maps w)
       (brk w) (tail (oracle w))
       (trace w ++ [FreeData (cdata c); CopyData v b])).
Proof.
  intros Hmap Hfrom Hcmp b.
  pose proof (findPrevNode_spec _ _ _ _ _ k Hmap) as Hfind.
  destruct Hmap as (Hm & Hf & (sd & sk & nx & Hs & Hseg) & Hnd).
  apply NoDup_cons in Hnd as [Hs_ni Hnd].
  destruct (relink _ (compare_keys r) k cs _ _ _ _ Hs Hseg Hs_ni Hnd)
    as (pd & pk & Hprev & Hin & Hsegf & _).
  rewrite Hfrom in Hprev, Hsegf. simpl in Hprev.
  destruct Hsegf as [_ (nxc & Hc & Hseg2)].
  exists nxc. split; [done|].
  unfold mapPut. step Hfind.
  unfold hit. rewrite Hfrom, Hcmp. cbn [Z.eqb].
  step (load_map_eq _ _ _ Hm). step nonnull_eq.
  step (node_next_eq _ _ _ _ (Some (cloc c)) Hprev). step nonnull_eq.
  step (node_data_eq _ _ _ Hc). unfold node_of at 1. tidy.
  step call_free_data_eq. unfold emit at 1. tidy.
  step call_copy_data_eq. fold b.
  rewrite bind_unfold. erewrite set_node_data_eq by (tidy; exact Hc). tidy.
  rewrite bind_unfold. erewrite node_data_eq by (tidy; apply lookup_insert_eq). tidy.
  step is_null_eq.
  rewrite <- app_assoc. unfold node_of. simpl.
  destruct b; simpl; [|done].
  rewrite bind_unfold. erewrite set_iterator_eq by (tidy; exact Hm). done.
Qed.

Lemma malloc_node_eq w :
  malloc_node w =
  if next_ok (oracle w) then
    Done (Some (brk w))
      (World (<[brk w := Node Undef Undef Undef]> (nodes w)) (maps w)
             (Pos.succ (brk w)) (tail (oracle w)) (trace w))
  else Done None (World (nodes w) (maps w) (brk w) (tail (oracle w)) (trace w)).
Proof.
  unfold malloc_node, mbind, M_bind, choose. by destruct (next_ok (oracle w)).
Qed.

Lemma checked_eq z w :
  checked z w =
  if ((INT_MIN <=? z) && (z <=? INT_MAX))%Z then Done z w else Fault.
Proof. unfold checked. by destruct (_ && _). Qed.

Lemma freeNode_eq w m r l (d : option V) (k : option K) nx :
  maps w !! m = Some (Some r) →
  nodes w !! l = Some (Node (of_option d) (of_option k) nx) →
  freeNode m l w =
  Done tt (World (delete l (nodes w)) (maps w) (brk w) (oracle w)
                 (trace w ++ [FreeData d; FreeKey k])).
Proof.
  intros Hm Hl. unfold freeNode.
  step (load_map_eq _ _ _ Hm). step (node_data_eq _ _ _ Hl).
  step call_free_data_eq. unfold emit at 1. tidy.
  estep node_key_eq. step call_free_key_eq. unfold emit at 1. tidy.
  erewrite free_node_eq by side. tidy. by rewrite <- app_assoc.
Qed.

Lemma mapPut_absent w m r s cs k v :
  is_map w m r s cs →
  hit (compare_keys r) k cs = false →
  nodes w !! brk w = None →
  let b1 := next_ok (oracle w) in
  let b2 := next_ok (tail (oracle w)) in
  let b3 := next_ok (tail (tail (oracle w))) in
  let o' := tail (tail (tail (oracle w))) in
  let prev := prev_of (compare_keys r) k s cs in
  let nx := head (locs (from (compare_keys r) k cs)) in
  ∃ pd pk, nodes w !! prev = Some (Node pd pk (of_option nx)) ∧
  mapPut (Some m) (Some k) (Some v) w =
  if b1 then
    if b2 && b3 then
      if ((INT_MIN <=? size r + 1) && (size r + 1 <=? INT_MAX))%Z then
        Done MAP_SUCCESS
          (World
             (<[prev := Node pd pk (At (brk w))]>
                (<[brk w := node_of (brk w, copy_key r k, Some (copy_data r v)) nx]>
                   (nodes w)))
             (<[m := Some (with_iterator None (with_size (size r + 1) r))]> (maps w))
             (Pos.succ (brk w)) o'
             (trace w ++ [CopyKey k true; CopyData v true]))
      else Fault
    else
      Done MAP_OUT_OF_MEMORY
        (World (nodes w) (maps w) (Pos.succ (brk w)) o'
           (trace w ++ [CopyKey k b2; CopyData v b3;
                        FreeData (new_data b3 (copy_data r) v);
                        FreeKey (new_key b2 (copy_key r) k)]))
  else
    Done MAP_OUT_OF_MEMORY
      (World (nodes w) (maps w) (brk w) (tail (oracle w)) (trace w)).
Proof.
  intros Hmap Hhit Hfresh b1 b2 b3 o' prev nx.
  pose proof (findPrevNode_spec _ _ _ _ _ k Hmap) as Hfind.
  destruct Hmap as (Hm & Hf & (sd & sk & nx0 & Hs & Hseg) & Hnd).
  apply NoDup_cons in Hnd as [Hs_ni Hnd].
  destruct (relink _ (compare_keys r) k cs _ _ _ _ Hs Hseg Hs_ni Hnd)
    as (pd & pk & Hprev & Hin & Hsegf & _).
  exists pd, pk. split; [done|].
  assert (prev ≠ brk w) as Hne
    by (unfold prev; intros E; rewrite E in Hprev; congruence).
  unfold mapPut. step Hfind. rewrite Hhit. cbv iota.
  unfold createNewNode. rewrite !bind_unfold, malloc_node_eq. fold b1.
  destruct b1; [|done]. tidy.
  estep load_map_eq. step call_copy_key_eq. fold b2.
  estep set_node_key_eq. rewrite insert_insert_eq.
  step call_copy_data_eq. fold b3.
  estep set_node_data_eq. rewrite insert_insert_eq.
  estep node_key_eq. estep node_data_eq.
  step is_null_eq. step is_null_eq. fold o'.
  rewrite <- app_assoc. cbn [app].
  assert (Hfail : ∀ (d : option V) (kk : option K) t,
    (freeNode m (brk w) ≫= λ _ : (), mret (M:=M K V) (None : option loc))
      (World (<[brk w := Node (of_option d) (of_option kk) Undef]> (nodes w))
             (maps w) (Pos.succ (brk w)) o' t) =
    Done None (World (nodes w) (maps w) (Pos.succ (brk w)) o'
                     (t ++ [FreeData d; FreeKey kk]))).
  { intros d kk t. estep freeNode_eq. by rewrite delete_insert_id. }
  destruct b2, b3; cbn [new_key new_data bool_decide decide_rel orb andb];
    rewrite ?bool_decide_eq_true_2, ?bool_decide_eq_false_2 by done;
    cbn [orb]; rewrite ?Hfail; tidy; rewrite <- ?app_assoc; try done.
  rewrite ret_eq. tidy. step nonnull_eq. unfold insertNewNode.
  rewrite bind_unfold. estep node_next_eq.
  estep set_node_next_eq. rewrite insert_insert_eq.
  erewrite set_node_next_eq by side. tidy.
  estep load_map_eq. step checked_eq.
  destruct (_ && _); [|done]. tidy.
  estep set_size_eq. estep set_iterator_eq.
  by rewrite insert_insert_eq.
Qed.

Lemma of_option_inj {A} (a b : option A) : of_option a = of_option b → a = b.
Proof. destruct a, b; naive_solver. Qed.

Lemma NoDup_locs_app cs1 c cs2 :
  NoDup (locs (cs1 ++ c :: cs2)) →
  (cloc c ∉ locs cs1) ∧ (cloc c ∉ locs cs2) ∧ NoDup (locs (cs1 ++ cs2)).
Proof.
  rewrite !locs_app. unfold locs at 2. rewrite fmap_cons. fold (locs cs2).
  rewrite !NoDup_app, NoDup_cons. intros (H1 & H2 & H3 & H4).
  split; [|split; [done|]].
  - intros Hin. apply (H2 _ Hin). by left.
  - split; [done|]. split; [|done]. intros x Hx Hx'. apply (H2 _ Hx). by right.
Qed.

(** The chain after the data pointer of one node is replaced. *)
Lemma is_map_set_data w w' m r r' s cs1 c cs2 nx d' :
  is_map w m r s (cs1 ++ c :: cs2) →
  nodes w !! cloc c = Some (node_of c nx) →
  nodes w' = <[cloc c := node_of (cloc c, ckey c, d') nx]> (nodes w) →
  maps w' !! m = Some (Some r') →
  first r' = first r →
  is_map w' m r' s (cs1 ++ (cloc c, ckey c, d') :: cs2).
Proof.
  intros (Hm & Hf & (sd & sk & nx0 & Hs & Hseg) & Hnd) Hc Hn' Hm' Hf'.
  split; [done|]. split; [congruence|].
  assert (locs (cs1 ++ (cloc c, ckey c, d') :: cs2) = locs (cs1 ++ c :: cs2)) as Hl
    by (by rewrite !locs_app).
  split; [|by rewrite Hl].
  apply NoDup_cons in Hnd as [Hs_ni Hnd].
  pose proof (NoDup_locs_app _ _ _ Hnd) as (Hc1 & Hc2 & _).
  apply seg_app in Hseg as (x & Hseg1 & [-> (nxc & Hc' & Hseg2)]).
  rewrite Hc in Hc'. injection Hc' as Hnx. apply of_option_inj in Hnx as <-.
  exists sd, sk, nx0. rewrite Hn'. split.
  - rewrite lookup_insert_ne; [done|]. intros <-. apply Hs_ni.
    rewrite locs_app, elem_of_app. right. by left.
  - apply seg_app. exists (Some (cloc c)). split.
    + eapply seg_frame; [|done]. intros l Hl1.
      apply lookup_insert_ne. intros E. by subst l.
    + simpl. split; [done|]. exists nx. split; [apply lookup_insert_eq|].
      eapply seg_frame; [|done]. intros l Hl2.
      apply lookup_insert_ne. intros E. by subst l.
Qed.

(** The chain after a new node is linked behind the node the search stopped
    at. *)
Lemma is_map_link w w' m r r' s cs k c pd pk :
  is_map w m r s cs →
  nodes w !! cloc c = None →
  let prev := prev_of (compare_keys r) k s cs in
  let nx := head (locs (from (compare_keys r) k cs)) in
  nodes w !! prev = Some (Node pd pk (of_option nx)) →
  nodes w' = <[prev := Node pd pk (At (cloc c))]> (<[cloc c := node_of c nx]> (nodes w)) →
  maps w' !! m = Some (Some r') →
  first r' = first r →
  is_map w' m r' s (before (compare_keys r) k cs ++ c :: from (compare_keys r) k cs).
Proof.
  intros Hmap Hfresh prev nx Hprev Hn' Hm' Hf'.
  assert (Hnew : cloc c ∉ fp s cs).
  { intros Hl. destruct (is_map_lookup _ _ _ _ _ _ Hmap Hl). congruence. }
  destruct Hmap as (Hm & Hf & (sd & sk & nx0 & Hs & Hseg) & Hnd).
  pose proof Hnd as Hnd0.
  apply NoDup_cons in Hnd as [Hs_ni Hnd].
  destruct (relink _ (compare_keys r) k cs _ _ _ _ Hs Hseg Hs_ni Hnd)
    as (pd' & pk' & Hprev' & Hin & Hsegf & Hre).
  fold prev in Hprev', Hin, Hre. fold nx in Hprev', Hsegf.
  rewrite Hprev in Hprev'. injection Hprev' as <- <-.
  assert (Hsub : ∀ l, l ∈ s :: locs (before (compare_keys r) k cs) → l ∈ fp s cs).
  { intros l [->|Hl]%elem_of_cons; [by left|]. right. by eapply before_sub. }
  assert (Hsub2 : ∀ l, l ∈ locs (from (compare_keys r) k cs) → l ∈ fp s cs).
  { intros l Hl. right.
    rewrite <- (before_from (compare_keys r) k cs), locs_app, elem_of_app. auto. }
  assert (Hdisj : ∀ l, l ∈ locs (from (compare_keys r) k cs) →
                       l ∈ s :: locs (before (compare_keys r) k cs) → False).
  { rewrite <- (before_from (compare_keys r) k cs), locs_app in Hnd0.
    change (NoDup ((s :: locs (before (compare_keys r) k cs)) ++
                   locs (from (compare_keys r) k cs))) in Hnd0.
    apply NoDup_app in Hnd0 as (_ & Hd & _). intros l H1 H2. by apply (Hd l). }
  assert (prev ≠ cloc c) as Hpc by (intros E; apply Hnew; rewrite <- E; auto).
  split; [done|]. split; [congruence|]. split.
  - destruct (Hre (nodes w') (Some (cloc c)) (c :: from (compare_keys r) k cs))
      as (nx' & Hs' & Hseg').
    + intros l Hl Hlp. rewrite Hn', !lookup_insert_ne; [done| |done].
      intros E. apply Hnew. rewrite E. auto.
    + rewrite Hn'. apply lookup_insert_eq.
    + simpl. split; [done|]. exists nx. split.
      * by rewrite Hn', lookup_insert_ne, lookup_insert_eq.
      * eapply seg_frame; [|done]. intros l Hl.
        rewrite Hn', !lookup_insert_ne; [done| |].
        -- intros E. apply Hnew. rewrite E. auto.
        -- intros E. apply (Hdisj l); [done|]. by rewrite <- E.
    + by exists sd, sk, nx'.
  - rewrite <- (before_from (compare_keys r) k cs), locs_app in Hnd0.
    rewrite locs_app. unfold locs at 2. rewrite fmap_cons.
    fold (locs (from (compare_keys r) k cs)).
    apply NoDup_cons in Hnd0 as [Hs0 Hnd0]. apply NoDup_app in Hnd0 as (N1 & N2 & N3).
    rewrite elem_of_app in Hs0.
    apply NoDup_cons. split.
    + rewrite elem_of_app, elem_of_cons. intros [H|[->|H]]; [tauto| |tauto].
      apply Hnew. by left.
    + apply NoDup_app. split; [done|]. split.
      * intros l Hl [->|Hl']%elem_of_cons; [|by apply (N2 l)].
        apply Hnew. right. by eapply before_sub.
      * apply NoDup_cons. split; [|done]. intros Hl. by apply Hnew, Hsub2.
Qed.

(** ** Sortedness of the changed chains *)

Lemma keys_set_data cs1 c cs2 d' :
  keys (cs1 ++ (cloc c, ckey c, d') :: cs2) = keys (cs1 ++ c :: cs2).
Proof. by rewrite !keys_app. Qed.

Lemma sorted_link cmp ck k cs c :
  lawful cmp ck →
  StronglySorted (key_lt cmp) (keys cs) →
  hit cmp k cs = false →
  cmp (ckey c) k = 0%Z →
  StronglySorted (key_lt cmp) (keys (before cmp k cs ++ c :: from cmp k cs)).
Proof.
  intros Hlaw Hs Hhit Hc.
  rewrite <- (before_from cmp k cs), keys_app in Hs.
  apply StronglySorted_app in Hs as (Hcross & Hs1 & Hs2).
  rewrite keys_app. apply StronglySorted_app_2; [|done|].
  - intros x1 x2 H1 [->|H2]%elem_of_cons; [|by apply Hcross].
    unfold keys in H1. apply list_elem_of_fmap in H1 as (c1 & -> & H1).
    apply before_gt in H1. unfold key_lt.
    eapply (cmp_lt_le_trans _ _ Hlaw _ k).
    + by apply (cmp_flip_lt _ _ Hlaw).
    + apply (cmp_flip_eq _ _ Hlaw) in Hc. lia.
  - unfold keys. rewrite fmap_cons. fold (keys (from cmp k cs)).
    apply StronglySorted_cons. split; [|done].
    destruct (from cmp k cs) as [|c0 cs0] eqn:E; [by constructor|].
    pose proof (hit_false _ _ _ Hhit _ _ E) as Hlt.
    assert (key_lt cmp (ckey c) (ckey c0)) as H0.
    { unfold key_lt. eapply (cmp_le_lt_trans _ _ Hlaw _ k); [lia|done]. }
    unfold keys in *. rewrite fmap_cons in *.
    apply StronglySorted_cons in Hs2 as [Hall _].
    constructor; [done|]. eapply Forall_impl; [done|].
    intros x Hx. by eapply (key_lt_trans _ _ Hlaw).
Qed.

Lemma sorted_unlink cmp cs1 (c : cell) cs2 :
  StronglySorted (key_lt cmp) (keys (cs1 ++ c :: cs2)) →
  StronglySorted (key_lt cmp) (keys (cs1 ++ cs2)).
Proof.
  rewrite !keys_app. unfold keys at 2. rewrite fmap_cons. fold (keys cs2).
  rewrite !StronglySorted_app, StronglySorted_cons.
  intros (Hcross & Hs1 & _ & Hs2). split; [|done].
  intros x1 x2 H1 H2. apply Hcross; [done|]. by right.
Qed.

(** ** Calls that change one map keep the invariant *)

Lemma wf_update w w' m r s cs r' cs' :
  wf w →
  is_map w m r s cs →
  (brk w ≤ brk w')%positive →
  (∀ l, is_Some (nodes w' !! l) →
        is_Some (nodes w !! l) ∨ (brk w ≤ l < brk w')%positive) →
  (∀ l n, nodes w !! l = Some n → l ∉ fp s cs → nodes w' !! l = Some n) →
  (∀ m', m' ≠ m → maps w' !! m' = maps w !! m') →
  is_map w' m r' s cs' →
  good r' cs' →
  (∀ l, l ∈ locs cs' → l ∈ locs cs ∨ (brk w ≤ l)%positive) →
  wf w' ∧ others_kept (Some m) w w'.
Proof.
  intros Hwf Hmap Hbrk Hnodes Hframe Hother Hmap' Hgood Hfp. split.
  2:{ intros m2 r2 s2 cs2 Hne Hmap2. assert (m2 ≠ m) as Hne' by congruence.
      eapply is_map_frame; [| |done].
      - rewrite Hother by done. apply Hmap2.
      - intros l Hl. destruct (is_map_lookup _ _ _ _ _ _ Hmap2 Hl) as [n Hn].
        rewrite Hn. apply Hframe; [done|]. intros Hl'.
        by eapply (wf_sep _ Hwf m2 m). }
  apply (wf_step w w' m); try done.
  - intros l Hl. destruct (Hnodes l Hl) as [H|H]; [|lia].
    pose proof (wf_nodes _ Hwf _ H). lia.
  - intros l Hl. destruct (decide (l = m)) as [->|Hne].
    + pose proof (wf_cells _ Hwf m) as H. destruct Hmap as (Hm & _).
      rewrite Hm in H. specialize (H (mk_is_Some _ _ eq_refl)). lia.
    + rewrite Hother in Hl by done. pose proof (wf_cells _ Hwf _ Hl). lia.
  - intros l n Hl Hni. apply Hframe; [done|]. by apply (Hni r s cs).
  - intros r'' Hm''. destruct Hmap' as (Hm' & Hrest).
    rewrite Hm' in Hm''. injection Hm'' as <-.
    exists s, cs'. split; [by split|]. split; [done|].
    intros l [->|Hl]%elem_of_cons.
    + right. exists r, s, cs. split; [done|]. by left.
    + destruct (Hfp l Hl) as [H|H]; [|by left].
      right. exists r, s, cs. split; [done|]. by right.
Qed.

Lemma is_map_same w w' m r s cs :
  nodes w' = nodes w → maps w' = maps w → is_map w m r s cs → is_map w' m r s cs.
Proof. unfold is_map. by intros -> ->. Qed.

Lemma others_kept_same map w w' :
  nodes w' = nodes w → maps w' = maps w → others_kept map w w'.
Proof. intros Hn Hm m2 r2 s2 cs2 _. by apply is_map_same. Qed.

(** The invariant reads the two heaps only. *)
Lemma wf_same w w' :
  wf w → nodes w' = nodes w → maps w' = maps w → (brk w ≤ brk w')%positive → wf w'.
Proof.
  intros Hwf Hn Hm Hb. split.
  - intros m r H. rewrite Hm in H.
    destruct (wf_maps _ Hwf _ _ H) as (s & cs & ? & ?).
    exists s, cs. split; [by eapply is_map_same|done].
  - intros m1 m2 r1 r2 s1 s2 cs1 cs2 l Hne H1 H2.
    eapply (wf_sep _ Hwf m1 m2); [done| |].
    + eapply (is_map_same w' w); eauto.
    + eapply (is_map_same w' w); eauto.
  - intros l Hl. rewrite Hn in Hl. pose proof (wf_nodes _ Hwf _ Hl). lia.
  - intros l Hl. rewrite Hm in Hl. pose proof (wf_cells _ Hwf _ Hl). lia.
Qed.

Lemma load_map_fault w m :
  (∀ r, maps w !! m ≠ Some (Some r)) → load_map m w = Fault.
Proof.
  intros H. unfold load_map. destruct (maps w !! m) as [[r|]|] eqn:E; try done.
  by destruct (H r).
Qed.

Lemma findPrevNode_fault w m e :
  (∀ r, maps w !! m ≠ Some (Some r)) → findPrevNode m e w = Fault.
Proof.
  intros H. unfold findPrevNode. by rewrite bind_unfold, load_map_fault.
Qed.

Lemma wf_fresh w : wf w → nodes w !! brk w = None.
Proof.
  intros Hwf. destruct (nodes w !! brk w) eqn:E; [|done].
  pose proof (wf_nodes _ Hwf (brk w) (mk_is_Some _ _ E)). lia.
Qed.

Lemma good_with_iterator r cs it : good r cs → good (with_iterator it r) cs.
Proof. done. Qed.

Lemma mapPut_keeps w map ko vo x w' :
  wf w → mapPut map ko vo w = Done x w' → wf w' ∧ others_kept map w w'.
Proof.
  intros Hwf H.
  destruct map as [m|], ko as [k|], vo as [v|];
    try (injection H as <- <-; split; [done|by apply others_kept_same]).
  destruct (maps w !! m) as [[r|]|] eqn:Hm;
    [|unfold mapPut in H; rewrite bind_unfold, findPrevNode_fault in H; [done|congruence]..].
  destruct (wf_maps _ Hwf _ _ Hm) as (s & cs & Hmap & Hgood).
  destruct (hit (compare_keys r) k cs) eqn:Hhit.
  - destruct (hit_true _ _ _ Hhit) as (c & cs2 & Hfrom & Hcmp).
    destruct (mapPut_found _ _ _ _ _ _ v _ _ Hmap Hfrom Hcmp) as (nx & Hc & Heq).
    rewrite Heq in H. injection H as <- <-.
    pose proof (before_from (compare_keys r) k cs) as Hcs. rewrite Hfrom in Hcs.
    rewrite <- Hcs in Hmap, Hgood.
    eapply (wf_update w _ m r s _
              (if next_ok (oracle w) then with_iterator None r else r)
              (before (compare_keys r) k cs ++
               (cloc c, ckey c, new_data (next_ok (oracle w)) (copy_data r) v) :: cs2));
      try done; tidy.
    + intros l [<-|Hl]%lookup_insert_is_Some'; left; [by eexists|done].
    + intros l n Hl Hni. rewrite lookup_insert_ne; [done|]. intros <-. apply Hni.
      right. rewrite locs_app, elem_of_app. right. by left.
    + intros m' Hne. destruct (next_ok (oracle w)); [|done]. by rewrite lookup_insert_ne.
    + eapply is_map_set_data; try done; tidy.
      * destruct (next_ok (oracle w)); [apply lookup_insert_eq|done].
      * by destruct (next_ok (oracle w)).
    + destruct Hgood as (Hs & Hsz & Hmax & Hlaw).
      split; [|split; [|split]].
      * rewrite keys_set_data. by destruct (next_ok (oracle w)).
      * rewrite !length_app in *. simpl in *. by destruct (next_ok (oracle w)).
      * by destruct (next_ok (oracle w)).
      * by destruct (next_ok (oracle w)).
    + intros l Hl. left. by rewrite !locs_app in *.
  - destruct (mapPut_absent _ _ _ _ _ _ v Hmap Hhit (wf_fresh _ Hwf))
      as (pd & pk & Hprev & Heq).
    rewrite Heq in H. clear Heq.
    destruct (next_ok (oracle w)).
    2:{ injection H as <- <-. split; [by apply (wf_same w)|by apply others_kept_same]. }
    destruct (_ && _).
    2:{ injection H as <- <-.
        split; [apply (wf_same w); try done; tidy; lia|by apply others_kept_same]. }
    destruct (_ && _) eqn:Hrange; [|done]. injection H as <- <-.
    set (c := (brk w, copy_key r k, Some (copy_data r v)) : cell).
    destruct Hgood as (Hs & Hsz & Hmax & Hlaw).
    eapply (wf_update w _ m r s cs
              (with_iterator None (with_size (size r + 1) r))
              (before (compare_keys r) k cs ++ c :: from (compare_keys r) k cs));
      try done; tidy.
    + lia.
    + intros l [<-|[<-|Hl]%lookup_insert_is_Some']%lookup_insert_is_Some'.
      * left. by eexists.
      * right. lia.
      * by left.
    + intros l n Hl Hni. rewrite !lookup_insert_ne; [done| |].
      * intros <-. by rewrite (wf_fresh _ Hwf) in Hl.
      * intros <-. apply Hni. by apply (prev_not_from _ _ _ _ _ k Hmap).
    + intros m' Hne. by rewrite lookup_insert_ne.
    + eapply (is_map_link w _ m r _ s cs k c); try done; tidy.
      * apply (wf_fresh _ Hwf).
      * apply lookup_insert_eq.
    + split; [|split; [|split; [|done]]].
      * eapply sorted_link; try done. apply (copy_same _ _ Hlaw).
      * simpl. rewrite length_app. simpl.
        rewrite <- (before_from (compare_keys r) k cs), length_app in Hsz. lia.
      * simpl. apply andb_true_iff in Hrange as [_ ?%Z.leb_le]. done.
    + intros l. rewrite locs_app, locs_cons, elem_of_app, elem_of_cons.
      intros [H|[->|H]].
      * left. by eapply before_sub.
      * right. unfold c, cloc. simpl. lia.
      * left. rewrite <- (before_from (compare_keys r) k cs), locs_app, elem_of_app. auto.
Qed.

Lemma mapPut_wf w map ko vo x w' :
  wf w → mapPut map ko vo w = Done x w' → wf w'.
Proof. intros Hwf H. by destruct (mapPut_keeps _ _ _ _ _ _ Hwf H). Qed.

(** ** mapRemove *)

Lemma mapRemove_absent w m r s cs k :
  is_map w m r s cs →
  hit (compare_keys r) k cs = false →
  mapRemove (Some m) (Some k) w = Done MAP_ITEM_DOES_NOT_EXIST w.
Proof.
  intros Hmap Hhit. unfold mapRemove.
  step (findPrevNode_spec _ _ _ _ _ k Hmap). by rewrite Hhit.
Qed.

Lemma mapRemove_found w m r s cs k c cs2 :
  is_map w m r s cs →
  from (compare_keys r) k cs = c :: cs2 →
  compare_keys r k (ckey c) = 0%Z →
  let prev := prev_of (compare_keys r) k s cs in
  ∃ pd pk nxc,
    nodes w !! prev = Some (Node pd pk (At (cloc c))) ∧
    nodes w !! cloc c = Some (node_of c nxc) ∧
    seg (nodes w) nxc cs2 None ∧
    mapRemove (Some m) (Some k) w =
    if ((INT_MIN <=? size r - 1) && (size r - 1 <=? INT_MAX))%Z then
      Done MAP_SUCCESS
        (World
           (delete (cloc c) (<[prev := Node pd pk (of_option nxc)]> (nodes w)))
           (<[m := Some (with_iterator None (with_size (size r - 1) r))]> (maps w))
           (brk w) (oracle w)
           (trace w ++ [FreeData (cdata c); FreeKey (Some (ckey c))]))
    else Fault.
Proof.
  intros Hmap Hfrom Hcmp prev.
  pose proof (findPrevNode_spec _ _ _ _ _ k Hmap) as Hfind.
  pose proof (prev_not_from _ _ _ _ _ k Hmap) as [_ Hpf]. fold prev in Hpf.
  destruct Hmap as (Hm & Hf & (sd & sk & nx & Hs & Hseg) & Hnd).
  apply NoDup_cons in Hnd as [Hs_ni Hnd].
  destruct (relink _ (compare_keys r) k cs _ _ _ _ Hs Hseg Hs_ni Hnd)
    as (pd & pk & Hprev & Hin & Hsegf & _).
  fold prev in Hprev, Hin.
  rewrite Hfrom in Hprev, Hsegf, Hpf. simpl in Hprev.
  destruct Hsegf as [_ (nxc & Hc & Hseg2)].
  assert (prev ≠ cloc c) as Hne by (intros E; apply Hpf; rewrite E; by left).
  exists pd, pk, nxc. split; [done|]. split; [done|]. split; [done|].
  unfold mapRemove. step Hfind.
  unfold hit. rewrite Hfrom, Hcmp. cbn [Z.eqb]. fold prev.
  step nonnull_eq. step (node_next_eq _ _ _ _ (Some (cloc c)) Hprev). step nonnull_eq.
  step (node_next_eq _ _ _ _ nxc Hc).
  estep set_node_next_eq.
  rewrite bind_unfold.
  rewrite (freeNode_eq _ m r (cloc c) (cdata c) (Some (ckey c)) (of_option nxc));
    [|done|by tidy; rewrite lookup_insert_ne]. tidy.
  estep load_map_eq. step checked_eq.
  destruct (_ && _); [|done]. tidy.
  estep set_size_eq. estep set_iterator_eq.
  by rewrite insert_insert_eq.
Qed.

(** The chain after the node the search found is unlinked and freed. *)
Lemma is_map_unlink w w' m r r' s cs k c cs2 pd pk nxc :
  is_map w m r s cs →
  from (compare_keys r) k cs = c :: cs2 →
  let prev := prev_of (compare_keys r) k s cs in
  nodes w !! prev = Some (Node pd pk (At (cloc c))) →
  nodes w !! cloc c = Some (node_of c nxc) →
  nodes w' = delete (cloc c) (<[prev := Node pd pk (of_option nxc)]> (nodes w)) →
  maps w' !! m = Some (Some r') →
  first r' = first r →
  is_map w' m r' s (before (compare_keys r) k cs ++ cs2).
Proof.
  intros Hmap Hfrom prev Hprev Hc Hn' Hm' Hf'.
  pose proof (prev_not_from _ _ _ _ _ k Hmap) as [_ Hpf]. fold prev in Hpf.
  destruct Hmap as (Hm & Hf & (sd & sk & nx0 & Hs & Hseg) & Hnd).
  pose proof Hnd as Hnd0.
  apply NoDup_cons in Hnd as [Hs_ni Hnd].
  destruct (relink _ (compare_keys r) k cs _ _ _ _ Hs Hseg Hs_ni Hnd)
    as (pd' & pk' & Hprev' & Hin & Hsegf & Hre).
  fold prev in Hprev', Hin, Hre.
  rewrite Hfrom in Hprev', Hsegf, Hpf. simpl in Hprev'.
  rewrite Hprev in Hprev'. injection Hprev' as <- <-.
  destruct Hsegf as [_ (nxc' & Hc' & Hseg2)].
  rewrite Hc in Hc'. injection Hc' as Hnx. apply of_option_inj in Hnx as <-.
  rewrite <- (before_from (compare_keys r) k cs), Hfrom in Hnd0.
  change (NoDup (locs ([] ++ (s, ckey c, None) :: before (compare_keys r) k cs ++ c :: cs2)))
    in Hnd0.
  assert (prev ≠ cloc c) as Hne by (intros E; apply Hpf; rewrite E; by left).
  rewrite <- (before_from (compare_keys r) k cs), Hfrom in Hnd.
  pose proof (NoDup_locs_app _ _ _ Hnd) as (Hc1 & Hc2 & Hnd').
  assert (s ≠ cloc c) as Hsc.
  { intros E. apply Hs_ni. rewrite E, <- (before_from (compare_keys r) k cs), Hfrom.
    rewrite locs_app, locs_cons, elem_of_app, elem_of_cons. auto. }
  split; [done|]. split; [congruence|]. split.
  - destruct (Hre (nodes w') nxc cs2) as (nx' & Hs' & Hseg').
    + intros l Hl Hlp. rewrite Hn', lookup_delete_ne, lookup_insert_ne; [done|done|].
      intros <-. apply elem_of_cons in Hl as [E|Hl]; [done|]. by apply Hc1.
    + by rewrite Hn', lookup_delete_ne, lookup_insert_eq.
    + eapply seg_frame; [|done]. intros l Hl.
      rewrite Hn', lookup_delete_ne, lookup_insert_ne; [done| |].
      * intros <-. apply Hpf. by right.
      * by intros <-.
    + by exists sd, sk, nx'.
  - apply NoDup_cons. split; [|done].
    intros Hl. apply Hs_ni.
    rewrite <- (before_from (compare_keys r) k cs), Hfrom.
    rewrite locs_app, locs_cons, elem_of_app, elem_of_cons.
    rewrite locs_app, elem_of_app in Hl. tauto.
Qed.

Lemma mapRemove_keeps w map ko x w' :
  wf w → mapRemove map ko w = Done x w' → wf w' ∧ others_kept map w w'.
Proof.
  intros Hwf H.
  destruct map as [m|], ko as [k|];
    try (injection H as <- <-; split; [done|by apply others_kept_same]).
  destruct (maps w !! m) as [[r|]|] eqn:Hm;
    [|unfold mapRemove in H; rewrite bind_unfold, findPrevNode_fault in H;
      [done|congruence]..].
  destruct (wf_maps _ Hwf _ _ Hm) as (s & cs & Hmap & Hgood).
  destruct (hit (compare_keys r) k cs) eqn:Hhit.
  2:{ rewrite (mapRemove_absent _ _ _ _ _ _ Hmap Hhit) in H. injection H as <- <-.
      split; [done|by apply others_kept_same]. }
  destruct (hit_true _ _ _ Hhit) as (c & cs2 & Hfrom & Hcmp).
  destruct (mapRemove_found _ _ _ _ _ _ _ _ Hmap Hfrom Hcmp)
    as (pd & pk & nxc & Hprev & Hc & Hseg2 & Heq).
  rewrite Heq in H. clear Heq.
  destruct (_ && _); [|done]. injection H as <- <-.
  destruct Hgood as (Hs & Hsz & Hmax & Hlaw).
  pose proof (before_from (compare_keys r) k cs) as Hcs. rewrite Hfrom in Hcs.
  eapply (wf_update w _ m r s cs
            (with_iterator None (with_size (size r - 1) r))
            (before (compare_keys r) k cs ++ cs2));
    try done; tidy.
  - intros l [Hne Hl]%lookup_delete_is_Some. left.
    apply lookup_insert_is_Some' in Hl as [<-|Hl]; [by eexists|done].
  - intros l n Hl Hni. rewrite lookup_delete_ne, lookup_insert_ne; [done| |].
    + intros <-. apply Hni. by apply (prev_not_from _ _ _ _ _ k Hmap).
    + intros <-. apply Hni. right. rewrite <- Hcs.
      rewrite locs_app, locs_cons, elem_of_app, elem_of_cons. auto.
  - intros m' Hne. by rewrite lookup_insert_ne.
  - eapply (is_map_unlink w _ m r _ s cs k c cs2); try done; tidy.
    apply lookup_insert_eq.
  - split; [|split; [|split; [|done]]].
    + apply (sorted_unlink _ _ c). by rewrite Hcs.
    + rewrite <- Hcs in Hsz. rewrite length_app in Hsz. rewrite length_app.
      cbn [size with_iterator with_size]. cbn [length] in Hsz. lia.
    + cbn [size with_iterator with_size]. lia.
  - intros l Hl. left. rewrite <- Hcs.
    rewrite locs_app, locs_cons, elem_of_app, elem_of_cons.
    rewrite locs_app, elem_of_app in Hl. tauto.
Qed.

Lemma mapRemove_wf w map ko x w' :
  wf w → mapRemove map ko w = Done x w' → wf w'.
Proof. intros Hwf H. by destruct (mapRemove_keeps _ _ _ _ _ Hwf H). Qed.

(** ** Calls that read the map or move the iterator *)

Lemma is_map_set_record w w' m r r' s cs :
  is_map w m r s cs →
  nodes w' = nodes w →
  maps w' !! m = Some (Some r') →
  first r' = first r →
  is_map w' m r' s cs.
Proof.
  intros (Hm & Hf & Hch & Hnd) Hn Hm' Hf'. unfold is_map. rewrite Hn.
  split; [done|]. split; [congruence|]. done.
Qed.

Lemma wf_set_record w w' m r r' :
  wf w →
  maps w !! m = Some (Some r) →
  first r' = first r →
  size r' = size r →
  compare_keys r' = compare_keys r →
  copy_key r' = copy_key r →
  nodes w' = nodes w →
  maps w' = <[m := Some r']> (maps w) →
  brk w' = brk w →
  wf w'.
Proof.
  intros Hwf Hm Hf Hsz Hcmp Hck Hn Hm' Hb.
  destruct (wf_maps _ Hwf _ _ Hm) as (s & cs & Hmap & (Hs & Hlen & Hmax & Hlaw)).
  apply (wf_update w w' m r s cs r' cs); try done.
  - lia.
  - intros l Hl. left. by rewrite <- Hn.
  - intros l n Hl _. by rewrite Hn.
  - intros m' Hne. by rewrite Hm', lookup_insert_ne.
  - eapply is_map_set_record; try done. rewrite Hm'. apply lookup_insert_eq.
  - unfold good. by rewrite Hcmp, Hck, Hsz.
  - auto.
Qed.

Lemma with_iterator_id r : with_iterator (iterator r) r = r.
Proof. by destruct r. Qed.

Lemma mapGetSize_eq w m r :
  maps w !! m = Some (Some r) → mapGetSize (Some m) w = Done (size r) w.
Proof. intros Hm. unfold mapGetSize. by step (load_map_eq _ _ _ Hm). Qed.

Lemma mapContains_eq w m r s cs k :
  is_map w m r s cs →
  mapContains (Some m) (Some k) w = Done (hit (compare_keys r) k cs) w.
Proof.
  intros Hmap. unfold mapContains.
  step (findPrevNode_spec _ _ _ _ _ k Hmap). by destruct (hit _ _ _).
Qed.

Lemma mapGet_absent w m r s cs k :
  is_map w m r s cs →
  hit (compare_keys r) k cs = false →
  mapGet (Some m) (Some k) w = Done Null w.
Proof.
  intros Hmap Hhit. unfold mapGet.
  step (findPrevNode_spec _ _ _ _ _ k Hmap). by rewrite Hhit.
Qed.

Lemma mapGet_found w m r s cs k c cs2 :
  is_map w m r s cs →
  from (compare_keys r) k cs = c :: cs2 →
  compare_keys r k (ckey c) = 0%Z →
  mapGet (Some m) (Some k) w = Done (of_option (cdata c)) w.
Proof.
  intros Hmap Hfrom Hcmp.
  pose proof (findPrevNode_spec _ _ _ _ _ k Hmap) as Hfind.
  destruct Hmap as (Hm & Hf & (sd & sk & nx & Hs & Hseg) & Hnd).
  apply NoDup_cons in Hnd as [Hs_ni Hnd].
  destruct (relink _ (compare_keys r) k cs _ _ _ _ Hs Hseg Hs_ni Hnd)
    as (pd & pk & Hprev & Hin & Hsegf & _).
  rewrite Hfrom in Hprev, Hsegf. simpl in Hprev.
  destruct Hsegf as [_ (nxc & Hc & Hseg2)].
  unfold mapGet. step Hfind.
  unfold hit. rewrite Hfrom, Hcmp. cbn [Z.eqb].
  step nonnull_eq. step (node_next_eq _ _ _ _ (Some (cloc c)) Hprev). step nonnull_eq.
  by rewrite (node_data_eq _ _ _ Hc).
Qed.

Lemma mapGetFirst_eq w m r s cs :
  is_map w m r s cs →
  mapGetFirst (Some m) w =
  match cs with
  | [] => Done Null w
  | c :: _ =>
      Done (At (ckey c))
        (World (nodes w) (<[m := Some (with_iterator (Some (cloc c)) r)]> (maps w))
               (brk w) (oracle w) (trace w))
  end.
Proof.
  intros (Hm & Hf & (sd & sk & nx & Hs & Hseg) & Hnd). unfold mapGetFirst.
  step (load_map_eq _ _ _ Hm). rewrite Hf. step nonnull_eq.
  step (node_next_eq _ _ _ _ nx Hs).
  destruct cs as [|c cs]; simpl in Hseg.
  - by subst nx.
  - destruct Hseg as [-> (nx' & Hc & _)].
    estep set_iterator_eq. erewrite node_key_eq by side. done.
Qed.

(** A step of the enumeration from the node [c] of the chain. *)
Lemma mapGetNext_eq w m r s cs1 c cs2 :
  is_map w m r s (cs1 ++ c :: cs2) →
  iterator r = Some (cloc c) →
  mapGetNext (Some m) w =
  match cs2 with
  | [] => Done Null w
  | c' :: _ =>
      Done (At (ckey c'))
        (World (nodes w) (<[m := Some (with_iterator (Some (cloc c')) r)]> (maps w))
               (brk w) (oracle w) (trace w))
  end.
Proof.
  intros (Hm & Hf & (sd & sk & nx & Hs & Hseg) & Hnd) Hit. unfold mapGetNext.
  step (load_map_eq _ _ _ Hm). rewrite Hit.
  apply seg_app in Hseg as (x & _ & [-> (nxc & Hc & Hseg2)]).
  step (node_next_eq _ _ _ _ nxc Hc).
  destruct cs2 as [|c' cs2]; simpl in Hseg2.
  - by subst nxc.
  - destruct Hseg2 as [-> (nx' & Hc' & _)].
    estep set_iterator_eq. erewrite node_key_eq by side. done.
Qed.

Lemma mapGetNext_null w m r :
  maps w !! m = Some (Some r) →
  iterator r = None →
  mapGetNext (Some m) w = Done Null w.
Proof.
  intros Hm Hit. unfold mapGetNext. step (load_map_eq _ _ _ Hm). by rewrite Hit.
Qed.

(** Inversion of the steps of a call that returned. *)
Lemma bind_inv {A B} (c : M K V A) (f : A → M K V B) w x w' :
  (c ≫= f) w = Done x w' → ∃ a w1, c w = Done a w1 ∧ f a w1 = Done x w'.
Proof. rewrite bind_unfold. destruct (c w) as [a w1| |]; [|done..]. eauto. Qed.

Lemma load_map_inv w m r w' :
  load_map m w = Done r w' → maps w !! m = Some (Some r) ∧ w' = w.
Proof.
  unfold load_map. destruct (maps w !! m) as [[r'|]|]; [|done..].
  by intros [= -> ->].
Qed.

Lemma load_node_inv w l n w' :
  load_node l w = Done n w' → nodes w !! l = Some n ∧ w' = w.
Proof.
  unfold load_node. destruct (nodes w !! l) as [n'|]; [|done].
  by intros [= -> ->].
Qed.

Lemma node_next_inv w l p w' :
  node_next l w = Done p w' →
  ∃ d k, nodes w !! l = Some (Node d k (of_option p)) ∧ w' = w.
Proof.
  unfold node_next. intros (n & w1 & [Hn ->]%load_node_inv & H)%bind_inv.
  destruct n as [d k [| |q]]; simpl in H; [done| |];
    injection H as <- <-; by exists d, k.
Qed.

Lemma node_key_inv w l k w' :
  node_key l w = Done k w' → ∃ n, nodes w !! l = Some n ∧ key n = k ∧ w' = w.
Proof.
  unfold node_key. intros (n & w1 & [Hn ->]%load_node_inv & H)%bind_inv.
  injection H as <- <-. by exists n.
Qed.

Lemma nonnull_inv p l w w' : nonnull p w = Done l w' → p = Some l ∧ w' = w.
Proof. destruct p; [|done]. by intros [= -> ->]. Qed.

Lemma set_iterator_inv w m it u w' :
  set_iterator m it w = Done u w' →
  ∃ r, maps w !! m = Some (Some r) ∧
       w' = set_maps (insert m (Some (with_iterator it r))) w.
Proof.
  unfold set_iterator. intros (r & w1 & [Hm ->]%load_map_inv & H)%bind_inv.
  rewrite (store_map_eq _ _ _ _ Hm) in H. injection H as <-. by exists r.
Qed.

Lemma wf_set_iterator w m r it :
  wf w → maps w !! m = Some (Some r) →
  wf (set_maps (insert m (Some (with_iterator it r))) w).
Proof. intros Hwf Hm. by apply (wf_set_record w _ m r (with_iterator it r)). Qed.

Lemma mapGetFirst_wf w map x w' :
  wf w → mapGetFirst map w = Done x w' → wf w'.
Proof.
  intros Hwf H. destruct map as [m|]; [|by injection H as <- <-].
  unfold mapGetFirst in H.
  apply bind_inv in H as (r & w1 & [Hm ->]%load_map_inv & H).
  apply bind_inv in H as (s & w1 & [Hs ->]%nonnull_inv & H).
  apply bind_inv in H as (nx & w1 & (d & k & Hn & ->)%node_next_inv & H).
  destruct nx as [n|]; [|by injection H as <- <-].
  apply bind_inv in H as (u & w1 & (r' & Hm' & ->)%set_iterator_inv & H).
  apply node_key_inv in H as (n' & _ & _ & ->). by apply wf_set_iterator.
Qed.

Lemma mapGetNext_wf w map x w' :
  wf w → mapGetNext map w = Done x w' → wf w'.
Proof.
  intros Hwf H. destruct map as [m|]; [|by injection H as <- <-].
  unfold mapGetNext in H.
  apply bind_inv in H as (r & w1 & [Hm ->]%load_map_inv & H).
  destruct (iterator r) as [it|]; [|by injection H as <- <-].
  apply bind_inv in H as (nx & w1 & (d & k & Hn & ->)%node_next_inv & H).
  destruct nx as [n|]; [|by injection H as <- <-].
  apply bind_inv in H as (u & w1 & (r' & Hm' & ->)%set_iterator_inv & H).
  apply node_key_inv in H as (n' & _ & _ & ->). by apply wf_set_iterator.
Qed.

Lemma findPrevNode_loop_pure fuel m e : ∀ cur w x w',
  findPrevNode_loop fuel m cur e w = Done x w' → w' = w.
Proof.
  induction fuel as [|fuel IH]; intros cur w x w' H.
  - destruct cur; [done|]. by injection H as <- <-.
  - destruct cur as [c|]; [|by injection H as <- <-]. simpl in H.
    apply bind_inv in H as (nx & w1 & (d & k & Hn & ->)%node_next_inv & H).
    destruct nx as [n|]; [|by injection H as <- <-].
    apply bind_inv in H as (r & w1 & [Hm ->]%load_map_inv & H).
    apply bind_inv in H as (k' & w1 & (n' & _ & _ & ->)%node_key_inv & H).
    apply bind_inv in H as (z & w1 & Hz & H).
    assert (w1 = w) as ->.
    { unfold call_compare in Hz. destruct e, k'; try done. by injection Hz as <- <-. }
    destruct (z =? 0)%Z; [by injection H as <- <-|].
    destruct (z <? 0)%Z; [by injection H as <- <-|]. by eapply IH.
Qed.

Lemma findPrevNode_pure w m e x w' : findPrevNode m e w = Done x w' → w' = w.
Proof.
  unfold findPrevNode. intros (r & w1 & [Hm ->]%load_map_inv & H)%bind_inv.
  by eapply findPrevNode_loop_pure.
Qed.

Lemma mapGetSize_pure w map x w' : mapGetSize map w = Done x w' → w' = w.
Proof.
  destruct map as [m|]; [|by intros [= <- <-]]. unfold mapGetSize.
  intros (r & w1 & [Hm ->]%load_map_inv & H)%bind_inv. by injection H as <- <-.
Qed.

Lemma mapContains_pure w map ko x w' : mapContains map ko w = Done x w' → w' = w.
Proof.
  destruct map as [m|], ko as [k|]; try by intros [= <- <-]. unfold mapContains.
  intros ([found prev] & w1 & ->%findPrevNode_pure & H)%bind_inv.
  destruct found; by injection H as <- <-.
Qed.

Lemma mapGet_pure w map ko x w' : mapGet map ko w = Done x w' → w' = w.
Proof.
  destruct map as [m|], ko as [k|]; try by intros [= <- <-]. unfold mapGet.
  intros ([found prev] & w1 & ->%findPrevNode_pure & H)%bind_inv.
  destruct found; [|by injection H as <- <-].
  apply bind_inv in H as (p & w1 & [_ ->]%nonnull_inv & H).
  apply bind_inv in H as (nx & w1 & (d & k' & Hn & ->)%node_next_inv & H).
  apply bind_inv in H as (n & w1 & [_ ->]%nonnull_inv & H).
  unfold node_data in H.
  apply bind_inv in H as (nn & w1 & [_ ->]%load_node_inv & H). by injection H as <- <-.
Qed.

(** ** mapCreate *)

Lemma malloc_map_eq w :
  malloc_map w =
  if next_ok (oracle w) then
    Done (Some (brk w))
      (World (nodes w) (<[brk w := None]> (maps w))
             (Pos.succ (brk w)) (tail (oracle w)) (trace w))
  else Done None (World (nodes w) (maps w) (brk w) (tail (oracle w)) (trace w)).
Proof.
  unfold malloc_map, mbind, M_bind, choose. by destruct (next_ok (oracle w)).
Qed.

Lemma free_map_eq w l o :
  maps w !! l = Some o → free_map (Some l) w = Done tt (set_maps (delete l) w).
Proof. intros H. unfold free_map. by rewrite H. Qed.

Lemma mapCreate_eq w cd ck fd fk cmp :
  maps w !! brk w = None →
  let b1 := next_ok (oracle w) in
  let b2 := next_ok (tail (oracle w)) in
  let m := brk w in
  let s := Pos.succ (brk w) in
  mapCreate (Some cd) (Some ck) (Some fd) (Some fk) (Some cmp) w =
  if b1 then
    if b2 then
      Done (Some m)
        (World (<[s := Node Null Null Null]> (nodes w))
               (<[m := Some (MapRec (Some s) 0 (Some s) cd ck fd fk cmp)]> (maps w))
               (Pos.succ s) (tail (tail (oracle w))) (trace w))
    else
      Done None (World (nodes w) (maps w) s (tail (tail (oracle w))) (trace w))
  else Done None (World (nodes w) (maps w) (brk w) (tail (oracle w)) (trace w)).
Proof.
  intros Hfresh b1 b2 m s. unfold mapCreate.
  step malloc_map_eq. fold b1. destruct b1; [|done]. tidy.
  step malloc_node_eq. fold b2. destruct b2; tidy.
  - rewrite bind_unfold. unfold initializeMap.
    estep set_node_key_eq. rewrite insert_insert_eq.
    estep set_node_data_eq. rewrite insert_insert_eq.
    estep set_node_next_eq. rewrite insert_insert_eq.
    erewrite store_map_eq by side. tidy. by rewrite insert_insert_eq.
  - erewrite bind_unfold, free_map_eq by side. tidy.
    by rewrite delete_insert_id.
Qed.

Lemma wf_fresh_map w : wf w → maps w !! brk w = None.
Proof.
  intros Hwf. destruct (maps w !! brk w) eqn:E; [|done].
  pose proof (wf_cells _ Hwf (brk w) (mk_is_Some _ _ E)). lia.
Qed.

Lemma mapCreate_wf w cdo cko fdo fko cmpo x w' :
  wf w →
  (∀ ck cmp, cko = Some ck → cmpo = Some cmp → lawful cmp ck) →
  mapCreate cdo cko fdo fko cmpo w = Done x w' →
  wf w'.
Proof.
  intros Hwf Hlaw H.
  destruct cdo as [cd|], cko as [ck|], fdo as [fd|], fko as [fk|], cmpo as [cmp|];
    try (injection H as <- <-; done).
  rewrite (mapCreate_eq _ _ _ _ _ _ (wf_fresh_map _ Hwf)) in H.
  destruct (next_ok (oracle w)).
  2:{ injection H as <- <-. by apply (wf_same w). }
  destruct (next_ok (tail (oracle w))).
  2:{ injection H as <- <-. apply (wf_same w); try done. tidy. lia. }
  injection H as <- <-.
  assert (nodes w !! Pos.succ (brk w) = None) as Hs.
  { destruct (nodes w !! Pos.succ (brk w)) eqn:E; [|done].
    pose proof (wf_nodes _ Hwf _ (mk_is_Some _ _ E)). lia. }
  apply (wf_step w _ (brk w)); try done; tidy.
  - lia.
  - intros l [<-|Hl]%lookup_insert_is_Some'; [lia|].
    pose proof (wf_nodes _ Hwf _ Hl). lia.
  - intros l [<-|Hl]%lookup_insert_is_Some'; [lia|].
    pose proof (wf_cells _ Hwf _ Hl). lia.
  - intros m' Hne. by rewrite lookup_insert_ne.
  - intros l n Hl _. rewrite lookup_insert_ne; [done|]. intros E. subst l. congruence.
  - intros r'. rewrite lookup_insert_eq. intros [= <-].
    exists (Pos.succ (brk w)), []. split; [|split].
    + split; [apply lookup_insert_eq|]. split; [done|]. split.
      * exists Null, Null, None. split; [apply lookup_insert_eq|done].
      * apply NoDup_singleton.
    + split; [constructor|]. split; [done|]. split; [done|]. by apply Hlaw.
    + intros l [->|Hl]%elem_of_cons; [left; lia|]. by apply elem_of_nil in Hl.
Qed.

(** ** freeList, mapClear and mapDestroy *)

Lemma lookup_delete_all_ne ls : ∀ ns l, l ∉ ls → delete_all ls ns !! l = ns !! l.
Proof.
  induction ls as [|l' ls IH]; intros ns l Hl; simpl; [done|].
  apply not_elem_of_cons in Hl as [Hne Hl]. rewrite IH by done.
  by apply lookup_delete_ne.
Qed.

Lemma lookup_delete_all_is_Some ls : ∀ ns l,
  is_Some (delete_all ls ns !! l) → is_Some (ns !! l) ∧ l ∉ ls.
Proof.
  induction ls as [|l' ls IH]; intros ns l Hl; simpl in *.
  - split; [done|]. apply not_elem_of_nil.
  - apply IH in Hl as [Hl Hni]. apply lookup_delete_is_Some in Hl as [Hne Hl].
    split; [done|]. apply not_elem_of_cons. by split.
Qed.

Lemma freeList_loop_spec m r cs : ∀ fuel p w,
  maps w !! m = Some (Some r) →
  seg (nodes w) p cs None →
  NoDup (locs cs) →
  length cs < fuel →
  freeList_loop fuel m p w =
  Done tt (World (delete_all (locs cs) (nodes w)) (maps w) (brk w) (oracle w)
                 (trace w ++ free_events cs)).
Proof.
  induction cs as [|c cs IH]; intros fuel p w Hm Hseg Hnd Hfuel.
  - simpl in Hseg. subst p. destruct fuel; simpl; destruct w; simpl;
      by rewrite app_nil_r.
  - destruct fuel as [|fuel]; [simpl in Hfuel; lia|].
    destruct Hseg as [-> (nx & Hc & Hseg)].
    rewrite locs_cons in Hnd. apply NoDup_cons in Hnd as [Hni Hnd].
    cbn [freeList_loop].
    step (node_next_eq _ _ _ _ nx Hc).
    rewrite bind_unfold.
    rewrite (freeNode_eq _ m r (cloc c) (cdata c) (Some (ckey c)) (of_option nx) Hm Hc).
    tidy. rewrite IH; tidy; try done.
    + by rewrite <- app_assoc.
    + eapply seg_frame; [|done]. intros l Hl. apply lookup_delete_ne. by intros <-.
    + simpl in Hfuel. lia.
Qed.

Lemma mapClear_eq w m r s cs :
  is_map w m r s cs →
  ∃ sd sk nx, nodes w !! s = Some (Node sd sk nx) ∧
  mapClear (Some m) w =
  Done MAP_SUCCESS
    (World (<[s := Node sd sk Null]> (delete_all (locs cs) (nodes w)))
           (<[m := Some (with_size 0 r)]> (maps w))
           (brk w) (oracle w) (trace w ++ free_events cs)).
Proof.
  intros Hmap. pose proof (is_map_fuel _ _ _ _ _ Hmap) as Hfuel.
  destruct Hmap as (Hm & Hf & (sd & sk & nx & Hs & Hseg) & Hnd).
  apply NoDup_cons in Hnd as [Hs_ni Hnd].
  exists sd, sk, (of_option nx). split; [done|].
  unfold mapClear. step (load_map_eq _ _ _ Hm). rewrite Hf. step nonnull_eq.
  step (node_next_eq _ _ _ _ nx Hs).
  rewrite bind_unfold. unfold freeList.
  rewrite (freeList_loop_spec m r cs) by (done || lia). tidy.
  rewrite bind_unfold. erewrite set_node_next_eq
    by (tidy; rewrite lookup_delete_all_ne by done; exact Hs). tidy.
  by estep set_size_eq.
Qed.

Lemma mapClear_wf w map x w' :
  wf w → mapClear map w = Done x w' → wf w'.
Proof.
  intros Hwf H. destruct map as [m|]; [|by injection H as <- <-].
  destruct (maps w !! m) as [[r|]|] eqn:Hm;
    [|unfold mapClear in H; rewrite bind_unfold, load_map_fault in H;
      [done|congruence]..].
  destruct (wf_maps _ Hwf _ _ Hm) as (s & cs & Hmap & (Hs & Hsz & Hmax & Hlaw)).
  destruct (mapClear_eq _ _ _ _ _ Hmap) as (sd & sk & nx & Hsn & Heq).
  rewrite Heq in H. injection H as <- <-.
  eapply (proj1 (wf_update w _ m r s cs (with_size 0 r) [] _ _ _ _ _ _ _ _ _)).
  Unshelve. all: try done; tidy.
  - intros l [<-|[Hl _]%lookup_delete_all_is_Some]%lookup_insert_is_Some'; left;
      [by eexists|done].
  - intros l n Hl Hni. apply not_elem_of_cons in Hni as [Hne Hni].
    by rewrite lookup_insert_ne, lookup_delete_all_ne.
  - intros m' Hne. by rewrite lookup_insert_ne.
  - destruct Hmap as (_ & Hf & _ & Hnd). split; [apply lookup_insert_eq|].
    split; [done|]. split.
    + exists sd, sk, None. split; [apply lookup_insert_eq|done].
    + apply NoDup_singleton.
  - split; [constructor|]. by split.
  - intros l Hl. by apply elem_of_nil in Hl.
Qed.

Lemma mapDestroy_wf w map x w' :
  wf w → mapDestroy map w = Done x w' → wf w'.
Proof.
  intros Hwf H. destruct map as [m|]; [|by injection H as <- <-].
  destruct (maps w !! m) as [[r|]|] eqn:Hm;
    [|unfold mapDestroy, mapClear in H; rewrite !bind_unfold, load_map_fault in H;
      [done|congruence]..].
  destruct (wf_maps _ Hwf _ _ Hm) as (s & cs & Hmap & (Hs & Hsz & Hmax & Hlaw)).
  destruct (mapClear_eq _ _ _ _ _ Hmap) as (sd & sk & nx & Hsn & Heq).
  unfold mapDestroy in H. rewrite bind_unfold, Heq in H. tidy.
  pose proof Hmap as (_ & Hf & _ & _).
  rewrite bind_unfold in H. erewrite load_map_eq in H by side. tidy.
  cbn [first with_size] in H. rewrite Hf in H.
  rewrite bind_unfold in H. erewrite free_node_eq in H by side. tidy.
  erewrite free_map_eq in H by side. tidy. injection H as <- <-.
  apply (wf_step w _ m); try done; tidy.
  - intros l [_ [<-|[Hl _]%lookup_delete_all_is_Some]%lookup_insert_is_Some']%lookup_delete_is_Some;
      apply (wf_nodes _ Hwf); [by eexists|done].
  - intros l [_ [<-|Hl]%lookup_insert_is_Some']%lookup_delete_is_Some;
      apply (wf_cells _ Hwf); [by eexists|done].
  - intros m' Hne. by rewrite lookup_delete_ne, lookup_insert_ne.
  - intros l n Hl Hni. specialize (Hni _ _ _ Hmap).
    apply not_elem_of_cons in Hni as [Hne Hni].
    by rewrite lookup_delete_ne, lookup_insert_ne, lookup_delete_all_ne.
  - intros r'. by rewrite lookup_delete_eq.
Qed.

(** ** mapCopy *)

Lemma ensures_inv {A} (o : outcome K V A) P a w' :
  ensures o P → o = Done a w' → P a w'.
Proof. by intros H ->. Qed.

Lemma ensures_intro {A} (o : outcome K V A) (P : A → world K V → Prop) :
  (∀ a w', o = Done a w' → P a w') → ensures o P.
Proof. destruct o; simpl; auto. Qed.

Lemma ensures_mono {A} (o : outcome K V A) (P Q : A → world K V → Prop) :
  ensures o P → (∀ a w', P a w' → Q a w') → ensures o Q.
Proof. destruct o; simpl; auto. Qed.

Lemma ensures_bind {A B} (c : M K V A) (f : A → M K V B) w P :
  ensures (c w) (λ a w1, ensures (f a w1) P) → ensures ((c ≫= f) w) P.
Proof. rewrite bind_unfold. by destruct (c w). Qed.

Lemma closed_delete b0 ns l : closed b0 ns → closed b0 (delete l ns).
Proof.
  intros Hc l' d k q Hl' H. apply lookup_delete_Some in H as [_ H]. by eapply Hc.
Qed.

Lemma closed_insert b0 ns l d k nx :
  closed b0 ns →
  (∀ t, nx = Some t → (b0 ≤ t)%positive) →
  closed b0 (<[l := Node d k (of_option nx)]> ns).
Proof.
  intros Hc Hnx l' d' k' q Hl' H. apply lookup_insert_Some in H as [[<- H]|[_ H]].
  - injection H as _ _ H. destruct nx as [q'|]; [|done]. injection H as ->. by apply Hnx.
  - by eapply Hc.
Qed.

Lemma freeNode_inv w m l u w' :
  freeNode m l w = Done u w' →
  nodes w' = delete l (nodes w) ∧ maps w' = maps w ∧ brk w' = brk w ∧
  is_Some (nodes w !! l).
Proof.
  unfold freeNode. intros (r & w1 & [Hm ->]%load_map_inv & H)%bind_inv.
  unfold node_data, node_key in H.
  apply bind_inv in H as (d & w1 & (n & ? & [Hn ->]%load_node_inv & [= <- <-])%bind_inv & H).
  apply bind_inv in H as (? & w1 & Hfd & H).
  assert (nodes w1 = nodes w ∧ maps w1 = maps w ∧ brk w1 = brk w) as (Hn1 & Hm1 & Hb1).
  { unfold call_free_data, emit in Hfd. destruct (data n); [done|..];
      by injection Hfd as _ <-. }
  apply bind_inv in H as (k & w2 & (n' & ? & [Hn' ->]%load_node_inv & [= <- <-])%bind_inv & H).
  apply bind_inv in H as (? & w2 & Hfk & H).
  assert (nodes w2 = nodes w ∧ maps w2 = maps w ∧ brk w2 = brk w) as (Hn2 & Hm2 & Hb2).
  { unfold call_free_key, emit in Hfk. destruct (key n'); [done|..];
      by injection Hfk as _ <-. }
  unfold free_node in H. destruct (nodes w2 !! l) eqn:E; [|done].
  injection H as _ <-. unfold set_nodes. simpl. rewrite Hn2. by rewrite Hn.
Qed.

(** [freeList] from a node above [b0] frees nodes above [b0] only. *)
Lemma freeList_loop_frees b0 m : ∀ fuel p w,
  closed b0 (nodes w) →
  (∀ l, p = Some l → (b0 ≤ l)%positive) →
  ensures (freeList_loop fuel m p w) (λ _ w',
    maps w' = maps w ∧ brk w' = brk w ∧
    (∀ l, (l < b0)%positive → nodes w' !! l = nodes w !! l) ∧
    (∀ l, is_Some (nodes w' !! l) → is_Some (nodes w !! l)) ∧
    closed b0 (nodes w')).
Proof.
  induction fuel as [|fuel IH]; intros p w Hcl Hp.
  - destruct p; simpl; [done|]. auto.
  - destruct p as [l|]; [|simpl; auto]. cbn [freeList_loop].
    apply ensures_intro. intros u w' H.
    apply bind_inv in H as (nx & w1 & (d & k & Hl & ->)%node_next_inv & H).
    apply bind_inv in H as (? & w1 & (Hn1 & Hm1 & Hb1 & _)%freeNode_inv & H).
    assert (closed b0 (nodes w1)) as Hcl1 by (rewrite Hn1; by apply closed_delete).
    assert (∀ t, nx = Some t → (b0 ≤ t)%positive) as Hnx.
    { intros q ->. eapply Hcl; [|done]. by apply Hp. }
    pose proof (ensures_inv _ _ _ _ (IH nx w1 Hcl1 Hnx) H) as (Hm' & Hb' & Hfr & Hdom & Hcl').
    split; [congruence|]. split; [congruence|]. split; [|split; [|done]].
    + intros l' Hl'. rewrite Hfr, Hn1 by done. apply lookup_delete_ne.
      specialize (Hp l eq_refl). lia.
    + intros l' Hl'. apply Hdom in Hl'. rewrite Hn1 in Hl'.
      by apply lookup_delete_is_Some in Hl' as [_ ?].
Qed.

Lemma rawseg_frame ns ns' p ls q :
  (∀ l, l ∈ ls → ns' !! l = ns !! l) →
  rawseg ns p ls q → rawseg ns' p ls q.
Proof.
  revert p. induction ls as [|l ls IH]; intros p Hf; simpl; [done|].
  intros [-> (nx & Hn & Hs)]. split; [done|]. exists nx. split.
  - rewrite Hf; [done|]. by left.
  - apply IH; [|done]. intros l' Hl'. apply Hf. by right.
Qed.

Lemma rawseg_lookup ns p ls q l :
  rawseg ns p ls q → l ∈ ls → is_Some (ns !! l).
Proof.
  revert p. induction ls as [|l' ls IH]; intros p; simpl.
  - intros _ H. by apply elem_of_nil in H.
  - intros [-> (nx & Hn & Hs)] [->|H]%elem_of_cons; [by eexists|]. by eapply IH.
Qed.

Lemma createNewList_loop_spec b0 : ∀ fuel h acc w,
  rawseg (nodes w) h acc None →
  NoDup acc →
  (∀ l, l ∈ acc → (b0 ≤ l)%positive) →
  (∀ l, is_Some (nodes w !! l) → (l < brk w)%positive) →
  (b0 ≤ brk w)%positive →
  closed b0 (nodes w) →
  ensures (createNewList_loop fuel (Z.of_nat fuel) h w) (λ res w',
    maps w' = maps w ∧ (brk w ≤ brk w')%positive ∧ trace w' = trace w ∧
    (∀ l, (l < b0)%positive → nodes w' !! l = nodes w !! l) ∧
    (∀ l, is_Some (nodes w' !! l) → (l < brk w')%positive) ∧
    closed b0 (nodes w') ∧
    match res with
    | None => True
    | Some hd =>
        ∃ new, rawseg (nodes w') (Some hd) (new ++ acc) None ∧
               NoDup (new ++ acc) ∧
               (∀ l, l ∈ new → (b0 ≤ l)%positive ∧ (brk w ≤ l)%positive) ∧
               length new = fuel ∧
               (∀ l, l ∉ new ++ acc → nodes w' !! l = nodes w !! l)
    end).
Proof.
  induction fuel as [|fuel IH]; intros h acc w Hraw Hnd Hacc Hfresh Hb Hcl.
  - simpl. split; [done|]. split; [lia|]. split; [done|]. split; [done|].
    split; [done|]. split; [done|]. destruct h as [hd|]; [|done].
    exists []. split; [done|]. split; [done|]. split; [|done].
    intros l Hl. by apply elem_of_nil in Hl.
  - cbn [createNewList_loop].
    replace (Z.of_nat (S fuel) =? 0)%Z with false by (symmetry; apply Z.eqb_neq; lia).
    replace (Z.of_nat (S fuel) - 1)%Z with (Z.of_nat fuel) by lia.
    rewrite bind_unfold, malloc_node_eq.
    assert (nodes w !! brk w = None) as Hnew.
    { destruct (nodes w !! brk w) eqn:E; [|done].
      pose proof (Hfresh _ (mk_is_Some _ _ E)). lia. }
    assert (brk w ∉ acc) as Hni.
    { intros Hl. destruct (rawseg_lookup _ _ _ _ _ Hraw Hl). congruence. }
    destruct (next_ok (oracle w)); tidy.
    + estep set_node_next_eq. rewrite insert_insert_eq.
      eapply ensures_mono.
      * apply (IH (Some (brk w)) (brk w :: acc)); tidy.
        -- simpl. split; [done|]. exists h. split; [apply lookup_insert_eq|].
           eapply rawseg_frame; [|done]. intros l Hl.
           apply lookup_insert_ne. by intros <-.
        -- by apply NoDup_cons.
        -- intros l [->|Hl]%elem_of_cons; [done|auto].
        -- intros l [<-|Hl]%lookup_insert_is_Some'; [lia|].
           pose proof (Hfresh _ Hl). lia.
        -- lia.
        -- apply closed_insert; [done|]. intros t ->.
           destruct acc as [|a acc']; simpl in Hraw; [done|].
           destruct Hraw as [[= ->] _]. apply Hacc. by left.
      * tidy. intros res w' (Hm' & Hb' & Ht' & Hfr & Hfresh' & Hcl' & Hres).
        split; [done|]. split; [lia|]. split; [done|].
        split; [|split; [done|split; [done|]]].
        -- intros l Hl. rewrite Hfr by done. apply lookup_insert_ne. lia.
        -- destruct res as [hd|]; [|done].
           destruct Hres as (new & Hraw' & Hnd' & Hls & Hlen & Hout).
           exists (new ++ [brk w]). rewrite <- !app_assoc. cbn [app].
           split; [done|]. split; [done|]. split; [|split].
           ++ intros l [Hl|Hl]%elem_of_app.
              ** destruct (Hls l Hl). split; [done|]. lia.
              ** apply list_elem_of_singleton in Hl as ->. split; [done|]. lia.
           ++ rewrite length_app. simpl. lia.
           ++ intros l Hl. rewrite Hout by done. apply lookup_insert_ne.
              intros <-. apply Hl. rewrite elem_of_app, elem_of_cons. auto.
    + destruct h as [hl|].
      * destruct acc as [|a acc']; simpl in Hraw; [done|].
        destruct Hraw as [[= ->] (nx & Ha & _)].
        estep free_node_eq. rewrite ret_eq. simpl.
        split; [done|]. split; [lia|]. split; [done|]. split; [|split; [|split; [|done]]].
        -- intros l Hl. apply lookup_delete_ne.
           specialize (Hacc a (list_elem_of_here _ _)). lia.
        -- intros l [_ Hl]%lookup_delete_is_Some. auto.
        -- by apply closed_delete.
      * rewrite bind_unfold. simpl. split; [done|]. split; [lia|]. done.
Qed.

Lemma copyList_loop_spec b0 m r head : ∀ scs fuel ls newcur srccur w,
  maps w !! m = Some (Some r) →
  seg (nodes w) srccur scs None →
  (∀ l, l ∈ locs scs → (l < b0)%positive) →
  rawseg (nodes w) newcur ls None →
  (∀ l, l ∈ ls → (b0 ≤ l)%positive) →
  NoDup ls →
  closed b0 (nodes w) →
  (∀ l, head = Some l → (b0 ≤ l)%positive) →
  length ls = length scs →
  length scs < fuel →
  ensures (copyList_loop fuel m head newcur srccur w) (λ res w',
    maps w' = maps w ∧ brk w' = brk w ∧
    (∀ l, (l < b0)%positive → nodes w' !! l = nodes w !! l) ∧
    (∀ l, is_Some (nodes w' !! l) → is_Some (nodes w !! l)) ∧
    closed b0 (nodes w') ∧
    match res with
    | None =>
        (∀ l, l ∉ ls → nodes w' !! l = nodes w !! l) ∧
        seg (nodes w') newcur
            (zip_with (copy_cell (copy_data r) (copy_key r)) ls scs) None ∧
        Forall (λ c, is_Some (cdata c)) scs
    | Some e => e = MAP_OUT_OF_MEMORY
    end).
Proof.
  induction scs as [|c scs IH];
    intros fuel ls newcur srccur w Hm Hseg Hold Hraw Hnew Hnd Hcl Hhead Hlen Hfuel.
  - destruct ls; [|done]. simpl in Hseg, Hraw. subst.
    destruct fuel; simpl; repeat split; done.
  - destruct ls as [|l0 ls]; [done|]. destruct fuel as [|fuel]; [simpl in Hfuel; lia|].
    destruct Hseg as [-> (nxs & Hc & Hseg)]. destruct Hraw as [-> (nxn & Hl0 & Hraw)].
    apply NoDup_cons in Hnd as [Hl0_ni Hnd].
    assert (l0 ≠ cloc c) as Hne.
    { intros E. specialize (Hold (cloc c) (list_elem_of_here _ _)).
      specialize (Hnew l0 (list_elem_of_here _ _)). lia. }
    cbn [copyList_loop].
    step (load_map_eq _ _ _ Hm). step nonnull_eq.
    step (node_data_eq _ _ _ Hc). unfold node_of at 1. tidy.
    destruct (cdata c) as [v|] eqn:Hv; [|by rewrite bind_unfold].
    cbn [of_option]. step call_copy_data_eq. estep set_node_data_eq.
    estep node_key_eq. unfold node_of at 1. tidy.
    step call_copy_key_eq. estep set_node_key_eq. rewrite insert_insert_eq.
    estep node_data_eq. estep node_key_eq.
    step is_null_eq. step is_null_eq.
    set (b1 := next_ok (oracle w)). set (b2 := next_ok (tail (oracle w))).
    set (ns3 := <[l0 := _]> (nodes w)).
    assert (closed b0 ns3) as Hcl3.
    { apply closed_insert; [done|]. intros t ->.
      destruct ls as [|l1 ls']; simpl in Hraw; [done|].
      destruct Hraw as [[= ->] _]. apply Hnew. right. by left. }
    destruct b1, b2; cbn [new_data new_key];
      rewrite ?bool_decide_eq_true_2, ?bool_decide_eq_false_2 by done; cbn [orb].
    2,3,4:
      apply ensures_bind; unfold freeList;
      (eapply ensures_mono; [by apply (freeList_loop_frees b0)|]); tidy;
      intros ? w' (Hm' & Hb' & Hfr & Hdom & Hcl'); rewrite ret_eq; simpl;
      (split; [done|]); (split; [done|]); (split; [|split; [|done]]);
      [ intros l Hl; rewrite Hfr by done; apply lookup_insert_ne;
        specialize (Hnew l0 (list_elem_of_here _ _)); lia
      | intros l Hl; apply Hdom in Hl;
        apply lookup_insert_is_Some' in Hl as [<-|Hl]; [by eexists|done] ].
    rewrite bind_unfold. erewrite (node_next_eq _ _ _ _ nxs)
      by (tidy; unfold ns3; rewrite lookup_insert_ne by done; exact Hc). tidy.
    rewrite bind_unfold. erewrite (node_next_eq _ _ _ _ nxn)
      by (tidy; unfold ns3; apply lookup_insert_eq). tidy.
    eapply ensures_mono.
    + apply (IH fuel ls nxn nxs); tidy; try done.
      * eapply seg_frame; [|done]. intros l Hl. apply lookup_insert_ne.
        intros <-. specialize (Hold l0). specialize (Hnew l0 (list_elem_of_here _ _)).
        rewrite locs_cons in Hold. specialize (Hold (list_elem_of_further _ _ _ Hl)). lia.
      * intros l Hl. apply Hold. rewrite locs_cons. by right.
      * eapply rawseg_frame; [|done]. intros l Hl. apply lookup_insert_ne. by intros <-.
      * intros l Hl. apply Hnew. by right.
      * simpl in Hlen. lia.
      * simpl in Hfuel. lia.
    + tidy. intros res w' (Hm' & Hb' & Hfr & Hdom & Hcl' & Hres).
      split; [done|]. split; [done|]. split; [|split; [|split; [done|]]].
      * intros l Hl. rewrite Hfr by done. apply lookup_insert_ne.
        specialize (Hnew l0 (list_elem_of_here _ _)). lia.
      * intros l Hl. apply Hdom in Hl.
        apply lookup_insert_is_Some' in Hl as [<-|Hl]; [by eexists|done].
      * destruct res as [e|]; [done|]. destruct Hres as (Hout & Hseg' & Hall).
        split; [|split].
        -- intros l Hl. apply not_elem_of_cons in Hl as [Hl1 Hl2].
           rewrite Hout by done. by apply lookup_insert_ne.
        -- simpl. split; [done|]. exists nxn. split; [|done].
           rewrite Hout by done. unfold ns3. rewrite lookup_insert_eq.
           unfold copy_cell. by rewrite Hv.
        -- constructor; [by rewrite Hv|done].
Qed.

Lemma set_node_next_inv w l p u w' :
  set_node_next l p w = Done u w' →
  ∃ n, nodes w !! l = Some n ∧
       w' = set_nodes (insert l (Node (data n) (key n) (of_option p))) w.
Proof.
  unfold set_node_next. intros (n & w1 & [Hn ->]%load_node_inv & H)%bind_inv.
  rewrite (store_node_eq _ _ _ _ Hn) in H. injection H as <-. by exists n.
Qed.

Lemma set_size_inv w m z u w' :
  set_size m z w = Done u w' →
  ∃ r, maps w !! m = Some (Some r) ∧
       w' = set_maps (insert m (Some (with_size z r))) w.
Proof.
  unfold set_size. intros (r & w1 & [Hm ->]%load_map_inv & H)%bind_inv.
  rewrite (store_map_eq _ _ _ _ Hm) in H. injection H as <-. by exists r.
Qed.

Lemma free_node_inv w p u w' :
  free_node p w = Done u w' →
  match p with
  | None => w' = w
  | Some l => is_Some (nodes w !! l) ∧ w' = set_nodes (delete l) w
  end.
Proof.
  destruct p as [l|]; simpl; [|by intros [= <-]].
  destruct (nodes w !! l) eqn:E; [|done]. intros [= <-]. split; [by eexists|done].
Qed.

Lemma free_map_inv w l u w' :
  free_map (Some l) w = Done u w' → w' = set_maps (delete l) w.
Proof. simpl. destruct (maps w !! l); [|done]. by intros [= <-]. Qed.

(** Destroying a map whose nodes are above [b0] frees nodes above [b0]
    only. *)
Lemma mapDestroy_frees b0 mc w :
  closed b0 (nodes w) →
  (∀ rc, maps w !! mc = Some (Some rc) → ∃ sc, first rc = Some sc ∧ (b0 ≤ sc)%positive) →
  ensures (mapDestroy (Some mc) w) (λ _ w',
    (∀ m', m' ≠ mc → maps w' !! m' = maps w !! m') ∧
    maps w' !! mc = None ∧ brk w' = brk w ∧
    (∀ l, (l < b0)%positive → nodes w' !! l = nodes w !! l) ∧
    (∀ l, is_Some (nodes w' !! l) → is_Some (nodes w !! l))).
Proof.
  intros Hcl Hmc. apply ensures_intro. intros u w' H. unfold mapDestroy, mapClear in H.
  apply bind_inv in H as (e & w1 & H1 & H).
  apply bind_inv in H1 as (rc & w0 & [Hrc ->]%load_map_inv & H1).
  destruct (Hmc _ Hrc) as (sc & Hf & Hsc). rewrite Hf in H1.
  apply bind_inv in H1 as (? & w0 & [[= <-] ->]%nonnull_inv & H1).
  apply bind_inv in H1 as (nx & w0 & (d & k & Hs & ->)%node_next_inv & H1).
  apply bind_inv in H1 as (? & w2 & Hfree & H1).
  assert (∀ t, nx = Some t → (b0 ≤ t)%positive) as Hnx.
  { intros t ->. by eapply Hcl. }
  unfold freeList in Hfree.
  pose proof (ensures_inv _ _ _ _ (freeList_loop_frees b0 mc _ nx w Hcl Hnx) Hfree)
    as (Hm2 & Hb2 & Hfr2 & Hdom2 & Hcl2).
  apply bind_inv in H1 as (? & w3 & (n3 & Hn3 & ->)%set_node_next_inv & H1).
  apply bind_inv in H1 as (? & w4 & (r4 & Hr4 & ->)%set_size_inv & H1).
  injection H1 as _ <-.
  apply bind_inv in H as (r5 & w5 & [Hr5 ->]%load_map_inv & H).
  simpl in Hr4, Hr5. rewrite lookup_insert_eq in Hr5. injection Hr5 as <-.
  rewrite Hm2, Hrc in Hr4. injection Hr4 as <-. simpl in H. rewrite Hf in H.
  apply bind_inv in H as (? & w6 & [_ ->]%free_node_inv & ->%free_map_inv).
  simpl. split; [|split; [|split; [done|split]]].
  - intros m' Hne. by rewrite lookup_delete_ne, lookup_insert_ne, Hm2.
  - apply lookup_delete_eq.
  - intros l Hl. rewrite lookup_delete_ne, lookup_insert_ne by lia. by apply Hfr2.
  - intros l [_ [<-|Hl]%lookup_insert_is_Some']%lookup_delete_is_Some;
      [by eexists|by apply Hdom2].
Qed.

Lemma copyList_spec b0 m mc r s cs rc sc w :
  is_map w m r s cs →
  size r = Z.of_nat (length cs) →
  (∀ l, l ∈ fp s cs → (l < b0)%positive) →
  maps w !! mc = Some (Some rc) →
  first rc = Some sc →
  nodes w !! sc = Some (Node Null Null Null) →
  (∀ l, is_Some (nodes w !! l) → (l < brk w)%positive) →
  (b0 ≤ sc)%positive →
  closed b0 (nodes w) →
  ensures (copyList (Some m) (Some mc) w) (λ e w',
    maps w' = maps w ∧ (brk w ≤ brk w')%positive ∧
    (∀ l, (l < b0)%positive → nodes w' !! l = nodes w !! l) ∧
    (∀ l, is_Some (nodes w' !! l) → (l < brk w')%positive) ∧
    closed b0 (nodes w') ∧
    (e = MAP_SUCCESS →
     ∃ hd ls,
       nodes w' !! sc = Some (Node Null Null (of_option hd)) ∧
       seg (nodes w') hd (zip_with (copy_cell (copy_data r) (copy_key r)) ls cs) None ∧
       NoDup (sc :: ls) ∧
       (∀ l, l ∈ ls → (b0 ≤ l)%positive) ∧
       length ls = length cs ∧
       Forall (λ c, is_Some (cdata c)) cs)).
Proof.
  intros Hmap Hsz Hold Hmc Hfc Hsc Hfresh Hb Hcl.
  pose proof Hmap as (Hm & Hf & (sd & sk & nx & Hs & Hseg) & Hnd).
  unfold copyList. step (load_map_eq _ _ _ Hm).
  apply ensures_bind. unfold createNewList. rewrite Hsz, Nat2Z.id.
  eapply ensures_mono.
  { apply (createNewList_loop_spec b0 (length cs) None []); try done.
    - constructor.
    - intros l Hl. by apply elem_of_nil in Hl.
    - pose proof (Hfresh _ (mk_is_Some _ _ Hsc)). lia. }
  tidy. intros res w1 (Hm1 & Hb1 & _ & Hfr1 & Hfresh1 & Hcl1 & Hres).
  destruct res as [hd|].
  2:{ rewrite ret_eq. simpl. repeat (split; [done|]). done. }
  destruct Hres as (new & Hraw & Hndn & Hnew & Hlen & Hout).
  rewrite app_nil_r in Hraw, Hndn, Hout.
  assert (Hmap1 : is_map w1 m r s cs).
  { eapply is_map_frame; [by rewrite Hm1| |done].
    intros l Hl. apply Hfr1. by apply Hold. }
  pose proof (is_map_fuel _ _ _ _ _ Hmap1) as Hfuel.
  destruct Hmap1 as (Hm1' & _ & (sd1 & sk1 & nx1 & Hs1 & Hseg1) & _).
  rewrite Hf. step nonnull_eq. step (node_next_eq _ _ _ _ nx1 Hs1).
  apply ensures_bind. unfold copyList_walk.
  eapply ensures_mono.
  { apply (copyList_loop_spec b0 m r (Some hd) cs _ new (Some hd) nx1 w1); try done.
    - intros l Hl. apply Hold. by right.
    - intros l Hl. by apply Hnew.
    - intros l [= <-]. destruct new as [|l0 new']; simpl in Hraw; [done|].
      destruct Hraw as [[= ->] _]. apply Hnew. by left.
    - lia. }
  tidy. intros res w2 (Hm2 & Hb2 & Hfr2 & Hdom2 & Hcl2 & Hres).
  assert (sc ∉ new) as Hsc_new.
  { intros Hl. destruct (Hnew _ Hl) as [_ Hge].
    pose proof (Hfresh _ (mk_is_Some _ _ Hsc)). lia. }
  destruct res as [e|].
  { rewrite ret_eq. simpl. subst e.
    split; [congruence|]. split; [lia|]. split; [|split; [|split; [done|done]]].
    - intros l Hl. by rewrite Hfr2, Hfr1.
    - intros l Hl. rewrite Hb2. by apply Hfresh1, Hdom2. }
  destruct Hres as (Hout2 & Hseg2 & Hall).
  assert (nodes w2 !! sc = Some (Node Null Null Null)) as Hsc2
    by (by rewrite Hout2, Hout).
  rewrite bind_unfold. erewrite load_map_eq by (rewrite Hm2, Hm1; exact Hmc). tidy.
  rewrite Hfc. step nonnull_eq. estep set_node_next_eq. rewrite ret_eq. simpl.
  split; [congruence|]. split; [lia|]. split; [|split; [|split; [|]]].
  - intros l Hl. rewrite lookup_insert_ne by lia. by rewrite Hfr2, Hfr1.
  - intros l [<-|Hl]%lookup_insert_is_Some'.
    + rewrite Hb2. apply Hfresh1. rewrite Hout by done. by eexists.
    + rewrite Hb2. by apply Hfresh1, Hdom2.
  - apply (closed_insert _ _ _ _ _ (Some hd)); [done|].
    intros t [= <-]. destruct new as [|l0 new']; simpl in Hraw; [done|].
    destruct Hraw as [[= ->] _]. apply Hnew. by left.
  - intros _. exists (Some hd), new. split; [apply lookup_insert_eq|].
    split; [|split; [|split; [|split]]]; try done.
    + eapply seg_frame; [|done]. intros l Hl. apply lookup_insert_ne.
      intros <-. apply Hsc_new.
      unfold locs in Hl. apply list_elem_of_fmap in Hl as (c & -> & Hc).
      apply list_elem_of_lookup in Hc as (i & Hi).
      apply lookup_zip_with_Some in Hi as (l' & c' & -> & Hl' & _).
      apply list_elem_of_lookup. by exists i.
    + by apply NoDup_cons.
    + intros l Hl. by apply Hnew.
Qed.

Lemma locs_copy cd ck ls cs :
  length ls = length cs → locs (zip_with (copy_cell cd ck) ls cs) = ls.
Proof. intros H. unfold locs. apply fmap_zip_with_l; [done|lia]. Qed.

Lemma keys_copy cd ck ls : ∀ cs,
  length ls = length cs → keys (zip_with (copy_cell cd ck) ls cs) = ck <$> keys cs.
Proof.
  induction ls as [|l ls IH]; intros [|c cs] H; try done.
  cbn [zip_with]. rewrite !keys_cons, fmap_cons. f_equal. apply IH. simpl in H. lia.
Qed.

Lemma sorted_copy (cmp : K → K → Z) (ck : K → K) (ks : list K) :
  lawful cmp ck →
  StronglySorted (key_lt cmp) ks → StronglySorted (key_lt cmp) (ck <$> ks).
Proof.
  intros Hlaw. apply StronglySorted_fmap. intros a b Hab. unfold key_lt in *.
  eapply (cmp_lt_le_trans _ _ Hlaw _ b).
  - eapply (cmp_le_lt_trans _ _ Hlaw _ a); [|done].
    rewrite (cmp_copy_l _ _ Hlaw). lia.
  - rewrite (cmp_copy_r _ _ Hlaw). lia.
Qed.

(** The invariant after a copy that returned no map. *)
Lemma copy_failed w w' m r s cs :
  wf w →
  is_map w m r s cs →
  (∀ m', maps w' !! m' = maps w !! m') →
  (brk w ≤ brk w')%positive →
  (∀ l, (l < brk w)%positive → nodes w' !! l = nodes w !! l) →
  (∀ l, is_Some (nodes w' !! l) → (l < brk w')%positive) →
  wf w' ∧ is_map w' m r s cs.
Proof.
  intros Hwf Hmap Hmaps Hbrk Hfr Hfresh. split.
  - apply (wf_step w w' (brk w)); try done.
    + intros l Hl. rewrite Hmaps in Hl. pose proof (wf_cells _ Hwf _ Hl). lia.
    + intros l n Hl _. rewrite Hfr; [done|]. apply (wf_nodes _ Hwf). by eexists.
    + intros r'. by rewrite Hmaps, (wf_fresh_map _ Hwf).
  - eapply is_map_frame; [| |done].
    + rewrite Hmaps. apply Hmap.
    + intros l Hl. apply Hfr, (wf_nodes _ Hwf). by eapply is_map_lookup.
Qed.

(** The invariant after a copy that returned the duplicate [mc]. *)
Lemma copy_done w w' m r s cs sc hd ls :
  wf w →
  is_map w m r s cs →
  good r cs →
  maps w' !! brk w = Some (Some (copy_record r sc)) →
  maps w' !! m = Some (Some (with_iterator None r)) →
  (∀ m', m' ≠ brk w → m' ≠ m → maps w' !! m' = maps w !! m') →
  (brk w < brk w')%positive →
  (∀ l, (l < brk w)%positive → nodes w' !! l = nodes w !! l) →
  (∀ l, is_Some (nodes w' !! l) → (l < brk w')%positive) →
  nodes w' !! sc = Some (Node Null Null (of_option hd)) →
  seg (nodes w') hd (zip_with (copy_cell (copy_data r) (copy_key r)) ls cs) None →
  NoDup (sc :: ls) →
  (∀ l, l ∈ sc :: ls → (brk w ≤ l)%positive) →
  length ls = length cs →
  wf w' ∧
  is_map w' m (with_iterator None r) s cs ∧
  is_map w' (brk w) (copy_record r sc) sc
         (zip_with (copy_cell (copy_data r) (copy_key r)) ls cs).
Proof.
  intros Hwf Hmap Hgood Hmc Hm' Hother Hbrk Hfr Hfresh Hsc Hseg Hnd Hnew Hlen.
  pose proof Hmap as (Hm & _).
  assert (m ≠ brk w) as Hne.
  { intros ->. rewrite (wf_fresh_map _ Hwf) in Hm. done. }
  assert (Hmap' : is_map w' m (with_iterator None r) s cs).
  { eapply (is_map_frame (set_maps (insert m (Some (with_iterator None r))) w) w');
      [exact Hm'| |].
    - intros l Hl. apply Hfr, (wf_nodes _ Hwf). by eapply is_map_lookup.
    - eapply (is_map_set_record w); [exact Hmap|done| |done].
      simpl. apply lookup_insert_eq. }
  assert (Hmapc : is_map w' (brk w) (copy_record r sc) sc
                    (zip_with (copy_cell (copy_data r) (copy_key r)) ls cs)).
  { split; [done|]. split; [done|]. split; [by exists Null, Null, hd|].
    by rewrite locs_copy. }
  split; [|done].
  pose proof (wf_set_iterator w m r None Hwf Hm) as Hwfa.
  apply (wf_step _ w' (brk w) Hwfa); simpl.
  - lia.
  - done.
  - intros l Hl. destruct (decide (l = brk w)) as [->|H1]; [done|].
    destruct (decide (l = m)) as [->|H2].
    + pose proof (wf_cells _ Hwf m). rewrite Hm in H.
      specialize (H (mk_is_Some _ _ eq_refl)). lia.
    + rewrite Hother in Hl by done. pose proof (wf_cells _ Hwf _ Hl). lia.
  - intros m' H1. destruct (decide (m' = m)) as [->|H2].
    + by rewrite lookup_insert_eq.
    + rewrite lookup_insert_ne by done. by apply Hother.
  - intros l n Hl _. rewrite Hfr; [done|]. apply (wf_nodes _ Hwf). by eexists.
  - intros r'. rewrite Hmc. intros [= <-].
    exists sc, (zip_with (copy_cell (copy_data r) (copy_key r)) ls cs).
    split; [done|]. destruct Hgood as (Hs & Hsz & Hmax & Hlaw). split.
    + split; [|split; [|split; [done|done]]].
      * rewrite keys_copy by done. by apply sorted_copy.
      * simpl. rewrite length_zip_with_l_eq; [lia|done].
    + intros l Hl. left. apply Hnew. unfold fp in Hl. by rewrite locs_copy in Hl.
Qed.

Lemma mapCopy_spec w m r s cs :
  wf w →
  is_map w m r s cs →
  good r cs →
  ensures (mapCopy (Some m) w) (λ res w',
    wf w' ∧
    match res with
    | Some mc =>
        mc = brk w ∧
        is_map w' m (with_iterator None r) s cs ∧
        ∃ sc ls,
          is_map w' mc (copy_record r sc) sc
                 (zip_with (copy_cell (copy_data r) (copy_key r)) ls cs) ∧
          length ls = length cs ∧
          Forall (λ c, is_Some (cdata c)) cs
    | None => is_map w' m r s cs
    end).
Proof.
  intros Hwf Hmap Hgood. pose proof Hmap as (Hm & Hf & _ & Hnd).
  assert (brk w ≠ m) as Hne.
  { intros <-. rewrite (wf_fresh_map _ Hwf) in Hm. done. }
  unfold mapCopy. step (load_map_eq _ _ _ Hm).
  rewrite bind_unfold, (mapCreate_eq _ _ _ _ _ _ (wf_fresh_map _ Hwf)).
  destruct (next_ok (oracle w)).
  2:{ tidy. rewrite ret_eq. simpl. apply (copy_failed w); try done; tidy; try done.
      apply (wf_nodes _ Hwf). }
  destruct (next_ok (tail (oracle w))).
  2:{ tidy. rewrite ret_eq. simpl. apply (copy_failed w); try done; tidy; try done.
      - lia.
      - intros l Hl. pose proof (wf_nodes _ Hwf _ Hl). lia. }
  tidy.
  estep load_map_eq. estep set_size_eq. rewrite insert_insert_eq.
  estep load_map_eq.
  assert (Hsc_new : nodes w !! (Pos.succ (brk w)) = None).
  { destruct (nodes w !! (Pos.succ (brk w))) eqn:E; [|done].
    pose proof (wf_nodes _ Hwf _ (mk_is_Some _ _ E)). lia. }
  assert (Hold : ∀ l, l ∈ fp s cs → (l < brk w)%positive).
  { intros l Hl. apply (wf_nodes _ Hwf). by eapply is_map_lookup. }
  pose proof Hgood as (Hsorted & Hsz & Hmax & Hlaw).
  destruct (size r =? 0)%Z eqn:Hz.
  - apply Z.eqb_eq in Hz. rewrite Hz in Hsz.
    destruct cs as [|c cs]; [|simpl in Hsz; lia].
    rewrite bind_unfold, ret_eq. tidy. cbn [MapResult_eqb].
    estep set_iterator_eq. estep set_iterator_eq. rewrite ret_eq. simpl.
    destruct (copy_done w
      (World (<[(Pos.succ (brk w)) := Node Null Null Null]> (nodes w))
         (<[(brk w) := Some (copy_record r (Pos.succ (brk w)))]>
            (<[m := Some (with_iterator None r)]>
               (<[(brk w) := Some (MapRec (Some (Pos.succ (brk w))) (size r) (Some (Pos.succ (brk w))) (copy_data r)
                                (copy_key r) (free_data r) (free_key r)
                                (compare_keys r))]> (maps w))))
         (Pos.succ (Pos.succ (brk w))) (tail (tail (oracle w))) (trace w))
      m r s [] (Pos.succ (brk w)) None []) as (H1 & H2 & H3); try done; tidy.
    + apply lookup_insert_eq.
    + by rewrite lookup_insert_ne, lookup_insert_eq.
    + intros m' ? ?. by rewrite !lookup_insert_ne.
    + lia.
    + intros l Hl. apply lookup_insert_ne. lia.
    + intros l [<-|Hl]%lookup_insert_is_Some'; [lia|].
      pose proof (wf_nodes _ Hwf _ Hl). lia.
    + apply lookup_insert_eq.
    + apply NoDup_singleton.
    + intros l [->|Hl]%elem_of_cons; [lia|]. by apply elem_of_nil in Hl.
    + split; [done|]. split; [done|]. split; [done|].
      exists (Pos.succ (brk w)), []. by split.
  - apply Z.eqb_neq in Hz. apply ensures_bind.
    eapply ensures_mono.
    { apply (copyList_spec (brk w) m (brk w) r s cs
               (MapRec (Some (Pos.succ (brk w))) (size r) (Some (Pos.succ (brk w))) (copy_data r) (copy_key r)
                       (free_data r) (free_key r) (compare_keys r)) (Pos.succ (brk w)));
        tidy; try done.
      - eapply is_map_frame; [| |done]; tidy.
        + by rewrite lookup_insert_ne.
        + intros l Hl. apply lookup_insert_ne. intros <-.
          destruct (is_map_lookup _ _ _ _ _ _ Hmap Hl). congruence.
      - apply lookup_insert_eq.
      - apply lookup_insert_eq.
      - intros l [<-|Hl]%lookup_insert_is_Some'; [lia|].
        pose proof (wf_nodes _ Hwf _ Hl). lia.
      - lia.
      - intros l d k t Hl [[<- [=]]|[_ H]]%lookup_insert_Some.
        pose proof (wf_nodes _ Hwf _ (mk_is_Some _ _ H)). lia. }
    tidy. intros e w3 (Hm3 & Hb3 & Hfr3 & Hfresh3 & Hcl3 & Hres).
    destruct (MapResult_eqb e MAP_SUCCESS) eqn:He.
    + assert (e = MAP_SUCCESS) as -> by (by destruct e).
      destruct (Hres eq_refl) as (hd & ls & Hsc3 & Hseg3 & Hnd3 & Hnew3 & Hlen3 & Hall).
      rewrite bind_unfold. erewrite set_iterator_eq
        by (rewrite Hm3; rewrite lookup_insert_ne by done; exact Hm). tidy.
      rewrite bind_unfold. erewrite set_iterator_eq
        by (tidy; rewrite lookup_insert_ne by done; rewrite Hm3; apply lookup_insert_eq).
      tidy. rewrite ret_eq. simpl.
      destruct (copy_done w
        (World (nodes w3)
           (<[(brk w) := Some (copy_record r (Pos.succ (brk w)))]>
              (<[m := Some (with_iterator None r)]> (maps w3)))
           (brk w3) (oracle w3) (trace w3))
        m r s cs (Pos.succ (brk w)) hd ls) as (H1 & H2 & H3); try done; tidy.
      * apply lookup_insert_eq.
      * by rewrite lookup_insert_ne, lookup_insert_eq.
      * intros m' ? ?. by rewrite !lookup_insert_ne, Hm3, lookup_insert_ne.
      * lia.
      * intros l Hl. rewrite Hfr3 by done. apply lookup_insert_ne. lia.
      * intros l [->|Hl]%elem_of_cons; [lia|]. by apply Hnew3.
      * split; [done|]. split; [done|]. split; [done|]. by exists (Pos.succ (brk w)), ls.
    + apply ensures_bind. eapply ensures_mono.
      { apply (mapDestroy_frees (brk w) (brk w) w3); [done|].
        intros rc. rewrite Hm3, lookup_insert_eq. intros [= <-].
        exists (Pos.succ (brk w)). split; [done|]. lia. }
      tidy. intros ? w4 (Hother4 & Hmc4 & Hb4 & Hfr4 & Hdom4). rewrite ret_eq. simpl.
      apply (copy_failed w); try done.
      * intros m'. destruct (decide (m' = (brk w))) as [->|Hne'].
        -- by rewrite Hmc4, (wf_fresh_map _ Hwf).
        -- by rewrite Hother4, Hm3, lookup_insert_ne.
      * lia.
      * intros l Hl. rewrite Hfr4, Hfr3 by done. apply lookup_insert_ne. lia.
      * intros l Hl. rewrite Hb4. by apply Hfresh3, Hdom4.
Qed.

Lemma mapCopy_wf w map x w' :
  wf w → mapCopy map w = Done x w' → wf w'.
Proof.
  intros Hwf H. destruct map as [m|]; [|by injection H as <- <-].
  destruct (maps w !! m) as [[r|]|] eqn:Hm;
    [|unfold mapCopy in H; rewrite bind_unfold, load_map_fault in H;
      [done|congruence]..].
  destruct (wf_maps _ Hwf _ _ Hm) as (s & cs & Hmap & Hgood).
  by destruct (ensures_inv _ _ _ _ (mapCopy_spec _ _ _ _ _ Hwf Hmap Hgood) H).
Qed.

(** ** Reachable states *)

Lemma wf_init o : wf (init_world (K:=K) (V:=V) o).
Proof.
  split; simpl.
  - intros m r H. by rewrite lookup_empty in H.
  - intros m1 m2 r1 r2 s1 s2 cs1 cs2 l _ (H & _). simpl in H.
    by rewrite lookup_empty in H.
  - intros l [? H]. by rewrite lookup_empty in H.
  - intros l [? H]. by rewrite lookup_empty in H.
Qed.

Lemma reachable_wf w : reachable w → wf w.
Proof.
  induction 1 as [o|w cd ck fd fk cmp x w' _ IH Hlaw H|w map x w' _ IH H
    |w map x w' _ IH H|w map x w' _ IH H|w map k x w' _ IH H|w map k v x w' _ IH H
    |w map k x w' _ IH H|w map k x w' _ IH H|w map x w' _ IH H|w map x w' _ IH H
    |w map x w' _ IH H].
  - apply wf_init.
  - eapply mapCreate_wf; [exact IH| |exact H]. intros f g -> ->. by apply Hlaw.
  - by eapply mapDestroy_wf.
  - by eapply mapCopy_wf.
  - by rewrite (mapGetSize_pure _ _ _ _ H).
  - by rewrite (mapContains_pure _ _ _ _ _ H).
  - by eapply mapPut_wf.
  - by rewrite (mapGet_pure _ _ _ _ _ H).
  - by eapply mapRemove_wf.
  - by eapply mapGetFirst_wf.
  - by eapply mapGetNext_wf.
  - by eapply mapClear_wf.
Qed.

(** ** Presence of a key *)

(** In a strictly increasing chain no two keys compare equal. *)
Lemma sorted_distinct cmp ck (ks : list K) i j ki kj :
  lawful cmp ck →
  StronglySorted (key_lt cmp) ks →
  i ≠ j → ks !! i = Some ki → ks !! j = Some kj → cmp ki kj ≠ 0%Z.
Proof.
  intros Hlaw Hs. revert i j ki kj.
  assert (Hlt : ∀ i j ki kj, i < j → ks !! i = Some ki → ks !! j = Some kj →
                             key_lt cmp ki kj).
  { induction Hs as [|a ks Hs IH Hall]; intros i j ki kj Hij Hi Hj.
    - by rewrite lookup_nil in Hi.
    - destruct j as [|j]; [lia|]. simpl in Hj. destruct i as [|i]; simpl in Hi.
      + injection Hi as <-. rewrite Forall_forall in Hall. apply Hall.
        by eapply list_elem_of_lookup_2.
      + eapply (IH i j); [lia|done..]. }
  intros i j ki kj Hne Hi Hj. destruct (decide (i < j)) as [Hij|Hij].
  - pose proof (Hlt _ _ _ _ Hij Hi Hj) as H. unfold key_lt in H. lia.
  - assert (j < i) as Hji by lia.
    pose proof (Hlt _ _ _ _ Hji Hj Hi) as H. unfold key_lt in H.
    apply (cmp_flip_lt _ _ Hlaw) in H. lia.
Qed.

(** The search finds a key exactly when some node of the chain compares
    equal to it. *)
Lemma hit_iff cmp ck k cs :
  lawful cmp ck →
  StronglySorted (key_lt cmp) (keys cs) →
  hit cmp k cs = true ↔ ∃ c, c ∈ cs ∧ cmp k (ckey c) = 0%Z.
Proof.
  intros Hlaw Hs. split.
  - intros (c & cs' & Hfrom & Hc)%hit_true. exists c. split; [|done].
    rewrite <- (before_from cmp k cs), Hfrom, elem_of_app, elem_of_cons. auto.
  - intros (c & Hin & Hc).
    rewrite <- (before_from cmp k cs), elem_of_app in Hin.
    destruct Hin as [Hin|Hin]; [apply before_gt in Hin; lia|].
    unfold hit. destruct (from cmp k cs) as [|c0 cs0] eqn:Hfrom;
      [by apply elem_of_nil in Hin|].
    apply Z.eqb_eq. apply elem_of_cons in Hin as [->|Hin]; [done|].
    pose proof (from_head _ _ _ _ _ Hfrom) as H0.
    rewrite <- (before_from cmp k cs), Hfrom, keys_app, keys_cons in Hs.
    apply StronglySorted_app_1_r, StronglySorted_cons in Hs as [Hall _].
    rewrite Forall_forall in Hall.
    assert (key_lt cmp (ckey c0) (ckey c)) as Hlt.
    { apply Hall. unfold keys. by apply list_elem_of_fmap_2. }
    pose proof (cmp_le_lt_trans _ _ Hlaw _ _ _ H0 Hlt). lia.
Qed.

Lemma hit_not cmp ck k cs :
  lawful cmp ck →
  StronglySorted (key_lt cmp) (keys cs) →
  hit cmp k cs = false ↔ ∀ c, c ∈ cs → cmp k (ckey c) ≠ 0%Z.
Proof.
  intros Hlaw Hs. pose proof (hit_iff _ _ k _ Hlaw Hs) as Hiff.
  destruct (hit cmp k cs); split; try done.
  - intros H. destruct Hiff as [(c & Hc & E) _]; [done|]. by destruct (H c Hc).
  - intros _ c Hc E. assert (false = true) by (apply Hiff; eauto). done.
Qed.

(** ** The results of mapPut and mapRemove *)

Lemma mapPut_result w m r s cs k v x w' :
  wf w →
  is_map w m r s cs →
  mapPut (Some m) (Some k) (Some v) w = Done x w' →
  (x = MAP_SUCCESS ∧
   ∃ r' cs', is_map w' m r' s cs' ∧ same_caps r r' ∧ iterator r' = None ∧
     if hit (compare_keys r) k cs then
       size r' = size r ∧
       ∃ c cs2, from (compare_keys r) k cs = c :: cs2 ∧
                compare_keys r k (ckey c) = 0%Z ∧
                cs' = before (compare_keys r) k cs ++
                      (cloc c, ckey c, Some (copy_data r v)) :: cs2
     else
       size r' = (size r + 1)%Z ∧
       cs' = before (compare_keys r) k cs ++
             (brk w, copy_key r k, Some (copy_data r v)) :: from (compare_keys r) k cs) ∨
  (x = MAP_OUT_OF_MEMORY ∧ maps w' = maps w).
Proof.
  intros Hwf Hmap H.
  destruct (hit (compare_keys r) k cs) eqn:Hhit.
  - destruct (hit_true _ _ _ Hhit) as (c & cs2 & Hfrom & Hcmp).
    destruct (mapPut_found _ _ _ _ _ _ v _ _ Hmap Hfrom Hcmp) as (nx & Hc & Heq).
    rewrite Heq in H. injection H as <- <-.
    destruct (next_ok (oracle w)); [left|by right].
    split; [done|].
    exists (with_iterator None r),
      (before (compare_keys r) k cs ++ (cloc c, ckey c, Some (copy_data r v)) :: cs2).
    split; [|split; [done|split; [done|]]].
    + eapply (is_map_set_data w _ m r); try done; tidy.
      * by rewrite <- Hfrom, before_from.
      * apply lookup_insert_eq.
    + split; [done|]. by exists c, cs2.
  - destruct (mapPut_absent _ _ _ _ _ _ v Hmap Hhit (wf_fresh _ Hwf))
      as (pd & pk & Hprev & Heq).
    rewrite Heq in H. clear Heq.
    destruct (next_ok (oracle w)); [|injection H as <- <-; by right].
    destruct (_ && _); [|injection H as <- <-; by right].
    destruct (_ && _); [|done]. injection H as <- <-. left. split; [done|].
    exists (with_iterator None (with_size (size r + 1) r)),
      (before (compare_keys r) k cs ++
       (brk w, copy_key r k, Some (copy_data r v)) :: from (compare_keys r) k cs).
    split; [|done].
    eapply (is_map_link w _ m r _ s cs k (brk w, copy_key r k, Some (copy_data r v)));
      try done; tidy.
    + apply (wf_fresh _ Hwf).
    + apply lookup_insert_eq.
Qed.

Lemma mapRemove_result w m r s cs k :
  wf w →
  is_map w m r s cs →
  good r cs →
  if hit (compare_keys r) k cs then
    ∃ w' c cs2,
      mapRemove (Some m) (Some k) w = Done MAP_SUCCESS w' ∧
      from (compare_keys r) k cs = c :: cs2 ∧
      compare_keys r k (ckey c) = 0%Z ∧
      is_map w' m (with_iterator None (with_size (size r - 1) r)) s
             (before (compare_keys r) k cs ++ cs2)
  else mapRemove (Some m) (Some k) w = Done MAP_ITEM_DOES_NOT_EXIST w.
Proof.
  intros Hwf Hmap (Hs & Hsz & Hmax & Hlaw).
  destruct (hit (compare_keys r) k cs) eqn:Hhit;
    [|by apply (mapRemove_absent w m r s cs)].
  destruct (hit_true _ _ _ Hhit) as (c & cs2 & Hfrom & Hcmp).
  destruct (mapRemove_found _ _ _ _ _ _ _ _ Hmap Hfrom Hcmp)
    as (pd & pk & nxc & Hprev & Hc & Hseg2 & Heq).
  assert (1 ≤ size r)%Z as Hpos.
  { rewrite Hsz, <- (before_from (compare_keys r) k cs), Hfrom, length_app. simpl. lia. }
  replace ((INT_MIN <=? size r - 1)%Z && (size r - 1 <=? INT_MAX)%Z) with true in Heq.
  2:{ symmetry. apply andb_true_iff. unfold INT_MIN, INT_MAX in *.
      split; apply Z.leb_le; lia. }
  eexists _, c, cs2. split; [exact Heq|]. split; [done|]. split; [done|].
  eapply (is_map_unlink w _ m r _ s cs k c cs2); try done; tidy.
  apply lookup_insert_eq.
Qed.

(** After the node that compares equal is removed the search does not
    find the key. *)
Lemma hit_unlink cmp ck k cs c cs2 :
  lawful cmp ck →
  StronglySorted (key_lt cmp) (keys cs) →
  from cmp k cs = c :: cs2 →
  cmp k (ckey c) = 0%Z →
  hit cmp k (before cmp k cs ++ cs2) = false.
Proof.
  intros Hlaw Hs Hfrom Hc.
  rewrite <- (before_from cmp k cs), Hfrom in Hs.
  eapply hit_not; [done|by eapply sorted_unlink|].
  intros c' [Hin|Hin]%elem_of_app.
  - apply before_gt in Hin. lia.
  - rewrite keys_app, keys_cons in Hs.
    apply StronglySorted_app_1_r, StronglySorted_cons in Hs as [Hall _].
    rewrite Forall_forall in Hall.
    assert (key_lt cmp (ckey c) (ckey c')) as Hlt.
    { apply Hall. unfold keys. by apply list_elem_of_fmap_2. }
    assert (cmp k (ckey c') < 0)%Z;
      [eapply (cmp_le_lt_trans _ _ Hlaw _ (ckey c)); [lia|done]|lia].
Qed.

(** ** The enumeration *)

Lemma enumerate_loop_spec m s : ∀ cs2 cs1 c fuel w r,
  is_map w m r s (cs1 ++ c :: cs2) →
  iterator r = Some (cloc c) →
  length cs2 < fuel →
  ∃ w', enumerate_loop fuel (Some m) w = Done ((λ c, At (ckey c)) <$> cs2) w'.
Proof.
  induction cs2 as [|c' cs2 IH]; intros cs1 c fuel w r Hmap Hit Hfuel;
    (destruct fuel as [|fuel]; [simpl in Hfuel; lia|]); cbn [enumerate_loop].
  - step (mapGetNext_eq _ _ _ _ _ _ _ Hmap Hit). by eexists.
  - step (mapGetNext_eq _ _ _ _ _ _ _ Hmap Hit).
    destruct (IH (cs1 ++ [c]) c' fuel
                (World (nodes w) (<[m := Some (with_iterator (Some (cloc c')) r)]> (maps w))
                       (brk w) (oracle w) (trace w))
                (with_iterator (Some (cloc c')) r)) as (w' & Heq);
      [| |simpl in Hfuel; lia|].
    + rewrite <- app_assoc. cbn [app].
      eapply (is_map_set_record w); [done|done| |done]. tidy. apply lookup_insert_eq.
    + done.
    + rewrite bind_unfold, Heq. by eexists.
Qed.

Lemma enumerate_spec w m r s cs :
  is_map w m r s cs →
  ∃ w', enumerate (Some m) w = Done ((λ c, At (ckey c)) <$> cs) w'.
Proof.
  intros Hmap. pose proof (is_map_fuel _ _ _ _ _ Hmap) as Hfuel.
  unfold enumerate. step (mapGetFirst_eq _ _ _ _ _ Hmap).
  destruct cs as [|c cs]; [by eexists|]. tidy.
  destruct (enumerate_loop_spec m s cs [] c (S (base.size (nodes w)))
              (World (nodes w) (<[m := Some (with_iterator (Some (cloc c)) r)]> (maps w))
                     (brk w) (oracle w) (trace w))
              (with_iterator (Some (cloc c)) r)) as (w' & Heq).
  - cbn [app]. eapply (is_map_set_record w); [done|done| |done]. tidy.
    apply lookup_insert_eq.
  - done.
  - simpl in Hfuel. lia.
  - rewrite bind_unfold, Heq. by eexists.
Qed.

Lemma getNext_times_null w m r n :
  maps w !! m = Some (Some r) →
  iterator r = None →
  getNext_times n (Some m) w = Done (replicate n Null) w.
Proof.
  intros Hm Hit. induction n as [|n IH]; [done|]. cbn [getNext_times].
  step (mapGetNext_null _ _ _ Hm Hit). by rewrite bind_unfold, IH.
Qed.

Lemma same_caps_refl r : same_caps r r.
Proof. by repeat split. Qed.

Lemma same_caps_trans r1 r2 r3 : same_caps r1 r2 → same_caps r2 r3 → same_caps r1 r3.
Proof. unfold same_caps. intros (?&?&?&?&?&?) (?&?&?&?&?&?). repeat split; congruence. Qed.

Lemma put_all_keeps m : ∀ kvs w r rs w',
  wf w →
  maps w !! m = Some (Some r) →
  put_all (Some m) kvs w = Done rs w' →
  wf w' ∧ ∃ r', maps w' !! m = Some (Some r') ∧ same_caps r r'.
Proof.
  induction kvs as [|[k v] kvs IH]; intros w r rs w' Hwf Hm H.
  - injection H as <- <-. split; [done|]. exists r. split; [done|apply same_caps_refl].
  - cbn [put_all] in H.
    apply bind_inv in H as (x & w1 & Hput & H).
    apply bind_inv in H as (rs' & w2 & Hrest & H). injection H as <- <-.
    pose proof (mapPut_wf _ _ _ _ _ _ Hwf Hput) as Hwf1.
    destruct (wf_maps _ Hwf _ _ Hm) as (s & cs & Hmap & Hgood).
    destruct (mapPut_result _ _ _ _ _ _ _ _ _ Hwf Hmap Hput)
      as [(_ & r1 & cs1 & (Hm1 & _) & Hcaps & _)|(_ & Hsame)].
    + destruct (IH _ _ _ _ Hwf1 Hm1 Hrest) as (Hwf2 & r2 & Hm2 & Hcaps2).
      split; [done|]. exists r2. split; [done|]. by eapply same_caps_trans.
    + rewrite <- Hsame in Hm. by apply (IH _ _ _ _ Hwf1 Hm Hrest).
Qed.

Lemma from_unique cmp ck k cs c :
  lawful cmp ck →
  StronglySorted (key_lt cmp) (keys cs) →
  c ∈ cs → cmp k (ckey c) = 0%Z →
  ∃ cs2, from cmp k cs = c :: cs2.
Proof.
  intros Hlaw Hs Hin Hc.
  rewrite <- (before_from cmp k cs), elem_of_app in Hin.
  destruct Hin as [Hin|Hin]; [apply before_gt in Hin; lia|].
  destruct (from cmp k cs) as [|c0 cs0] eqn:Hfrom; [by apply elem_of_nil in Hin|].
  apply elem_of_cons in Hin as [->|Hin]; [by exists cs0|].
  pose proof (from_head _ _ _ _ _ Hfrom) as H0.
  rewrite <- (before_from cmp k cs), Hfrom, keys_app, keys_cons in Hs.
  apply StronglySorted_app_1_r, StronglySorted_cons in Hs as [Hall _].
  rewrite Forall_forall in Hall.
  assert (key_lt cmp (ckey c0) (ckey c)) as Hlt.
  { apply Hall. unfold keys. by apply list_elem_of_fmap_2. }
  pose proof (cmp_le_lt_trans _ _ Hlaw _ _ _ H0 Hlt). lia.
Qed.

Lemma from_before_app cmp k cs rest :
  from cmp k (before cmp k cs ++ rest) = from cmp k rest.
Proof.
  induction cs as [|c cs IH]; simpl; [done|].
  destruct (0 <? cmp k (ckey c))%Z eqn:E; [|done]. simpl. by rewrite E.
Qed.

Lemma before_before_app cmp k cs rest :
  before cmp k (before cmp k cs ++ rest) = before cmp k cs ++ before cmp k rest.
Proof.
  induction cs as [|c cs IH]; simpl; [done|].
  destruct (0 <? cmp k (ckey c))%Z eqn:E; [|done]. simpl. by rewrite E, IH.
Qed.

(** A call on a map that returned was made on a map of the heap. *)
Lemma mapPut_is_map w m k v x w' :
  wf w → mapPut (Some m) (Some k) (Some v) w = Done x w' →
  ∃ r s cs, is_map w m r s cs ∧ good r cs.
Proof.
  intros Hwf H.
  destruct (maps w !! m) as [[r|]|] eqn:Hm;
    [|unfold mapPut in H; rewrite bind_unfold, findPrevNode_fault in H; [done|congruence]..].
  destruct (wf_maps _ Hwf _ _ Hm) as (s & cs & ? & ?). by exists r, s, cs.
Qed.

Lemma mapRemove_is_map w m k x w' :
  wf w → mapRemove (Some m) (Some k) w = Done x w' →
  ∃ r s cs, is_map w m r s cs ∧ good r cs.
Proof.
  intros Hwf H.
  destruct (maps w !! m) as [[r|]|] eqn:Hm;
    [|unfold mapRemove in H; rewrite bind_unfold, findPrevNode_fault in H;
      [done|congruence]..].
  destruct (wf_maps _ Hwf _ _ Hm) as (s & cs & ? & ?). by exists r, s, cs.
Qed.

Lemma mapCopy_is_map w m x w' :
  wf w → mapCopy (Some m) w = Done x w' →
  ∃ r s cs, is_map w m r s cs ∧ good r cs.
Proof.
  intros Hwf H.
  destruct (maps w !! m) as [[r|]|] eqn:Hm;
    [|unfold mapCopy in H; rewrite bind_unfold, load_map_fault in H;
      [done|congruence]..].
  destruct (wf_maps _ Hwf _ _ Hm) as (s & cs & ? & ?). by exists r, s, cs.
Qed.

(** ** Lookup of a key in the chain *)

Lemma reachable_good w m r s cs :
  reachable w → is_map w m r s cs → wf w ∧ good r cs.
Proof.
  intros Hreach Hmap. apply reachable_wf in Hreach. split; [done|].
  destruct (wf_maps _ Hreach _ _ (proj1 Hmap)) as (s0 & cs0 & Hmap0 & Hgood).
  by destruct (is_map_inj _ _ _ _ _ _ _ _ Hmap Hmap0) as (_ & <- & <-).
Qed.

Lemma cmp_refl (cmp : K → K → Z) ck a : lawful cmp ck → cmp a a = 0%Z.
Proof. intros H. pose proof (cmp_antisym _ _ H a a). lia. Qed.

Lemma cmp_eq_trans (cmp : K → K → Z) ck a b c :
  lawful cmp ck → cmp a b = 0%Z → cmp b c = 0%Z → cmp a c = 0%Z.
Proof.
  intros H Hab Hbc.
  pose proof (cmp_trans _ _ H a b c). pose proof (cmp_trans _ _ H c b a).
  pose proof (cmp_antisym _ _ H a b). pose proof (cmp_antisym _ _ H b c).
  pose proof (cmp_antisym _ _ H a c). lia.
Qed.

Lemma hit_find cmp k cs :
  hit cmp k cs = match find_cell cmp k cs with Some _ => true | None => false end.
Proof.
  unfold hit, find_cell. destruct (from cmp k cs); [done|]. by destruct (_ =? _)%Z.
Qed.

Lemma find_cell_Some cmp ck k cs c :
  lawful cmp ck →
  StronglySorted (key_lt cmp) (keys cs) →
  find_cell cmp k cs = Some c ↔ c ∈ cs ∧ cmp k (ckey c) = 0%Z.
Proof.
  intros Hlaw Hs. split.
  - unfold find_cell. destruct (from cmp k cs) as [|c' cs2] eqn:Hfrom; [done|].
    destruct (_ =? _)%Z eqn:E; [|done]. intros [= ->]. apply Z.eqb_eq in E.
    split; [|done]. rewrite <- (before_from cmp k cs), Hfrom.
    apply elem_of_app. right. apply list_elem_of_here.
  - intros [Hin Hc]. destruct (from_unique _ _ _ _ _ Hlaw Hs Hin Hc) as (cs2 & Hfrom).
    unfold find_cell. by rewrite Hfrom, Hc.
Qed.

Lemma find_cell_None cmp ck k cs :
  lawful cmp ck →
  StronglySorted (key_lt cmp) (keys cs) →
  find_cell cmp k cs = None ↔ ∀ c, c ∈ cs → cmp k (ckey c) ≠ 0%Z.
Proof.
  intros Hlaw Hs. rewrite <- (hit_not _ _ _ _ Hlaw Hs), hit_find.
  by destruct (find_cell cmp k cs).
Qed.

(** Two sorted chains that differ only in nodes whose key compares equal to
    [k] give the same node for every other key. *)
Lemma find_cell_frame cmp ck k k' cs cs' :
  lawful cmp ck →
  StronglySorted (key_lt cmp) (keys cs) →
  StronglySorted (key_lt cmp) (keys cs') →
  cmp k' k ≠ 0%Z →
  (∀ c, c ∈ cs → cmp k (ckey c) ≠ 0%Z → c ∈ cs') →
  (∀ c, c ∈ cs' → cmp k (ckey c) ≠ 0%Z → c ∈ cs) →
  find_cell cmp k' cs' = find_cell cmp k' cs.
Proof.
  intros Hlaw Hs Hs' Hne H1 H2.
  assert (∀ c : @cell K V, cmp k' (ckey c) = 0%Z → cmp k (ckey c) ≠ 0%Z) as Hk.
  { intros c Hc Hkc. apply Hne. eapply cmp_eq_trans; [done|exact Hc|].
    by apply (cmp_flip_eq _ _ Hlaw). }
  destruct (find_cell cmp k' cs) as [c|] eqn:E.
  - apply (find_cell_Some _ _ _ _ _ Hlaw Hs) in E as [Hin Hc].
    apply (find_cell_Some _ _ _ _ _ Hlaw Hs'). split; [|done]. apply H1; auto.
  - rewrite (find_cell_None _ _ _ _ Hlaw Hs) in E.
    apply (find_cell_None _ _ _ _ Hlaw Hs'). intros c Hin Hc.
    apply (E c); [|done]. apply H2; auto.
Qed.

Lemma mapGet_eq w m r s cs k :
  is_map w m r s cs →
  mapGet (Some m) (Some k) w =
  Done (match find_cell (compare_keys r) k cs with
        | Some c => of_option (cdata c)
        | None => Null
        end) w.
Proof.
  intros Hmap. unfold find_cell.
  destruct (hit (compare_keys r) k cs) eqn:Hhit.
  - destruct (hit_true _ _ _ Hhit) as (c & cs2 & Hfrom & Hc).
    rewrite Hfrom, Hc, Z.eqb_refl. by apply (mapGet_found w m r s cs k c cs2).
  - rewrite (mapGet_absent _ _ _ _ _ _ Hmap Hhit). unfold hit in Hhit.
    destruct (from _ _ _) as [|c ?]; [done|]. by rewrite Hhit.
Qed.

(** The chain after a Put that returned: the nodes whose key does not compare
    equal to the key put are the same before and after. *)
Lemma mapPut_cells w m r s cs k v x w' :
  wf w →
  is_map w m r s cs →
  mapPut (Some m) (Some k) (Some v) w = Done x w' →
  ∃ r' cs', is_map w' m r' s cs' ∧ same_caps r r' ∧
    (∀ c, c ∈ cs → compare_keys r k (ckey c) ≠ 0%Z → c ∈ cs') ∧
    (∀ c, c ∈ cs' → compare_keys r k (ckey c) ≠ 0%Z → c ∈ cs).
Proof.
  intros Hwf Hmap H.
  destruct (hit (compare_keys r) k cs) eqn:Hhit.
  - destruct (hit_true _ _ _ Hhit) as (c & cs2 & Hfrom & Hcmp).
    destruct (mapPut_found _ _ _ _ _ _ v _ _ Hmap Hfrom Hcmp) as (nx & Hc & Heq).
    rewrite Heq in H. injection H as <- <-.
    pose proof (before_from (compare_keys r) k cs) as Hcs. rewrite Hfrom in Hcs.
    exists (if next_ok (oracle w) then with_iterator None r else r),
      (before (compare_keys r) k cs ++
       (cloc c, ckey c, new_data (next_ok (oracle w)) (copy_data r) v) :: cs2).
    split; [|split; [|split]].
    + eapply (is_map_set_data w _ m r); [by rewrite Hcs|done|done| |].
      * tidy. destruct (next_ok (oracle w)); [apply lookup_insert_eq|apply Hmap].
      * by destruct (next_ok (oracle w)).
    + by destruct (next_ok (oracle w)).
    + intros c0 Hin Hne. rewrite <- Hcs in Hin. revert Hin.
      rewrite !elem_of_app, !elem_of_cons.
      intros [?|[->|?]]; [by left|done|by right; right].
    + intros c0 Hin Hne. rewrite <- Hcs. revert Hin.
      rewrite !elem_of_app, !elem_of_cons.
      intros [?|[->|?]]; [by left| |by right; right].
      exfalso. apply Hne. exact Hcmp.
  - destruct (mapPut_absent _ _ _ _ _ _ v Hmap Hhit (wf_fresh _ Hwf))
      as (pd & pk & Hprev & Heq).
    rewrite Heq in H. clear Heq.
    destruct (next_ok (oracle w)).
    2:{ injection H as <- <-. exists r, cs. split; [by apply (is_map_same w)|].
        split; [apply same_caps_refl|done]. }
    destruct (_ && _).
    2:{ injection H as <- <-. exists r, cs. split; [by apply (is_map_same w)|].
        split; [apply same_caps_refl|done]. }
    destruct (_ && _); [|done]. injection H as <- <-.
    exists (with_iterator None (with_size (size r + 1) r)),
      (before (compare_keys r) k cs ++
       (brk w, copy_key r k, Some (copy_data r v)) :: from (compare_keys r) k cs).
    split; [|split; [done|split]].
    + eapply (is_map_link w _ m r _ s cs k (brk w, copy_key r k, Some (copy_data r v)));
        try done; tidy.
      * apply (wf_fresh _ Hwf).
      * apply lookup_insert_eq.
    + intros c0 Hin _. rewrite <- (before_from (compare_keys r) k cs) in Hin.
      revert Hin. rewrite !elem_of_app, !elem_of_cons.
      intros [?|?]; [by left|by right; right].
    + intros c0 Hin Hne. rewrite <- (before_from (compare_keys r) k cs).
      revert Hin. rewrite !elem_of_app, !elem_of_cons.
      intros [?|[->|?]]; [by left| |by right].
      exfalso. apply Hne. unfold ckey. simpl.
      destruct (wf_maps _ Hwf _ _ (proj1 Hmap)) as (s0 & cs0 & _ & _ & _ & _ & Hlaw).
      apply (cmp_copy_r _ _ Hlaw).
Qed.

(** ** The node the search stops at *)

Lemma prev_of_last cmp k cs : ∀ cur,
  prev_of cmp k cur cs = default cur (last (locs (before cmp k cs))).
Proof.
  induction cs as [|c cs IH]; intros cur; simpl; [done|].
  destruct (0 <? cmp k (ckey c))%Z; [|done].
  rewrite IH, locs_cons, last_cons. by destruct (last _).
Qed.

Lemma from_below cmp ck k cs c :
  lawful cmp ck →
  StronglySorted (key_lt cmp) (keys cs) →
  c ∈ from cmp k cs → (cmp k (ckey c) ≤ 0)%Z.
Proof.
  intros Hlaw Hs Hin.
  rewrite <- (before_from cmp k cs), keys_app in Hs.
  apply StronglySorted_app_1_r in Hs.
  destruct (from cmp k cs) as [|c0 rest] eqn:Hfrom; [by apply elem_of_nil in Hin|].
  pose proof (from_head _ _ _ _ _ Hfrom) as H0.
  apply elem_of_cons in Hin as [->|Hin]; [done|].
  rewrite keys_cons in Hs. apply StronglySorted_cons in Hs as [Hall _].
  rewrite Forall_forall in Hall.
  assert (key_lt cmp (ckey c0) (ckey c)) as Hlt.
  { apply Hall. unfold keys. by apply list_elem_of_fmap_2. }
  assert (cmp k (ckey c) < 0)%Z; [|lia].
  by eapply (cmp_le_lt_trans _ _ Hlaw _ (ckey c0)).
Qed.

(** ** The iterator after mapClear, and mapDestroy *)

Lemma mapGetNext_dangling w m r l :
  maps w !! m = Some (Some r) →
  iterator r = Some l →
  nodes w !! l = None →
  mapGetNext (Some m) w = Fault.
Proof.
  intros Hm Hit Hl. unfold mapGetNext. step (load_map_eq _ _ _ Hm). rewrite Hit.
  rewrite bind_unfold. unfold node_next. rewrite bind_unfold. unfold load_node.
  by rewrite Hl.
Qed.

Lemma mapClear_keeps w map x w' :
  wf w → mapClear map w = Done x w' → wf w' ∧ others_kept map w w'.
Proof.
  intros Hwf H. destruct map as [m|];
    [|injection H as <- <-; split; [done|by apply others_kept_same]].
  destruct (maps w !! m) as [[r|]|] eqn:Hm;
    [|unfold mapClear in H; rewrite bind_unfold, load_map_fault in H;
      [done|congruence]..].
  destruct (wf_maps _ Hwf _ _ Hm) as (s & cs & Hmap & (Hs & Hsz & Hmax & Hlaw)).
  destruct (mapClear_eq _ _ _ _ _ Hmap) as (sd & sk & nx & Hsn & Heq).
  rewrite Heq in H. injection H as <- <-.
  eapply (wf_update w _ m r s cs (with_size 0 r) []); try done; tidy.
  - intros l [<-|[Hl _]%lookup_delete_all_is_Some]%lookup_insert_is_Some'; left;
      [by eexists|done].
  - intros l n Hl Hni. apply not_elem_of_cons in Hni as [Hne Hni].
    by rewrite lookup_insert_ne, lookup_delete_all_ne.
  - intros m' Hne. by rewrite lookup_insert_ne.
  - destruct Hmap as (_ & Hf & _ & Hnd). split; [apply lookup_insert_eq|].
    split; [done|]. split.
    + exists sd, sk, None. split; [apply lookup_insert_eq|done].
    + apply NoDup_singleton.
  - split; [constructor|]. by split.
  - intros l Hl. by apply elem_of_nil in Hl.
Qed.

Lemma mapDestroy_eq w m r s cs :
  is_map w m r s cs →
  mapDestroy (Some m) w =
  Done tt
    (World (delete s (delete_all (locs cs) (nodes w))) (delete m (maps w))
           (brk w) (oracle w) (trace w ++ free_events cs)).
Proof.
  intros Hmap. destruct (mapClear_eq _ _ _ _ _ Hmap) as (sd & sk & nx & Hsn & Heq).
  pose proof Hmap as (Hm & Hf & _ & _).
  unfold mapDestroy. rewrite bind_unfold, Heq. tidy.
  estep load_map_eq. cbn [first with_size]. rewrite Hf.
  estep free_node_eq. erewrite free_map_eq by side. tidy.
  by rewrite delete_insert_eq, delete_insert_eq.
Qed.

(** ** Calls on one map and the other maps *)

Lemma mapGetFirst_keeps w map x w' :
  mapGetFirst map w = Done x w' → others_kept map w w'.
Proof.
  intros H. destruct map as [m|];
    [|injection H as <- <-; by apply others_kept_same].
  unfold mapGetFirst in H.
  apply bind_inv in H as (r & w1 & [Hm ->]%load_map_inv & H).
  apply bind_inv in H as (s & w1 & [Hs ->]%nonnull_inv & H).
  apply bind_inv in H as (nx & w1 & (d & k & Hn & ->)%node_next_inv & H).
  destruct nx as [n|]; [|injection H as <- <-; by apply others_kept_same].
  apply bind_inv in H as (u & w1 & (r' & Hm' & ->)%set_iterator_inv & H).
  apply node_key_inv in H as (n' & _ & _ & ->).
  intros m2 r2 s2 cs2 Hne Hmap2. eapply is_map_frame; [|by tidy|done].
  tidy. rewrite lookup_insert_ne by congruence. apply Hmap2.
Qed.

Lemma mapGetNext_keeps w map x w' :
  mapGetNext map w = Done x w' → others_kept map w w'.
Proof.
  intros H. destruct map as [m|];
    [|injection H as <- <-; by apply others_kept_same].
  unfold mapGetNext in H.
  apply bind_inv in H as (r & w1 & [Hm ->]%load_map_inv & H).
  destruct (iterator r) as [it|]; [|injection H as <- <-; by apply others_kept_same].
  apply bind_inv in H as (nx & w1 & (d & k & Hn & ->)%node_next_inv & H).
  destruct nx as [n|]; [|injection H as <- <-; by apply others_kept_same].
  apply bind_inv in H as (u & w1 & (r' & Hm' & ->)%set_iterator_inv & H).
  apply node_key_inv in H as (n' & _ & _ & ->).
  intros m2 r2 s2 cs2 Hne Hmap2. eapply is_map_frame; [|by tidy|done].
  tidy. rewrite lookup_insert_ne by congruence. apply Hmap2.
Qed.

Lemma mapDestroy_keeps w map x w' :
  wf w → mapDestroy map w = Done x w' → others_kept map w w'.
Proof.
  intros Hwf H. destruct map as [m|];
    [|injection H as <- <-; by apply others_kept_same].
  destruct (maps w !! m) as [[r|]|] eqn:Hm;
    [|unfold mapDestroy, mapClear in H; rewrite !bind_unfold, load_map_fault in H;
      [done|congruence]..].
  destruct (wf_maps _ Hwf _ _ Hm) as (s & cs & Hmap & _).
  rewrite (mapDestroy_eq _ _ _ _ _ Hmap) in H. injection H as <- <-.
  intros m2 r2 s2 cs2 Hne Hmap2.
  assert (m ≠ m2) as Hne' by congruence.
  eapply is_map_frame; [| |done]; tidy.
  - rewrite lookup_delete_ne by done. apply Hmap2.
  - intros l Hl.
    assert (l ∉ fp s cs) as Hni
      by (intros Hin; exact (wf_sep _ Hwf _ _ _ _ _ _ _ _ l Hne' Hmap Hmap2 Hin Hl)).
    apply not_elem_of_cons in Hni as [Hls Hni].
    by rewrite lookup_delete_ne, lookup_delete_all_ne.
Qed.

(** [mapCopy] writes fresh memory only, apart from the iterator of the
    source. *)
Lemma mapCopy_frame w m r s cs :
  wf w →
  is_map w m r s cs →
  good r cs →
  ensures (mapCopy (Some m) w) (λ res w',
    (∀ l, (l < brk w)%positive → nodes w' !! l = nodes w !! l) ∧
    (∀ m', m' ≠ m → (m' < brk w)%positive → maps w' !! m' = maps w !! m') ∧
    maps w' !! m =
      Some (Some (match res with Some _ => with_iterator None r | None => r end))).
Proof.
  intros Hwf Hmap Hgood. pose proof Hmap as (Hm & Hf & _ & Hnd).
  assert (brk w ≠ m) as Hne.
  { intros <-. rewrite (wf_fresh_map _ Hwf) in Hm. done. }
  unfold mapCopy. step (load_map_eq _ _ _ Hm).
  rewrite bind_unfold, (mapCreate_eq _ _ _ _ _ _ (wf_fresh_map _ Hwf)).
  destruct (next_ok (oracle w)); [|by tidy; rewrite ret_eq].
  destruct (next_ok (tail (oracle w))); [|by tidy; rewrite ret_eq].
  tidy.
  estep load_map_eq. estep set_size_eq. rewrite insert_insert_eq.
  estep load_map_eq.
  assert (Hsc_new : nodes w !! (Pos.succ (brk w)) = None).
  { destruct (nodes w !! (Pos.succ (brk w))) eqn:E; [|done].
    pose proof (wf_nodes _ Hwf _ (mk_is_Some _ _ E)). lia. }
  assert (Hold : ∀ l, l ∈ fp s cs → (l < brk w)%positive).
  { intros l Hl. apply (wf_nodes _ Hwf). by eapply is_map_lookup. }
  pose proof Hgood as (Hsorted & Hsz & Hmax & Hlaw).
  destruct (size r =? 0)%Z eqn:Hz.
  - rewrite bind_unfold, ret_eq. tidy. cbn [MapResult_eqb].
    estep set_iterator_eq. estep set_iterator_eq. rewrite ret_eq. simpl.
    split; [|split].
    + intros l Hl. apply lookup_insert_ne. lia.
    + intros m' H1 H2. rewrite lookup_insert_ne by lia.
      rewrite lookup_insert_ne by congruence. apply lookup_insert_ne. lia.
    + by rewrite lookup_insert_ne, lookup_insert_eq.
  - apply Z.eqb_neq in Hz. apply ensures_bind.
    eapply ensures_mono.
    { apply (copyList_spec (brk w) m (brk w) r s cs
               (MapRec (Some (Pos.succ (brk w))) (size r) (Some (Pos.succ (brk w))) (copy_data r) (copy_key r)
                       (free_data r) (free_key r) (compare_keys r)) (Pos.succ (brk w)));
        tidy; try done.
      - eapply is_map_frame; [| |done]; tidy.
        + by rewrite lookup_insert_ne.
        + intros l Hl. apply lookup_insert_ne. intros <-.
          destruct (is_map_lookup _ _ _ _ _ _ Hmap Hl). congruence.
      - apply lookup_insert_eq.
      - apply lookup_insert_eq.
      - intros l [<-|Hl]%lookup_insert_is_Some'; [lia|].
        pose proof (wf_nodes _ Hwf _ Hl). lia.
      - lia.
      - intros l d k t Hl [[<- [=]]|[_ H]]%lookup_insert_Some.
        pose proof (wf_nodes _ Hwf _ (mk_is_Some _ _ H)). lia. }
    tidy. intros e w3 (Hm3 & Hb3 & Hfr3 & Hfresh3 & Hcl3 & Hres).
    destruct (MapResult_eqb e MAP_SUCCESS) eqn:He.
    + rewrite bind_unfold. erewrite set_iterator_eq
        by (rewrite Hm3; rewrite lookup_insert_ne by done; exact Hm). tidy.
      rewrite bind_unfold. erewrite set_iterator_eq
        by (tidy; rewrite lookup_insert_ne by done; rewrite Hm3; apply lookup_insert_eq).
      tidy. rewrite ret_eq. simpl. split; [|split].
      * intros l Hl. rewrite Hfr3 by done. apply lookup_insert_ne. lia.
      * intros m' H1 H2. rewrite lookup_insert_ne by lia.
        rewrite lookup_insert_ne by congruence. rewrite Hm3. apply lookup_insert_ne. lia.
      * by rewrite lookup_insert_ne, lookup_insert_eq.
    + apply ensures_bind. eapply ensures_mono.
      { apply (mapDestroy_frees (brk w) (brk w) w3); [done|].
        intros rc. rewrite Hm3, lookup_insert_eq. intros [= <-].
        exists (Pos.succ (brk w)). split; [done|]. lia. }
      tidy. intros ? w4 (Hother4 & Hmc4 & Hb4 & Hfr4 & Hdom4). rewrite ret_eq. simpl.
      split; [|split].
      * intros l Hl. rewrite Hfr4, Hfr3 by done. apply lookup_insert_ne. lia.
      * intros m' H1 H2. rewrite Hother4, Hm3, lookup_insert_ne; [done|lia|lia].
      * by rewrite Hother4, Hm3, lookup_insert_ne.
Qed.

Lemma mapCopy_keeps w map x w' :
  wf w → mapCopy map w = Done x w' → others_kept map w w'.
Proof.
  intros Hwf H. destruct map as [m|];
    [|injection H as <- <-; by apply others_kept_same].
  destruct (maps w !! m) as [[r|]|] eqn:Hm;
    [|unfold mapCopy in H; rewrite bind_unfold, load_map_fault in H;
      [done|congruence]..].
  destruct (wf_maps _ Hwf _ _ Hm) as (s & cs & Hmap & Hgood).
  destruct (ensures_inv _ _ _ _ (mapCopy_frame _ _ _ _ _ Hwf Hmap Hgood) H)
    as (Hfr & Hother & _).
  intros m2 r2 s2 cs2 Hne Hmap2. eapply is_map_frame; [| |done].
  - rewrite Hother; [apply Hmap2|congruence|].
    apply (wf_cells _ Hwf). rewrite (proj1 Hmap2). by eexists.
  - intros l Hl. apply Hfr, (wf_nodes _ Hwf). by eapply is_map_lookup.
Qed.

(** ** A copy whose allocations succeed *)

Lemma drop_S_tail {A} n (l : list A) : drop (S n) l = drop n (tail l).
Proof. destruct l; simpl; [by rewrite drop_nil|done]. Qed.

Lemma allocs_ok_add a b : ∀ o,
  allocs_ok (a + b) o = allocs_ok a o && allocs_ok b (drop a o).
Proof.
  induction a as [|a IH]; intros o; simpl; [done|].
  by rewrite IH, drop_S_tail, andb_assoc.
Qed.

Lemma createNewList_loop_returns : ∀ fuel h w,
  allocs_ok fuel (oracle w) = true →
  ∃ res w', createNewList_loop fuel (Z.of_nat fuel) h w = Done res w' ∧
            oracle w' = drop fuel (oracle w) ∧
            (is_Some h ∨ fuel ≠ 0 → is_Some res).
Proof.
  induction fuel as [|fuel IH]; intros h w Hok.
  - exists h, w. split; [done|]. split; [done|]. by intros [?|?].
  - cbn [createNewList_loop].
    replace (Z.of_nat (S fuel) =? 0)%Z with false by (symmetry; apply Z.eqb_neq; lia).
    replace (Z.of_nat (S fuel) - 1)%Z with (Z.of_nat fuel) by lia.
    cbn [allocs_ok] in Hok. apply andb_true_iff in Hok as [H1 H2].
    rewrite bind_unfold, malloc_node_eq, H1. tidy.
    estep set_node_next_eq.
    match goal with
    | |- context [createNewList_loop fuel _ _ ?W] =>
        destruct (IH (Some (brk w)) W H2) as (res & w' & Heq & Ho & Hres)
    end.
    exists res, w'. split; [done|]. split; [by rewrite drop_S_tail|].
    intros _. apply Hres. left. by eexists.
Qed.

Lemma copyList_loop_ok b0 m r head : ∀ scs fuel ls newcur srccur w,
  maps w !! m = Some (Some r) →
  seg (nodes w) srccur scs None →
  (∀ l, l ∈ locs scs → (l < b0)%positive) →
  rawseg (nodes w) newcur ls None →
  (∀ l, l ∈ ls → (b0 ≤ l)%positive) →
  NoDup ls →
  length ls = length scs →
  length scs < fuel →
  Forall (λ c, is_Some (cdata c)) scs →
  allocs_ok (2 * length scs) (oracle w) = true →
  ∃ w', copyList_loop fuel m head newcur srccur w = Done None w' ∧
        trace w' = trace w ++ copy_events scs.
Proof.
  induction scs as [|c scs IH];
    intros fuel ls newcur srccur w Hm Hseg Hold Hraw Hnew Hnd Hlen Hfuel Hall Hok.
  - simpl in Hseg. subst srccur. exists w.
    split; [by destruct fuel|]. simpl. by rewrite app_nil_r.
  - destruct ls as [|l0 ls]; [done|]. destruct fuel as [|fuel]; [simpl in Hfuel; lia|].
    destruct Hseg as [-> (nxs & Hc & Hseg)]. destruct Hraw as [-> (nxn & Hl0 & Hraw)].
    apply NoDup_cons in Hnd as [Hl0_ni Hnd].
    apply Forall_cons in Hall as [[v Hv] Hall].
    replace (2 * length (c :: scs)) with (S (S (2 * length scs))) in Hok
      by (simpl; lia).
    cbn [allocs_ok] in Hok.
    apply andb_true_iff in Hok as [H1 Hok]. apply andb_true_iff in Hok as [H2 Hok].
    assert (l0 ≠ cloc c) as Hne.
    { intros E. specialize (Hold (cloc c) (list_elem_of_here _ _)).
      specialize (Hnew l0 (list_elem_of_here _ _)). lia. }
    cbn [copyList_loop].
    step (load_map_eq _ _ _ Hm). step nonnull_eq.
    step (node_data_eq _ _ _ Hc). unfold node_of at 1. tidy.
    rewrite Hv. cbn [of_option]. step call_copy_data_eq. estep set_node_data_eq.
    estep node_key_eq. unfold node_of at 1. tidy.
    step call_copy_key_eq. estep set_node_key_eq. rewrite insert_insert_eq.
    estep node_data_eq. estep node_key_eq.
    step is_null_eq. step is_null_eq.
    rewrite H1, H2. cbn [new_data new_key].
    rewrite !bool_decide_eq_false_2 by done. cbn [orb].
    set (ns3 := <[l0 := _]> (nodes w)).
    rewrite bind_unfold. erewrite (node_next_eq _ _ _ _ nxs)
      by (tidy; unfold ns3; rewrite lookup_insert_ne by done; exact Hc). tidy.
    rewrite bind_unfold. erewrite (node_next_eq _ _ _ _ nxn)
      by (tidy; unfold ns3; apply lookup_insert_eq). tidy.
    match goal with
    | |- context [copyList_loop fuel _ _ _ _ ?W] =>
        destruct (IH fuel ls nxn nxs W) as (w' & Heq & Htr)
    end; tidy; try done.
    + eapply seg_frame; [|done]. intros l Hl. apply lookup_insert_ne.
      intros <-. specialize (Hold l0). specialize (Hnew l0 (list_elem_of_here _ _)).
      rewrite locs_cons in Hold. specialize (Hold (list_elem_of_further _ _ _ Hl)). lia.
    + intros l Hl. apply Hold. rewrite locs_cons. by right.
    + eapply rawseg_frame; [|done]. intros l Hl. apply lookup_insert_ne. by intros <-.
    + intros l Hl. apply Hnew. by right.
    + simpl in Hlen. lia.
    + simpl in Hfuel. lia.
    + exists w'. split; [done|]. rewrite Htr. tidy.
      unfold copy_events. cbn [flat_map]. rewrite Hv. by rewrite <- !app_assoc.
Qed.

Lemma copyList_ok m mc r s cs rc sc w :
  is_map w m r s cs →
  size r = Z.of_nat (length cs) →
  cs ≠ [] →
  maps w !! mc = Some (Some rc) →
  first rc = Some sc →
  nodes w !! sc = Some (Node Null Null Null) →
  (∀ l, is_Some (nodes w !! l) → (l < brk w)%positive) →
  Forall (λ c, is_Some (cdata c)) cs →
  allocs_ok (3 * length cs) (oracle w) = true →
  ∃ w', copyList (Some m) (Some mc) w = Done MAP_SUCCESS w' ∧
        trace w' = trace w ++ copy_events cs.
Proof.
  intros Hmap Hsz Hcs Hmc Hfc Hsc Hfresh Hall Hok.
  pose proof Hmap as (Hm & Hf & (sd & sk & nx & Hs & Hseg) & Hnd).
  assert (Hold : ∀ l, l ∈ fp s cs → (l < brk w)%positive).
  { intros l Hl. apply Hfresh. by eapply is_map_lookup. }
  assert (closed (brk w) (nodes w)) as Hcl.
  { intros l d k t Hl Hn. pose proof (Hfresh _ (mk_is_Some _ _ Hn)). lia. }
  replace (3 * length cs) with (length cs + 2 * length cs) in Hok by lia.
  rewrite allocs_ok_add in Hok. apply andb_true_iff in Hok as [Hok1 Hok2].
  destruct (createNewList_loop_returns (length cs) None w Hok1)
    as (res & w1 & Heq1 & Ho1 & Hres).
  destruct Hres as [hd ->]; [right; by destruct cs|].
  destruct (ensures_inv _ _ _ _
              (createNewList_loop_spec (brk w) (length cs) None [] w
                 eq_refl (NoDup_nil_2) (λ l H, False_rect _ (not_elem_of_nil l H))
                 Hfresh (Pos.le_refl _) Hcl) Heq1)
    as (Hm1 & Hb1 & Ht1 & Hfr1 & Hfresh1 & Hcl1 & new & Hraw1 & Hnd1 & Hnew1 & Hlen1 & Hout1).
  rewrite app_nil_r in Hraw1, Hnd1.
  assert (is_map w1 m r s cs) as Hmap1.
  { eapply is_map_frame; [| |done].
    - by rewrite Hm1.
    - intros l Hl. apply Hfr1. by apply Hold. }
  assert (seg (nodes w1) nx cs None) as Hseg1.
  { eapply seg_frame; [|done]. intros l Hl. apply Hfr1, Hold. by right. }
  assert (length cs < S (base.size (nodes w1))) as Hfuel
    by (pose proof (is_map_fuel _ _ _ _ _ Hmap1); lia).
  rewrite <- Ho1 in Hok2.
  destruct (copyList_loop_ok (brk w) m r (Some hd) cs (S (base.size (nodes w1)))
              new (Some hd) nx w1) as (w2 & Heq2 & Ht2); try done.
  { by rewrite Hm1. }
  { intros l Hl. apply Hold. by right. }
  { intros l Hl. by apply Hnew1. }
  pose proof (copyList_loop_spec (brk w) m r (Some hd) cs (S (base.size (nodes w1)))
                new (Some hd) nx w1) as Hspec.
  rewrite Heq2 in Hspec. cbn [ensures] in Hspec.
  destruct Hspec as (Hm2 & Hb2 & Hfr2 & Hdom2 & Hcl2 & Hout2 & Hseg2 & _); try done.
  { by rewrite Hm1. }
  { intros l Hl. apply Hold. by right. }
  { intros l Hl. by apply Hnew1. }
  { intros l [= <-]. destruct new as [|l0 new']; simpl in Hraw1; [done|].
    destruct Hraw1 as [[= ->] _]. apply Hnew1. apply list_elem_of_here. }
  assert (nodes w2 !! sc = Some (Node Null Null Null)) as Hsc2.
  { pose proof (Hfresh _ (mk_is_Some _ _ Hsc)) as Hlt.
    rewrite Hfr2, Hfr1 by done. done. }
  exists (set_nodes (insert sc (Node Null Null (At hd))) w2). split.
  - unfold copyList. step (load_map_eq _ _ _ Hm).
    unfold createNewList. rewrite Hsz, Nat2Z.id.
    rewrite bind_unfold, Heq1. tidy.
    rewrite Hf. step nonnull_eq.
    rewrite bind_unfold.
    erewrite (node_next_eq _ _ _ _ nx) by (rewrite Hfr1 by (apply Hold; by left); exact Hs).
    tidy. rewrite bind_unfold. unfold copyList_walk. rewrite Heq2. tidy.
    rewrite bind_unfold. erewrite load_map_eq by (rewrite Hm2, Hm1; exact Hmc). tidy.
    rewrite Hfc. step nonnull_eq.
    rewrite bind_unfold, (set_node_next_eq _ _ _ (Some hd) Hsc2). tidy.
    by rewrite ret_eq.
  - simpl. by rewrite Ht2, Ht1.
Qed.

Lemma mapCopy_ok w m r s cs :
  wf w →
  is_map w m r s cs →
  good r cs →
  Forall (λ c, is_Some (cdata c)) cs →
  allocs_ok (2 + 3 * length cs) (oracle w) = true →
  ∃ w', mapCopy (Some m) w = Done (Some (brk w)) w' ∧
        trace w' = trace w ++ copy_events cs.
Proof.
  intros Hwf Hmap Hgood Hall Hok. pose proof Hmap as (Hm & Hf & _ & Hnd).
  assert (brk w ≠ m) as Hne.
  { intros <-. rewrite (wf_fresh_map _ Hwf) in Hm. done. }
  replace (2 + 3 * length cs) with (S (S (3 * length cs))) in Hok by lia.
  cbn [allocs_ok] in Hok.
  apply andb_true_iff in Hok as [H1 Hok]. apply andb_true_iff in Hok as [H2 Hok].
  unfold mapCopy. step (load_map_eq _ _ _ Hm).
  rewrite bind_unfold, (mapCreate_eq _ _ _ _ _ _ (wf_fresh_map _ Hwf)), H1, H2.
  tidy.
  estep load_map_eq. estep set_size_eq. rewrite insert_insert_eq.
  estep load_map_eq.
  assert (Hsc_new : nodes w !! (Pos.succ (brk w)) = None).
  { destruct (nodes w !! (Pos.succ (brk w))) eqn:E; [|done].
    pose proof (wf_nodes _ Hwf _ (mk_is_Some _ _ E)). lia. }
  pose proof Hgood as (Hsorted & Hsz & Hmax & Hlaw).
  destruct (size r =? 0)%Z eqn:Hz.
  - apply Z.eqb_eq in Hz. rewrite Hz in Hsz.
    destruct cs as [|c cs]; [|simpl in Hsz; lia].
    rewrite bind_unfold, ret_eq. tidy. cbn [MapResult_eqb].
    estep set_iterator_eq. estep set_iterator_eq. rewrite ret_eq.
    eexists. split; [done|]. simpl. by rewrite app_nil_r.
  - apply Z.eqb_neq in Hz.
    assert (cs ≠ []) as Hcs by (intros ->; simpl in Hsz; lia).
    rewrite bind_unfold.
    match goal with
    | |- context [copyList (Some m) (Some (brk w)) ?W] => set (w0 := W)
    end.
    assert (is_map w0 m r s cs) as Hmap0.
    { eapply is_map_frame; [| |done]; unfold w0; tidy.
      - by rewrite lookup_insert_ne.
      - intros l Hl. apply lookup_insert_ne. intros <-.
        destruct (is_map_lookup _ _ _ _ _ _ Hmap Hl). congruence. }
    assert (∀ l, is_Some (nodes w0 !! l) → (l < brk w0)%positive) as Hfresh0.
    { unfold w0. tidy. intros l [<-|Hl]%lookup_insert_is_Some'; [lia|].
      pose proof (wf_nodes _ Hwf _ Hl). lia. }
    destruct (copyList_ok m (brk w) r s cs
                (MapRec (Some (Pos.succ (brk w))) (size r) (Some (Pos.succ (brk w)))
                        (copy_data r) (copy_key r) (free_data r) (free_key r)
                        (compare_keys r))
                (Pos.succ (brk w)) w0) as (w3 & Heq3 & Ht3); try done.
    { unfold w0. tidy. apply lookup_insert_eq. }
    { unfold w0. tidy. apply lookup_insert_eq. }
    pose proof (copyList_spec (brk w) m (brk w) r s cs
                  (MapRec (Some (Pos.succ (brk w))) (size r) (Some (Pos.succ (brk w)))
                          (copy_data r) (copy_key r) (free_data r) (free_key r)
                          (compare_keys r))
                  (Pos.succ (brk w)) w0) as Hspec.
    rewrite Heq3 in Hspec. cbn [ensures] in Hspec.
    destruct Hspec as (Hm3 & _); try done.
    { intros l Hl. apply (wf_nodes _ Hwf). by eapply is_map_lookup. }
    { unfold w0. tidy. apply lookup_insert_eq. }
    { unfold w0. tidy. apply lookup_insert_eq. }
    { lia. }
    { unfold w0. tidy. intros l d k t Hl [[<- [=]]|[_ H]]%lookup_insert_Some.
      pose proof (wf_nodes _ Hwf _ (mk_is_Some _ _ H)). lia. }
    rewrite Heq3. tidy. cbn [MapResult_eqb].
    rewrite bind_unfold. erewrite set_iterator_eq
      by (rewrite Hm3; unfold w0; tidy; rewrite lookup_insert_ne by done; exact Hm).
    tidy.
    rewrite bind_unfold. erewrite set_iterator_eq
      by (tidy; rewrite lookup_insert_ne by done; rewrite Hm3; unfold w0; tidy;
          apply lookup_insert_eq).
    tidy. rewrite ret_eq. eexists. split; [done|]. simpl. by rewrite Ht3.
Qed.

(** ** A copy whose allocations fail *)

Lemma mapCopy_create_fails w m r :
  wf w →
  maps w !! m = Some (Some r) →
  allocs_ok 2 (oracle w) = false →
  ∃ w', mapCopy (Some m) w = Done None w' ∧
        nodes w' = nodes w ∧ maps w' = maps w ∧ trace w' = trace w.
Proof.
  intros Hwf Hm Hfail. unfold mapCopy. step (load_map_eq _ _ _ Hm).
  rewrite bind_unfold, (mapCreate_eq _ _ _ _ _ _ (wf_fresh_map _ Hwf)).
  cbn [allocs_ok] in Hfail. rewrite andb_true_r in Hfail.
  destruct (next_ok (oracle w)); [|tidy; rewrite ret_eq; by eexists].
  destruct (next_ok (tail (oracle w))); [done|tidy; rewrite ret_eq; by eexists].
Qed.

(** When an allocation of [createNewList] fails after [j] nodes, the node
    allocated last is freed and the others stay. *)
Lemma createNewList_loop_fails : ∀ j fuel h w,
  j < fuel →
  allocs_ok j (oracle w) = true →
  next_ok (drop j (oracle w)) = false →
  (∀ l, is_Some (nodes w !! l) → (l < brk w)%positive) →
  (∀ l, h = Some l → is_Some (nodes w !! l)) →
  ∃ w', createNewList_loop fuel (Z.of_nat fuel) h w = Done None w' ∧
    maps w' = maps w ∧ trace w' = trace w ∧
    (Z.pos (brk w') = Z.pos (brk w) + Z.of_nat j)%Z ∧
    (∀ l, (l < brk w)%positive → h ≠ Some l ∨ j ≠ 0 → nodes w' !! l = nodes w !! l) ∧
    (j = 0 → ∀ l, h = Some l → nodes w' !! l = None) ∧
    (∀ l, (brk w ≤ l)%positive → (Pos.succ l < brk w')%positive →
          is_Some (nodes w' !! l)) ∧
    (j ≠ 0 → ∀ l, Pos.succ l = brk w' → nodes w' !! l = None).
Proof.
  induction j as [|j IH]; intros fuel h w Hfuel Hok Hfail Hfresh Hh;
    (destruct fuel as [|fuel]; [lia|]); cbn [createNewList_loop];
    replace (Z.of_nat (S fuel) =? 0)%Z with false by (symmetry; apply Z.eqb_neq; lia);
    replace (Z.of_nat (S fuel) - 1)%Z with (Z.of_nat fuel) by lia;
    rewrite bind_unfold, malloc_node_eq.
  - rewrite drop_0 in Hfail. rewrite Hfail. tidy.
    destruct h as [hl|].
    + destruct (Hh hl eq_refl) as [n Hn]. estep free_node_eq. rewrite ret_eq.
      eexists. split; [done|]. simpl. split; [done|]. split; [done|]. split; [lia|].
      split; [|split; [|split; [|done]]].
      * intros l Hl [Hne|?]; [|done]. apply lookup_delete_ne. congruence.
      * intros _ l [= <-]. apply lookup_delete_eq.
      * intros l ? ?. lia.
    + eexists. split; [reflexivity|]. simpl. split; [done|]. split; [done|].
      split; [lia|]. split; [done|]. split; [done|]. split; [|done].
      intros l ? ?. lia.
  - cbn [allocs_ok] in Hok. apply andb_true_iff in Hok as [H1 H2].
    rewrite drop_S_tail in Hfail. rewrite H1. tidy.
    estep set_node_next_eq. rewrite insert_insert_eq.
    match goal with
    | |- context [createNewList_loop fuel _ _ ?W] =>
        destruct (IH fuel (Some (brk w)) W) as
          (w' & Heq & Hm' & Ht' & Hb' & Hfr & Hhead & Hkept & Hlast)
    end; tidy; try done.
    + lia.
    + intros l [<-|Hl]%lookup_insert_is_Some'; [lia|].
      pose proof (Hfresh _ Hl). lia.
    + intros l [= <-]. rewrite lookup_insert_eq. by eexists.
    + cbn [nodes maps brk oracle trace] in *.
      exists w'. split; [done|]. split; [done|]. split; [done|]. split; [lia|].
      split; [|split; [done|split]].
      * intros l Hl _. rewrite Hfr; [|lia|left; intros [= E]; lia].
        apply lookup_insert_ne. lia.
      * intros l Hl1 Hl2. destruct (decide (l = brk w)) as [->|Hne].
        -- rewrite Hfr; [|lia|right; lia]. rewrite lookup_insert_eq. by eexists.
        -- apply Hkept; lia.
      * intros _ l Hl. destruct (decide (j = 0)) as [->|Hj].
        -- apply (Hhead eq_refl). f_equal. lia.
        -- by apply Hlast.
Qed.

(** The nodes that a failed [createNewList] leaves allocated are still
    allocated when [mapCopy] returns [NULL]. *)
Lemma mapCopy_list_fails w m r s cs j :
  wf w →
  is_map w m r s cs →
  good r cs →
  j < length cs →
  allocs_ok (2 + j) (oracle w) = true →
  next_ok (drop (2 + j) (oracle w)) = false →
  ∃ w', mapCopy (Some m) w = Done None w' ∧
    maps w' = maps w ∧ trace w' = trace w ∧
    (Z.pos (brk w') = Z.pos (brk w) + 2 + Z.of_nat j)%Z ∧
    (∀ l, (l < brk w)%positive → nodes w' !! l = nodes w !! l) ∧
    nodes w' !! brk w = None ∧ nodes w' !! Pos.succ (brk w) = None ∧
    (∀ l, (Pos.succ (Pos.succ (brk w)) ≤ l)%positive → (Pos.succ l < brk w')%positive →
          is_Some (nodes w' !! l)).
Proof.
  intros Hwf Hmap Hgood Hj Hok Hfail. pose proof Hmap as (Hm & Hf & _ & Hnd).
  assert (brk w ≠ m) as Hne.
  { intros <-. rewrite (wf_fresh_map _ Hwf) in Hm. done. }
  change (2 + j) with (S (S j)) in Hok, Hfail. cbn [allocs_ok] in Hok.
  apply andb_true_iff in Hok as [H1 Hok]. apply andb_true_iff in Hok as [H2 Hok].
  rewrite !drop_S_tail in Hfail.
  pose proof Hgood as (Hsorted & Hsz & Hmax & Hlaw).
  assert (Hsc_new : nodes w !! (Pos.succ (brk w)) = None).
  { destruct (nodes w !! (Pos.succ (brk w))) eqn:E; [|done].
    pose proof (wf_nodes _ Hwf _ (mk_is_Some _ _ E)). lia. }
  assert (Hbrk_new : nodes w !! brk w = None) by apply (wf_fresh _ Hwf).
  unfold mapCopy. step (load_map_eq _ _ _ Hm).
  rewrite bind_unfold, (mapCreate_eq _ _ _ _ _ _ (wf_fresh_map _ Hwf)), H1, H2.
  tidy.
  estep load_map_eq. estep set_size_eq. rewrite insert_insert_eq.
  estep load_map_eq.
  replace (size r =? 0)%Z with false by (symmetry; apply Z.eqb_neq; lia).
  rewrite bind_unfold. unfold copyList. rewrite bind_unfold.
  erewrite load_map_eq by side. tidy.
  rewrite bind_unfold. unfold createNewList.
  replace (@createNewList_loop K V (Z.to_nat (size r)) (size r))
    with (@createNewList_loop K V (length cs) (Z.of_nat (length cs)))
    by (by rewrite Hsz, Nat2Z.id).
  match goal with
  | |- context [createNewList_loop (length cs) _ None ?W] =>
      destruct (createNewList_loop_fails j (length cs) None W) as
        (w1 & Heq & Hm1 & Ht1 & Hb1 & Hfr1 & _ & Hkept1 & Hlast1)
  end; tidy; try done.
  { intros l [<-|Hl]%lookup_insert_is_Some'; [lia|].
    pose proof (wf_nodes _ Hwf _ Hl). lia. }
  cbn [nodes maps brk oracle trace] in Hm1, Ht1, Hb1, Hfr1, Hkept1, Hlast1.
  rewrite Heq. tidy. rewrite ret_eq. tidy. cbn [MapResult_eqb].
  assert (nodes w1 !! Pos.succ (brk w) = Some (Node Null Null Null)) as Hsc1.
  { rewrite Hfr1; [apply lookup_insert_eq|lia|by left]. }
  assert (is_map w1 (brk w)
            (MapRec (Some (Pos.succ (brk w))) (size r) (Some (Pos.succ (brk w)))
                    (copy_data r) (copy_key r) (free_data r) (free_key r)
                    (compare_keys r)) (Pos.succ (brk w)) []) as Hmapc.
  { split; [rewrite Hm1; apply lookup_insert_eq|]. split; [done|]. split.
    - by exists Null, Null, None.
    - apply NoDup_singleton. }
  rewrite bind_unfold, (mapDestroy_eq _ _ _ _ _ Hmapc). tidy. rewrite ret_eq.
  eexists. split; [done|]. simpl.
  split; [by rewrite Hm1, delete_insert_id by apply (wf_fresh_map _ Hwf)|].
  split; [by rewrite app_nil_r|]. split; [lia|].
  split; [|split; [|split]].
  - intros l Hl. rewrite lookup_delete_ne by lia.
    rewrite Hfr1; [|lia|by left]. apply lookup_insert_ne. lia.
  - rewrite lookup_delete_ne by lia. rewrite Hfr1; [|lia|by left].
    by rewrite lookup_insert_ne by lia.
  - apply lookup_delete_eq.
  - intros l Hl1 Hl2. rewrite lookup_delete_ne by lia. by apply Hkept1.
Qed.

End Theory.

(** * The claims of the specification *)

Section Claims.
Context {K V : Type}.
Implicit Types (w : world K V) (r : Map_t K V) (m s : loc).

(** C3.  In every state reached from the start by calls of the interface,
    the chain of nodes after the dummy first node of every map is strictly
    increasing under the comparison of the map, no two of its keys compare
    equal, and the size field is the number of nodes of the chain. *)
Theorem C3_chain_sorted_and_counted w m r :
  reachable w →
  maps w !! m = Some (Some r) →
  ∃ s cs,
    is_map w m r s cs ∧
    StronglySorted (key_lt (compare_keys r)) (keys cs) ∧
    (∀ i j ki kj, i ≠ j → keys cs !! i = Some ki → keys cs !! j = Some kj →
                  compare_keys r ki kj ≠ 0%Z) ∧
    size r = Z.of_nat (length cs).
Proof.
  intros Hreach Hm. apply reachable_wf in Hreach.
  destruct (wf_maps _ Hreach _ _ Hm) as (s & cs & Hmap & Hs & Hsz & _ & Hlaw).
  exists s, cs. split; [done|]. split; [done|]. split; [|done].
  intros i j ki kj. by eapply sorted_distinct.
Qed.

(** C5.  A successful Put of a key that compares equal to the key of a node
    leaves the size as it was, stores the copy of the value in that node (Get
    returns it) and leaves the chain otherwise as it was; a successful Put
    of a key that compares equal to no key makes the size one larger. *)
Theorem C5_put_replaces_or_adds w m r s cs k v w' :
  reachable w →
  is_map w m r s cs →
  mapPut (Some m) (Some k) (Some v) w = Done MAP_SUCCESS w' →
  ((∃ c, c ∈ cs ∧ compare_keys r k (ckey c) = 0%Z) →
     mapGetSize (Some m) w' = Done (size r) w' ∧
     mapGet (Some m) (Some k) w' = Done (At (copy_data r v)) w' ∧
     ∃ r' cs1 c cs2,
       cs = cs1 ++ c :: cs2 ∧ compare_keys r k (ckey c) = 0%Z ∧
       is_map w' m r' s (cs1 ++ (cloc c, ckey c, Some (copy_data r v)) :: cs2)) ∧
  ((∀ c, c ∈ cs → compare_keys r k (ckey c) ≠ 0%Z) →
     mapGetSize (Some m) w' = Done (size r + 1)%Z w').
Proof.
  intros Hreach Hmap Hput. apply reachable_wf in Hreach.
  pose proof Hmap as (Hm & _).
  destruct (wf_maps _ Hreach _ _ Hm) as (s0 & cs0 & Hmap0 & Hs & Hsz & Hmax & Hlaw).
  destruct (is_map_inj _ _ _ _ _ _ _ _ Hmap Hmap0) as (_ & <- & <-).
  destruct (mapPut_result _ _ _ _ _ _ _ _ _ Hreach Hmap Hput)
    as [(_ & r' & cs' & Hmap' & Hcaps & Hit & Hres)|(? & _)]; [|done].
  pose proof Hmap' as (Hm' & _).
  destruct Hcaps as (_ & _ & _ & _ & _ & Hcmp).
  split.
  - intros Hex. apply (hit_iff _ _ k _ Hlaw Hs) in Hex. rewrite Hex in Hres.
    destruct Hres as (Hsize & c & cs2 & Hfrom & Hc & ->).
    split; [by rewrite (mapGetSize_eq _ _ _ Hm'), Hsize|]. split.
    + rewrite (mapGet_found _ _ _ _ _ k (cloc c, ckey c, Some (copy_data r v)) cs2 Hmap');
        [done| |by rewrite Hcmp].
      rewrite Hcmp, from_before_app. simpl.
      replace (0 <? compare_keys r k (ckey (cloc c, ckey c, Some (copy_data r v))))%Z
        with false; [done|].
      symmetry. apply Z.ltb_ge. unfold ckey in *. simpl. lia.
    + exists r', (before (compare_keys r) k cs), c, cs2.
      split; [by rewrite <- Hfrom, before_from|done].
  - intros Hno. apply (hit_not _ _ k _ Hlaw Hs) in Hno. rewrite Hno in Hres.
    destruct Hres as (Hsize & _). by rewrite (mapGetSize_eq _ _ _ Hm'), Hsize.
Qed.

(** C6.  Remove without a map or without a key returns the null-argument
    code; Remove of a key that compares equal to no key of the chain returns
    the item-does-not-exist code and changes nothing; Remove of a key that
    compares equal to the key of a node succeeds, makes the size one
    smaller, and Contains on that key then returns false. *)
Theorem C6_remove w m r s cs k :
  reachable w →
  is_map w m r s cs →
  (∀ map ko, map = None ∨ ko = None →
             mapRemove map ko w = Done MAP_NULL_ARGUMENT w) ∧
  ((∀ c, c ∈ cs → compare_keys r k (ckey c) ≠ 0%Z) →
     mapRemove (Some m) (Some k) w = Done MAP_ITEM_DOES_NOT_EXIST w) ∧
  ((∃ c, c ∈ cs ∧ compare_keys r k (ckey c) = 0%Z) →
     ∃ w', mapRemove (Some m) (Some k) w = Done MAP_SUCCESS w' ∧
           mapGetSize (Some m) w' = Done (size r - 1)%Z w' ∧
           mapContains (Some m) (Some k) w' = Done false w').
Proof.
  intros Hreach Hmap. apply reachable_wf in Hreach.
  pose proof Hmap as (Hm & _).
  destruct (wf_maps _ Hreach _ _ Hm) as (s0 & cs0 & Hmap0 & Hgood).
  destruct (is_map_inj _ _ _ _ _ _ _ _ Hmap Hmap0) as (_ & <- & <-).
  pose proof Hgood as (Hs & Hsz & Hmax & Hlaw).
  pose proof (mapRemove_result _ _ _ _ _ k Hreach Hmap Hgood) as Hres.
  split; [|split].
  - intros map ko [->| ->]; [done|]. by destruct map.
  - intros Hno. apply (hit_not _ _ k _ Hlaw Hs) in Hno. by rewrite Hno in Hres.
  - intros Hex. apply (hit_iff _ _ k _ Hlaw Hs) in Hex. rewrite Hex in Hres.
    destruct Hres as (w' & c & cs2 & Heq & Hfrom & Hc & Hmap').
    exists w'. split; [done|]. pose proof Hmap' as (Hm' & _).
    split; [by rewrite (mapGetSize_eq _ _ _ Hm')|].
    rewrite (mapContains_eq _ _ _ _ _ k Hmap'). f_equal.
    by apply (hit_unlink _ (copy_key r) _ _ c).
Qed.

(** C9.  Create with one of its five arguments absent returns no map and
    changes nothing; with all five present and both allocations succeeding
    it returns a map of size 0 on which GetFirst returns none. *)
Theorem C9_create w cd ck fd fk cmp :
  reachable w →
  (cd = None ∨ ck = None ∨ fd = None ∨ fk = None ∨ cmp = None →
     mapCreate cd ck fd fk cmp w = Done None w) ∧
  (is_Some cd → is_Some ck → is_Some fd → is_Some fk → is_Some cmp →
   next_ok (oracle w) = true → next_ok (tail (oracle w)) = true →
     ∃ m w', mapCreate cd ck fd fk cmp w = Done (Some m) w' ∧
             mapGetSize (Some m) w' = Done 0%Z w' ∧
             mapGetFirst (Some m) w' = Done Null w').
Proof.
  intros Hreach. apply reachable_wf in Hreach. split.
  - intros H. destruct cd, ck, fd, fk, cmp; try done.
    exfalso. destruct H as [?|[?|[?|[?|?]]]]; done.
  - intros [f1 ->] [f2 ->] [f3 ->] [f4 ->] [f5 ->] H1 H2.
    rewrite (mapCreate_eq _ _ _ _ _ _ (wf_fresh_map _ Hreach)), H1, H2.
    eexists _, _. split; [reflexivity|].
    match goal with
    | |- mapGetSize _ ?W = _ ∧ _ =>
        assert (is_map W (brk w) (MapRec (Some (Pos.succ (brk w))) 0
                  (Some (Pos.succ (brk w))) f1 f2 f3 f4 f5) (Pos.succ (brk w)) [])
          as Hmap
    end.
    { split; [apply lookup_insert_eq|]. split; [done|]. split.
      - exists Null, Null, None. split; [apply lookup_insert_eq|done].
      - apply NoDup_singleton. }
    split.
    + by rewrite (mapGetSize_eq _ _ _ (proj1 Hmap)).
    + by rewrite (mapGetFirst_eq _ _ _ _ _ Hmap).
Qed.

(** C10.  A Put of a key that compares equal to the key of a node changes
    the data pointer of that node and nothing else of the chain: the node
    keeps its key and its successor, every other node of the heap is as it
    was, no node is linked or unlinked, and the only calls made are one of
    free-data and one of copy-data (none of copy-key or free-key). *)
Theorem C10_put_present_changes_value_only w m r s cs k v c x w' :
  reachable w →
  is_map w m r s cs →
  c ∈ cs → compare_keys r k (ckey c) = 0%Z →
  mapPut (Some m) (Some k) (Some v) w = Done x w' →
  ∃ d' b nx cs1 cs2 r',
    cs = cs1 ++ c :: cs2 ∧
    nodes w !! cloc c = Some (node_of c nx) ∧
    nodes w' = <[cloc c := node_of (cloc c, ckey c, d') nx]> (nodes w) ∧
    trace w' = trace w ++ [FreeData (cdata c); CopyData v b] ∧
    is_map w' m r' s (cs1 ++ (cloc c, ckey c, d') :: cs2).
Proof.
  intros Hreach Hmap Hin Hc Hput. apply reachable_wf in Hreach.
  pose proof Hmap as (Hm & _).
  destruct (wf_maps _ Hreach _ _ Hm) as (s0 & cs0 & Hmap0 & Hs & Hsz & Hmax & Hlaw).
  destruct (is_map_inj _ _ _ _ _ _ _ _ Hmap Hmap0) as (_ & <- & <-).
  destruct (from_unique _ _ k _ c Hlaw Hs Hin Hc) as (cs2 & Hfrom).
  destruct (mapPut_found _ _ _ _ _ _ v _ _ Hmap Hfrom Hc) as (nx & Hn & Heq).
  rewrite Heq in Hput. injection Hput as <- <-.
  exists (new_data (next_ok (oracle w)) (copy_data r) v), (next_ok (oracle w)), nx,
    (before (compare_keys r) k cs), cs2,
    (if next_ok (oracle w) then with_iterator None r else r).
  assert (cs = before (compare_keys r) k cs ++ c :: cs2) as Hcs
    by (by rewrite <- Hfrom, before_from).
  split; [done|]. split; [done|]. split; [done|]. split; [done|].
  eapply (is_map_set_data w _ m r); [by rewrite <- Hcs|done|done| |].
  - simpl. destruct (next_ok (oracle w)); [apply lookup_insert_eq|done].
  - by destruct (next_ok (oracle w)).
Qed.

(** C1 (amended).  After a Put, a Remove or a Copy on a map that succeeded
    the enumeration of that map is over: every later call of GetNext returns
    none and changes nothing, however many are made. *)
Theorem C1_success_ends_enumeration w m w' n :
  reachable w →
  (∃ ko vo, mapPut (Some m) ko vo w = Done MAP_SUCCESS w') ∨
  (∃ ko, mapRemove (Some m) ko w = Done MAP_SUCCESS w') ∨
  (∃ mc, mapCopy (Some m) w = Done (Some mc) w') →
  getNext_times n (Some m) w' = Done (replicate n Null) w'.
Proof.
  intros Hreach H. apply reachable_wf in Hreach.
  assert (∃ r', maps w' !! m = Some (Some r') ∧ iterator r' = None) as (r' & Hm' & Hit).
  { destruct H as [(ko & vo & H)|[(ko & H)|(mc & H)]].
    - destruct ko as [k|], vo as [v|]; try done.
      destruct (mapPut_is_map _ _ _ _ _ _ Hreach H) as (r & s & cs & Hmap & _).
      destruct (mapPut_result _ _ _ _ _ _ _ _ _ Hreach Hmap H)
        as [(_ & r' & cs' & (Hm' & _) & _ & Hit & _)|(? & _)]; [|done].
      by exists r'.
    - destruct ko as [k|]; [|done].
      destruct (mapRemove_is_map _ _ _ _ _ Hreach H) as (r & s & cs & Hmap & Hgood).
      pose proof (mapRemove_result _ _ _ _ _ k Hreach Hmap Hgood) as Hres.
      destruct (hit (compare_keys r) k cs).
      + destruct Hres as (w'' & c & cs2 & Heq & _ & _ & (Hm' & _)).
        rewrite Heq in H. injection H as <-. by eexists.
      + by rewrite Hres in H.
    - destruct (mapCopy_is_map _ _ _ _ Hreach H) as (r & s & cs & Hmap & Hgood).
      destruct (ensures_inv _ _ _ _ (mapCopy_spec _ _ _ _ _ Hreach Hmap Hgood) H)
        as (_ & _ & (Hm' & _) & _).
      by eexists. }
  by eapply getNext_times_null.
Qed.

(** C4.  After any sequence of Put calls on a map just created, the
    enumeration (GetFirst, then GetNext until it returns none) yields keys
    that are strictly increasing under the comparison, no two of them
    comparing equal, and as many keys as GetSize returns. *)
Theorem C4_enumeration_after_puts w0 cd ck fd fk cmp m w1 kvs rs w2 :
  reachable w0 →
  lawful cmp ck →
  mapCreate (Some cd) (Some ck) (Some fd) (Some fk) (Some cmp) w0 = Done (Some m) w1 →
  put_all (Some m) kvs w1 = Done rs w2 →
  ∃ ks w3,
    enumerate (Some m) w2 = Done (At <$> ks) w3 ∧
    StronglySorted (key_lt cmp) ks ∧
    (∀ i j ki kj, i ≠ j → ks !! i = Some ki → ks !! j = Some kj → cmp ki kj ≠ 0%Z) ∧
    mapGetSize (Some m) w2 = Done (Z.of_nat (length ks)) w2.
Proof.
  intros Hreach Hlaw Hcreate Hputs. apply reachable_wf in Hreach.
  assert (wf w1) as Hwf1.
  { eapply mapCreate_wf; [exact Hreach| |exact Hcreate]. by intros ? ? [= <-] [= <-]. }
  assert (∃ r1, maps w1 !! m = Some (Some r1) ∧ compare_keys r1 = cmp) as (r1 & Hm1 & Hc1).
  { rewrite (mapCreate_eq _ _ _ _ _ _ (wf_fresh_map _ Hreach)) in Hcreate.
    destruct (next_ok (oracle w0)); [|done].
    destruct (next_ok (tail (oracle w0))); [|done].
    injection Hcreate as <- <-. eexists. split; [apply lookup_insert_eq|done]. }
  destruct (put_all_keeps _ _ _ _ _ _ Hwf1 Hm1 Hputs)
    as (Hwf2 & r2 & Hm2 & (_ & _ & _ & _ & _ & Hc2)).
  destruct (wf_maps _ Hwf2 _ _ Hm2) as (s & cs & Hmap & Hs & Hsz & _ & Hlaw2).
  destruct (enumerate_spec _ _ _ _ _ Hmap) as (w3 & Henum).
  rewrite Hc2, Hc1 in Hs, Hlaw2.
  exists (keys cs), w3. split; [|split; [done|split]].
  - rewrite Henum. f_equal. unfold keys. by rewrite <- list_fmap_compose.
  - intros i j ki kj. by eapply sorted_distinct.
  - rewrite (mapGetSize_eq _ _ _ Hm2), Hsz. unfold keys. by rewrite length_fmap.
Qed.

(** C7.  A Copy that succeeds returns another map whose size is the size of
    the source, whose keys and values are, node by node, the copies of the
    keys and values of the source (each key of the duplicate compares equal
    to the key it was copied from), and the source keeps its chain; a later
    Put or Remove on the duplicate leaves the source as it is, and a later
    Put or Remove on the source leaves the duplicate as it is. *)
Theorem C7_copy_is_equal_and_independent w m r s cs mc w' :
  reachable w →
  is_map w m r s cs →
  mapCopy (Some m) w = Done (Some mc) w' →
  mc ≠ m ∧
  is_map w' m (with_iterator None r) s cs ∧
  ∃ rc sc ccs,
    is_map w' mc rc sc ccs ∧
    size rc = size r ∧
    mapGetSize (Some mc) w' = Done (size r) w' ∧
    keys ccs = copy_key r <$> keys cs ∧
    Forall2 (λ k kc, compare_keys r kc k = 0%Z) (keys cs) (keys ccs) ∧
    (cdata <$> ccs) = (fmap (copy_data r) ∘ cdata <$> cs) ∧
    Forall (λ c, is_Some (cdata c)) cs ∧
    (∀ ko vo x w'', mapPut (Some mc) ko vo w' = Done x w'' →
                    is_map w'' m (with_iterator None r) s cs) ∧
    (∀ ko x w'', mapRemove (Some mc) ko w' = Done x w'' →
                 is_map w'' m (with_iterator None r) s cs) ∧
    (∀ ko vo x w'', mapPut (Some m) ko vo w' = Done x w'' →
                    is_map w'' mc rc sc ccs) ∧
    (∀ ko x w'', mapRemove (Some m) ko w' = Done x w'' →
                 is_map w'' mc rc sc ccs).
Proof.
  intros Hreach Hmap Hcopy. apply reachable_wf in Hreach.
  pose proof Hmap as (Hm & _).
  destruct (wf_maps _ Hreach _ _ Hm) as (s0 & cs0 & Hmap0 & Hgood).
  destruct (is_map_inj _ _ _ _ _ _ _ _ Hmap Hmap0) as (_ & <- & <-).
  destruct (ensures_inv _ _ _ _ (mapCopy_spec _ _ _ _ _ Hreach Hmap Hgood) Hcopy)
    as (Hwf' & -> & Hmap' & sc & ls & Hmapc & Hlen & Hall).
  assert (brk w ≠ m) as Hne.
  { intros E. rewrite <- E, (wf_fresh_map _ Hreach) in Hm. done. }
  destruct Hgood as (_ & _ & _ & Hlaw).
  split; [done|]. split; [done|].
  exists (copy_record r sc), sc, (zip_with (copy_cell (copy_data r) (copy_key r)) ls cs).
  split; [done|]. split; [done|].
  split; [by rewrite (mapGetSize_eq _ _ _ (proj1 Hmapc))|].
  split; [by apply keys_copy|]. split; [|split; [|split; [done|]]].
  - rewrite keys_copy by done. apply Forall2_fmap_r, Forall_Forall2_diag, Forall_forall.
    intros k _. apply (copy_same _ _ Hlaw).
  - clear -Hlen. revert ls Hlen. induction cs as [|c cs IH]; intros [|l ls] Hlen; try done.
    simpl in *. f_equal. apply IH. lia.
  - split; [|split; [|split]].
    + intros ko vo x w'' H. destruct (mapPut_keeps _ _ _ _ _ _ Hwf' H) as [_ Hk].
      apply Hk; [congruence|done].
    + intros ko x w'' H. destruct (mapRemove_keeps _ _ _ _ _ Hwf' H) as [_ Hk].
      apply Hk; [congruence|done].
    + intros ko vo x w'' H. destruct (mapPut_keeps _ _ _ _ _ _ Hwf' H) as [_ Hk].
      apply Hk; [congruence|done].
    + intros ko x w'' H. destruct (mapRemove_keeps _ _ _ _ _ Hwf' H) as [_ Hk].
      apply Hk; [congruence|done].
Qed.

End Claims.

(** * Further properties of the functions *)

Section Further.
Context {K V : Type}.
Implicit Types (w : world K V) (r : Map_t K V) (m s : loc).
Implicit Types (cs : list (@cell K V)).

(** X1.  [mapGetSize] returns -1 for a null map and, for a map of a
    reachable state, the number of nodes of its chain (which is not
    negative, so that -1 is returned for a null map only); it changes
    nothing. *)
Theorem X1_size_counts_nodes w m r s cs :
  reachable w →
  is_map w m r s cs →
  mapGetSize (Some m) w = Done (Z.of_nat (length cs)) w ∧
  mapGetSize None w = Done (-1)%Z w.
Proof.
  intros Hreach Hmap.
  destruct (reachable_good _ _ _ _ _ Hreach Hmap) as (_ & _ & Hsz & _).
  split; [|done]. by rewrite (mapGetSize_eq _ _ _ (proj1 Hmap)), Hsz.
Qed.

(** X2.  [mapContains] returns false when the map or the key is null;
    otherwise it returns true exactly when the key compares equal to the key
    of a node of the chain.  It changes nothing. *)
Theorem X2_contains_iff_key_in_chain w m r s cs k :
  reachable w →
  is_map w m r s cs →
  (∀ map ko, map = None ∨ ko = None → mapContains map ko w = Done false w) ∧
  ((∃ c, c ∈ cs ∧ compare_keys r k (ckey c) = 0%Z) →
     mapContains (Some m) (Some k) w = Done true w) ∧
  ((∀ c, c ∈ cs → compare_keys r k (ckey c) ≠ 0%Z) →
     mapContains (Some m) (Some k) w = Done false w).
Proof.
  intros Hreach Hmap.
  destruct (reachable_good _ _ _ _ _ Hreach Hmap) as (_ & Hs & _ & _ & Hlaw).
  split; [|split].
  - intros map ko [->| ->]; [done|]. by destruct map.
  - intros Hex. apply (hit_iff _ _ k _ Hlaw Hs) in Hex.
    by rewrite (mapContains_eq _ _ _ _ _ k Hmap), Hex.
  - intros Hno. apply (hit_not _ _ k _ Hlaw Hs) in Hno.
    by rewrite (mapContains_eq _ _ _ _ _ k Hmap), Hno.
Qed.

(** X3.  [mapGet] returns null when the map or the key is null and when no
    node has a key that compares equal; otherwise it returns the data pointer
    stored in the node of that key: the element the map owns, not a copy (no
    copy function is called and nothing changes). *)
Theorem X3_get_returns_stored_pointer w m r s cs k :
  reachable w →
  is_map w m r s cs →
  (∀ map ko, map = None ∨ ko = None → mapGet map ko w = Done Null w) ∧
  ((∀ c, c ∈ cs → compare_keys r k (ckey c) ≠ 0%Z) →
     mapGet (Some m) (Some k) w = Done Null w) ∧
  (∀ c, c ∈ cs → compare_keys r k (ckey c) = 0%Z →
     mapGet (Some m) (Some k) w = Done (of_option (cdata c)) w ∧
     ∃ nx, nodes w !! cloc c = Some (Node (of_option (cdata c)) (At (ckey c)) nx)).
Proof.
  intros Hreach Hmap.
  destruct (reachable_good _ _ _ _ _ Hreach Hmap) as (_ & Hs & _ & _ & Hlaw).
  split; [|split].
  - intros map ko [->| ->]; [done|]. by destruct map.
  - intros Hno. apply (find_cell_None _ _ k _ Hlaw Hs) in Hno.
    by rewrite (mapGet_eq _ _ _ _ _ k Hmap), Hno.
  - intros c Hin Hc. split.
    + assert (find_cell (compare_keys r) k cs = Some c) as Hf
        by (by apply (find_cell_Some _ _ _ _ _ Hlaw Hs)).
      by rewrite (mapGet_eq _ _ _ _ _ k Hmap), Hf.
    + destruct Hmap as (_ & _ & (sd & sk & nx & _ & Hseg) & _).
      destruct (seg_lookup _ _ _ _ _ Hseg Hin) as (nx' & Hn). by eexists.
Qed.

(** X4.  After a Put that returned success, Get of the same key returns the
    copy of the data made by the copy function, and Contains returns true,
    whether the key was there before or not. *)
Theorem X4_put_then_get w m r s cs k v w' :
  reachable w →
  is_map w m r s cs →
  mapPut (Some m) (Some k) (Some v) w = Done MAP_SUCCESS w' →
  mapGet (Some m) (Some k) w' = Done (At (copy_data r v)) w' ∧
  mapContains (Some m) (Some k) w' = Done true w'.
Proof.
  intros Hreach Hmap Hput.
  destruct (reachable_good _ _ _ _ _ Hreach Hmap) as (Hwf & Hs & _ & _ & Hlaw).
  pose proof (mapPut_wf _ _ _ _ _ _ Hwf Hput) as Hwf'.
  destruct (mapPut_result _ _ _ _ _ _ _ _ _ Hwf Hmap Hput)
    as [(_ & r' & cs' & Hmap' & Hcaps & _ & Hcase)|(? & _)]; [|done].
  destruct Hcaps as (_ & _ & _ & _ & _ & Hcmp).
  destruct (wf_maps _ Hwf' _ _ (proj1 Hmap')) as (s0 & cs0 & Hmap0 & Hs' & _ & _ & Hlaw').
  destruct (is_map_inj _ _ _ _ _ _ _ _ Hmap' Hmap0) as (_ & <- & <-).
  assert (∃ c', c' ∈ cs' ∧ compare_keys r' k (ckey c') = 0%Z ∧
                cdata c' = Some (copy_data r v)) as (c' & Hin & Hc & Hd).
  { rewrite Hcmp. destruct (hit (compare_keys r) k cs).
    - destruct Hcase as (_ & c & cs2 & _ & Hc & ->).
      exists (cloc c, ckey c, Some (copy_data r v)). split; [|done].
      apply elem_of_app. right. apply list_elem_of_here.
    - destruct Hcase as (_ & ->).
      exists (brk w, copy_key r k, Some (copy_data r v)).
      split; [apply elem_of_app; right; apply list_elem_of_here|].
      split; [|done]. apply (cmp_copy_r _ _ Hlaw). }
  split.
  - assert (find_cell (compare_keys r') k cs' = Some c') as Hf
      by (by apply (find_cell_Some _ _ _ _ _ Hlaw' Hs')).
    by rewrite (mapGet_eq _ _ _ _ _ k Hmap'), Hf, Hd.
  - rewrite (mapContains_eq _ _ _ _ _ k Hmap'). f_equal.
    apply (hit_iff _ _ k _ Hlaw' Hs'). by exists c'.
Qed.

(** X5.  A Put that returns, whatever its result, leaves every other key
    as it was: for a key that does not compare equal to the key put, Get
    returns the same pointer and Contains the same answer before and
    after. *)
Theorem X5_put_keeps_other_keys w m r s cs k v x w' k' :
  reachable w →
  is_map w m r s cs →
  mapPut (Some m) (Some k) (Some v) w = Done x w' →
  compare_keys r k' k ≠ 0%Z →
  ∃ d b,
    mapGet (Some m) (Some k') w = Done d w ∧
    mapGet (Some m) (Some k') w' = Done d w' ∧
    mapContains (Some m) (Some k') w = Done b w ∧
    mapContains (Some m) (Some k') w' = Done b w'.
Proof.
  intros Hreach Hmap Hput Hne.
  destruct (reachable_good _ _ _ _ _ Hreach Hmap) as (Hwf & Hs & _ & _ & Hlaw).
  pose proof (mapPut_wf _ _ _ _ _ _ Hwf Hput) as Hwf'.
  destruct (mapPut_cells _ _ _ _ _ _ _ _ _ Hwf Hmap Hput)
    as (r' & cs' & Hmap' & Hcaps & H1 & H2).
  destruct Hcaps as (_ & _ & _ & _ & _ & Hcmp).
  destruct (wf_maps _ Hwf' _ _ (proj1 Hmap')) as (s0 & cs0 & Hmap0 & Hs' & _).
  destruct (is_map_inj _ _ _ _ _ _ _ _ Hmap' Hmap0) as (_ & <- & <-).
  rewrite Hcmp in Hs'.
  pose proof (find_cell_frame _ _ k k' cs cs' Hlaw Hs Hs' Hne H1 H2) as Hf.
  eexists _, _. rewrite (mapGet_eq _ _ _ _ _ k' Hmap), (mapGet_eq _ _ _ _ _ k' Hmap').
  rewrite (mapContains_eq _ _ _ _ _ k' Hmap), (mapContains_eq _ _ _ _ _ k' Hmap').
  rewrite !hit_find, Hcmp, Hf. done.
Qed.

(** X6.  A Remove of a key that compares equal to the key of a node
    returns success, frees that node after one call of free-data and one of
    free-key on its data and its key, and leaves every other key as it was:
    afterwards Get of the removed key returns null and Get of a key that does
    not compare equal returns the same pointer as before. *)
Theorem X6_remove_frees_one_node w m r s cs k c :
  reachable w →
  is_map w m r s cs →
  c ∈ cs → compare_keys r k (ckey c) = 0%Z →
  ∃ w', mapRemove (Some m) (Some k) w = Done MAP_SUCCESS w' ∧
    mapGet (Some m) (Some k) w' = Done Null w' ∧
    nodes w' !! cloc c = None ∧
    (∀ l, l ∉ fp s cs → nodes w' !! l = nodes w !! l) ∧
    trace w' = trace w ++ [FreeData (cdata c); FreeKey (Some (ckey c))] ∧
    (∀ k', compare_keys r k' k ≠ 0%Z →
       ∃ d, mapGet (Some m) (Some k') w = Done d w ∧
            mapGet (Some m) (Some k') w' = Done d w').
Proof.
  intros Hreach Hmap Hin Hc.
  destruct (reachable_good _ _ _ _ _ Hreach Hmap) as (Hwf & Hgood).
  pose proof Hgood as (Hs & Hsz & _ & Hlaw).
  destruct (from_unique _ _ k _ c Hlaw Hs Hin Hc) as (cs2 & Hfrom).
  destruct (mapRemove_found _ _ _ _ _ _ _ _ Hmap Hfrom Hc)
    as (pd & pk & nxc & Hprev & Hn & Hseg2 & Heq).
  pose proof (before_from (compare_keys r) k cs) as Hcs. rewrite Hfrom in Hcs.
  assert (1 ≤ size r)%Z as Hpos.
  { rewrite Hsz, <- Hcs, length_app. simpl. lia. }
  destruct Hgood as (_ & _ & Hmax & _).
  replace ((INT_MIN <=? size r - 1)%Z && (size r - 1 <=? INT_MAX)%Z) with true in Heq.
  2:{ symmetry. apply andb_true_iff. unfold INT_MIN, INT_MAX in *.
      split; apply Z.leb_le; lia. }
  eexists. split; [exact Heq|].
  match type of Heq with _ = Done _ ?W => set (w' := W) in * end.
  assert (is_map w' m (with_iterator None (with_size (size r - 1) r)) s
            (before (compare_keys r) k cs ++ cs2)) as Hmap'.
  { eapply (is_map_unlink w _ m r _ s cs k c cs2); try done; unfold w'; simpl.
    apply lookup_insert_eq. }
  pose proof (mapRemove_wf _ _ _ _ _ Hwf Heq) as Hwf'.
  destruct (wf_maps _ Hwf' _ _ (proj1 Hmap')) as (s0 & cs0 & Hmap0 & Hs' & _).
  destruct (is_map_inj _ _ _ _ _ _ _ _ Hmap' Hmap0) as (_ & <- & <-).
  cbn [compare_keys with_iterator with_size] in Hs'.
  split; [|split; [|split; [|split; [done|]]]].
  - rewrite (mapGet_eq _ _ _ _ _ k Hmap').
    cbn [compare_keys with_iterator with_size].
    assert (find_cell (compare_keys r) k (before (compare_keys r) k cs ++ cs2) = None)
      as ->; [|done].
    pose proof (hit_unlink _ _ _ _ _ _ Hlaw Hs Hfrom Hc) as Hh.
    rewrite hit_find in Hh. by destruct (find_cell _ _ _).
  - unfold w'. simpl. apply lookup_delete_eq.
  - intros l Hl. unfold w'. simpl.
    apply not_elem_of_cons in Hl as [Hls Hl].
    rewrite lookup_delete_ne, lookup_insert_ne; [done| |].
    + intros E. destruct (prev_not_from _ _ _ _ _ k Hmap) as [Hp _].
      rewrite E in Hp. apply elem_of_cons in Hp as [?|?]; done.
    + intros E. apply Hl. rewrite <- E. by apply elem_of_locs.
  - intros k' Hne. eexists.
    rewrite (mapGet_eq _ _ _ _ _ k' Hmap), (mapGet_eq _ _ _ _ _ k' Hmap').
    cbn [compare_keys with_iterator with_size].
    rewrite (find_cell_frame _ _ k k' cs (before (compare_keys r) k cs ++ cs2)
               Hlaw Hs Hs' Hne); [done| |].
    + intros c0 H0 Hne0. rewrite <- Hcs in H0. revert H0.
      rewrite !elem_of_app, !elem_of_cons. intros [?|[->|?]]; [by left|done|by right].
    + intros c0 H0 _. rewrite <- Hcs. revert H0.
      rewrite !elem_of_app, !elem_of_cons. intros [?|?]; [by left|by right; right].
Qed.

(** X7.  A Put of a key that the map does not hold, followed by a Remove of
    that key, gives back the chain as it was: the same nodes with the same
    keys and data, and the same size. *)
Theorem X7_put_then_remove_restores_chain w m r s cs k v w1 :
  reachable w →
  is_map w m r s cs →
  (∀ c, c ∈ cs → compare_keys r k (ckey c) ≠ 0%Z) →
  mapPut (Some m) (Some k) (Some v) w = Done MAP_SUCCESS w1 →
  ∃ w2, mapRemove (Some m) (Some k) w1 = Done MAP_SUCCESS w2 ∧
        is_map w2 m (with_iterator None r) s cs ∧
        mapGetSize (Some m) w2 = Done (size r) w2.
Proof.
  intros Hreach Hmap Hno Hput.
  destruct (reachable_good _ _ _ _ _ Hreach Hmap) as (Hwf & Hs & _ & _ & Hlaw).
  apply (hit_not _ _ k _ Hlaw Hs) in Hno.
  pose proof (mapPut_wf _ _ _ _ _ _ Hwf Hput) as Hwf1.
  destruct (mapPut_result _ _ _ _ _ _ _ _ _ Hwf Hmap Hput)
    as [(_ & r1 & cs1 & Hmap1 & Hcaps & Hit & Hcase)|(? & _)]; [|done].
  rewrite Hno in Hcase. destruct Hcase as (Hsz1 & ->).
  destruct (wf_maps _ Hwf1 _ _ (proj1 Hmap1)) as (s0 & cs0 & Hmap0 & Hgood1).
  destruct (is_map_inj _ _ _ _ _ _ _ _ Hmap1 Hmap0) as (_ & <- & <-).
  pose proof Hcaps as (_ & _ & _ & _ & _ & Hcmp).
  pose proof (mapRemove_result _ _ _ _ _ k Hwf1 Hmap1 Hgood1) as Hres.
  rewrite Hcmp in Hres.
  assert (from (compare_keys r) k
            (before (compare_keys r) k cs ++
             (brk w, copy_key r k, Some (copy_data r v)) :: from (compare_keys r) k cs) =
          (brk w, copy_key r k, Some (copy_data r v)) :: from (compare_keys r) k cs)
    as Hfrom.
  { rewrite from_before_app. cbn [from]. unfold ckey at 1. simpl.
    by rewrite (cmp_copy_r _ _ Hlaw). }
  unfold hit in Hres. rewrite Hfrom in Hres. unfold ckey at 1 in Hres. simpl in Hres.
  rewrite (cmp_copy_r _ _ Hlaw) in Hres. simpl in Hres.
  destruct Hres as (w2 & c & cs2 & Heq & [= <- <-] & _ & Hmap2).
  rewrite before_before_app in Hmap2. cbn [before] in Hmap2.
  unfold ckey at 1 in Hmap2. simpl in Hmap2.
  rewrite (cmp_copy_r _ _ Hlaw) in Hmap2. simpl in Hmap2.
  rewrite app_nil_r, before_from in Hmap2.
  assert (with_iterator None (with_size (size r1 - 1) r1) = with_iterator None r) as Hr.
  { destruct Hcaps as (? & ? & ? & ? & ? & ?). destruct r, r1. simpl in *. subst.
    unfold with_iterator, with_size. simpl. f_equal. lia. }
  rewrite Hr in Hmap2. exists w2. split; [done|]. split; [done|].
  by rewrite (mapGetSize_eq _ _ _ (proj1 Hmap2)).
Qed.

(** X8.  A Put of a key that the map does not hold and that returns the
    out-of-memory code leaves the node heap and the map records as they were:
    either the node was not allocated and no function was called, or both
    copy functions were called, one of them failed, and the results of both
    were given back to the free functions. *)
Theorem X8_failed_put_of_new_key_rolls_back w m r s cs k v w' :
  reachable w →
  is_map w m r s cs →
  (∀ c, c ∈ cs → compare_keys r k (ckey c) ≠ 0%Z) →
  mapPut (Some m) (Some k) (Some v) w = Done MAP_OUT_OF_MEMORY w' →
  nodes w' = nodes w ∧ maps w' = maps w ∧
  (trace w' = trace w ∨
   ∃ b2 b3, b2 && b3 = false ∧
     trace w' = trace w ++
       [CopyKey k b2; CopyData v b3;
        FreeData (if b3 then Some (copy_data r v) else None);
        FreeKey (if b2 then Some (copy_key r k) else None)]).
Proof.
  intros Hreach Hmap Hno Hput.
  destruct (reachable_good _ _ _ _ _ Hreach Hmap) as (Hwf & Hs & _ & _ & Hlaw).
  apply (hit_not _ _ k _ Hlaw Hs) in Hno.
  destruct (mapPut_absent _ _ _ _ _ _ v Hmap Hno (wf_fresh _ Hwf))
    as (pd & pk & Hprev & Heq).
  rewrite Heq in Hput. clear Heq.
  destruct (next_ok (oracle w)); [|injection Hput as <-; auto].
  destruct (next_ok (tail (oracle w)) && next_ok (tail (tail (oracle w)))) eqn:Hb.
  - revert Hput. by destruct ((_ <=? _)%Z && _).
  - injection Hput as <-. simpl. split; [done|]. split; [done|]. right.
    by exists (next_ok (tail (oracle w))), (next_ok (tail (tail (oracle w)))).
Qed.

(** X9.  Put returns the null-argument code, and changes nothing, when the
    map, the key or the data is null.  On a map of fewer than [INT_MAX]
    nodes it returns, and its result follows the allocations: for a key the
    map holds, success exactly when the copy of the data succeeds; for a new
    key, success exactly when the node and the two copies are allocated. *)
Theorem X9_put_result_follows_allocations w m r s cs k v :
  reachable w →
  is_map w m r s cs →
  (size r < INT_MAX)%Z →
  (∀ map ko vo, map = None ∨ ko = None ∨ vo = None →
                mapPut map ko vo w = Done MAP_NULL_ARGUMENT w) ∧
  ∃ x w', mapPut (Some m) (Some k) (Some v) w = Done x w' ∧
    ((∃ c, c ∈ cs ∧ compare_keys r k (ckey c) = 0%Z) →
       x = if allocs_ok 1 (oracle w) then MAP_SUCCESS else MAP_OUT_OF_MEMORY) ∧
    ((∀ c, c ∈ cs → compare_keys r k (ckey c) ≠ 0%Z) →
       x = if allocs_ok 3 (oracle w) then MAP_SUCCESS else MAP_OUT_OF_MEMORY).
Proof.
  intros Hreach Hmap Hlt.
  destruct (reachable_good _ _ _ _ _ Hreach Hmap) as (Hwf & Hs & Hsz & _ & Hlaw).
  split.
  { intros map ko vo [->|[->| ->]]; [done| |].
    - by destruct map.
    - by destruct map, ko. }
  destruct (hit (compare_keys r) k cs) eqn:Hhit.
  - destruct (hit_true _ _ _ Hhit) as (c & cs2 & Hfrom & Hcmp).
    destruct (mapPut_found _ _ _ _ _ _ v _ _ Hmap Hfrom Hcmp) as (nx & Hc & Heq).
    eexists _, _. split; [exact Heq|]. split.
    + intros _. simpl. by destruct (next_ok (oracle w)).
    + intros Hno. apply (hit_not _ _ k _ Hlaw Hs) in Hno. congruence.
  - destruct (mapPut_absent _ _ _ _ _ _ v Hmap Hhit (wf_fresh _ Hwf))
      as (pd & pk & Hprev & Heq).
    replace ((INT_MIN <=? size r + 1)%Z && (size r + 1 <=? INT_MAX)%Z) with true in Heq.
    2:{ symmetry. apply andb_true_iff. unfold INT_MIN, INT_MAX in *.
        split; apply Z.leb_le; lia. }
    assert (∃ x w', mapPut (Some m) (Some k) (Some v) w = Done x w' ∧
              x = if allocs_ok 3 (oracle w) then MAP_SUCCESS else MAP_OUT_OF_MEMORY)
      as (x & w' & Hput & Hx).
    { rewrite Heq. simpl. rewrite andb_true_r.
      destruct (next_ok (oracle w)); [|by eexists _, _].
      destruct (next_ok (tail (oracle w)) && next_ok (tail (tail (oracle w))));
        by eexists _, _. }
    exists x, w'. split; [done|]. split; [|done].
    intros Hex. apply (hit_iff _ _ k _ Hlaw Hs) in Hex. congruence.
Qed.

(** X10.  Clear returns the null-argument code for a null map.  On a map it
    returns success and leaves the map empty and usable: the chain has no
    node, GetSize returns 0, GetFirst returns null, and every key is absent
    for Contains and Get. *)
Theorem X10_clear_empties_the_map w m r s cs :
  reachable w →
  is_map w m r s cs →
  mapClear None w = Done MAP_NULL_ARGUMENT w ∧
  ∃ w', mapClear (Some m) w = Done MAP_SUCCESS w' ∧
    is_map w' m (with_size 0 r) s [] ∧
    mapGetSize (Some m) w' = Done 0%Z w' ∧
    mapGetFirst (Some m) w' = Done Null w' ∧
    (∀ k, mapContains (Some m) (Some k) w' = Done false w' ∧
          mapGet (Some m) (Some k) w' = Done Null w').
Proof.
  intros Hreach Hmap. split; [done|].
  destruct (mapClear_eq _ _ _ _ _ Hmap) as (sd & sk & nx & Hsn & Heq).
  eexists. split; [exact Heq|].
  match type of Heq with _ = Done _ ?W => set (w' := W) in * end.
  assert (is_map w' m (with_size 0 r) s []) as Hmap'.
  { destruct Hmap as (_ & Hf & _ & Hnd). split; [apply lookup_insert_eq|].
    split; [done|]. split.
    - exists sd, sk, None. split; [apply lookup_insert_eq|done].
    - apply NoDup_singleton. }
  split; [done|]. split; [|split].
  - by rewrite (mapGetSize_eq _ _ _ (proj1 Hmap')).
  - by rewrite (mapGetFirst_eq _ _ _ _ _ Hmap').
  - intros k. split.
    + by rewrite (mapContains_eq _ _ _ _ _ k Hmap').
    + by rewrite (mapGet_eq _ _ _ _ _ k Hmap').
Qed.

(** X11.  Clear frees every node of the chain and no other: the nodes of
    the chain are no longer allocated, the dummy first node stays, every
    other node of the heap and every other map are as they were, and the
    calls made are one of free-data and one of free-key for each node, in
    the order of the chain. *)
Theorem X11_clear_frees_every_node w m r s cs :
  reachable w →
  is_map w m r s cs →
  ∃ w', mapClear (Some m) w = Done MAP_SUCCESS w' ∧
    (∀ l, l ∈ locs cs → nodes w' !! l = None) ∧
    is_Some (nodes w' !! s) ∧
    (∀ l, l ∉ fp s cs → nodes w' !! l = nodes w !! l) ∧
    trace w' =
      trace w ++ flat_map (λ c, [FreeData (cdata c); FreeKey (Some (ckey c))]) cs ∧
    (∀ m2 r2 s2 cs2, m2 ≠ m → is_map w m2 r2 s2 cs2 → is_map w' m2 r2 s2 cs2).
Proof.
  intros Hreach Hmap. apply reachable_wf in Hreach.
  destruct (mapClear_eq _ _ _ _ _ Hmap) as (sd & sk & nx & Hsn & Heq).
  eexists. split; [exact Heq|].
  destruct (mapClear_keeps _ _ _ _ Hreach Heq) as [_ Hkept].
  pose proof Hmap as (_ & _ & _ & Hnd). apply NoDup_cons in Hnd as [Hs_ni _].
  simpl. split; [|split; [|split; [|split; [done|]]]].
  - intros l Hl. rewrite lookup_insert_ne by (by intros <-).
    destruct (delete_all (locs cs) (nodes w) !! l) eqn:E; [|done].
    by destruct (lookup_delete_all_is_Some _ _ _ (mk_is_Some _ _ E)).
  - rewrite lookup_insert_eq. by eexists.
  - intros l Hl. apply not_elem_of_cons in Hl as [Hne Hl].
    by rewrite lookup_insert_ne, lookup_delete_all_ne.
  - intros m2 r2 s2 cs2 Hne. apply Hkept. congruence.
Qed.

(** X12.  Clear does not write the iterator.  When an enumeration is at a
    node of the chain, Clear frees that node and leaves the iterator pointing
    to it, and the next GetNext reads the freed node. *)
Theorem X12_clear_leaves_iterator_dangling w m r s cs l :
  reachable w →
  is_map w m r s cs →
  iterator r = Some l → l ∈ locs cs →
  ∃ w' r', mapClear (Some m) w = Done MAP_SUCCESS w' ∧
    maps w' !! m = Some (Some r') ∧ iterator r' = Some l ∧
    nodes w' !! l = None ∧
    mapGetNext (Some m) w' = Fault.
Proof.
  intros Hreach Hmap Hit Hl.
  destruct (mapClear_eq _ _ _ _ _ Hmap) as (sd & sk & nx & Hsn & Heq).
  pose proof Hmap as (_ & _ & _ & Hnd). apply NoDup_cons in Hnd as [Hs_ni _].
  eexists _, (with_size 0 r). split; [exact Heq|].
  match type of Heq with _ = Done _ ?W => set (w' := W) in * end.
  assert (maps w' !! m = Some (Some (with_size 0 r))) as Hm' by apply lookup_insert_eq.
  assert (nodes w' !! l = None) as Hl'.
  { unfold w'. simpl. rewrite lookup_insert_ne by (by intros <-).
    destruct (delete_all (locs cs) (nodes w) !! l) eqn:E; [|done].
    by destruct (lookup_delete_all_is_Some _ _ _ (mk_is_Some _ _ E)). }
  split; [done|]. split; [done|]. split; [done|].
  by apply (mapGetNext_dangling w' m (with_size 0 r) l).
Qed.

(** X13.  Destroy does nothing for a null map.  On a map it frees the
    record, the dummy first node and every node of the chain, after one call
    of free-data and one of free-key for each node of the chain; every other
    node and every other map record are as they were. *)
Theorem X13_destroy_frees_the_map w m r s cs :
  reachable w →
  is_map w m r s cs →
  mapDestroy None w = Done tt w ∧
  ∃ w', mapDestroy (Some m) w = Done tt w' ∧
    maps w' !! m = None ∧
    (∀ l, l ∈ fp s cs → nodes w' !! l = None) ∧
    (∀ l, l ∉ fp s cs → nodes w' !! l = nodes w !! l) ∧
    (∀ m', m' ≠ m → maps w' !! m' = maps w !! m') ∧
    trace w' =
      trace w ++ flat_map (λ c, [FreeData (cdata c); FreeKey (Some (ckey c))]) cs.
Proof.
  intros Hreach Hmap. split; [done|].
  eexists. split; [exact (mapDestroy_eq _ _ _ _ _ Hmap)|]. simpl.
  split; [apply lookup_delete_eq|]. split; [|split; [|split; [|done]]].
  - intros l [->|Hl]%elem_of_cons; [apply lookup_delete_eq|].
    destruct (delete s (delete_all (locs cs) (nodes w)) !! l) eqn:E; [|done].
    apply mk_is_Some, lookup_delete_is_Some in E as [_ E].
    by destruct (lookup_delete_all_is_Some _ _ _ E).
  - intros l Hl. apply not_elem_of_cons in Hl as [Hne Hl].
    by rewrite lookup_delete_ne, lookup_delete_all_ne.
  - intros m' Hne. by rewrite lookup_delete_ne.
Qed.

(** X14.  In every reachable state the enumeration of a map (GetFirst,
    then GetNext until it returns null) returns the keys of the chain from
    first to last: they are strictly increasing under the comparison, there
    are as many as GetSize returns, and Contains is true of each. *)
Theorem X14_enumeration_lists_the_chain w m r s cs :
  reachable w →
  is_map w m r s cs →
  ∃ w', enumerate (Some m) w = Done (At <$> keys cs) w' ∧
    StronglySorted (key_lt (compare_keys r)) (keys cs) ∧
    mapGetSize (Some m) w = Done (Z.of_nat (length (keys cs))) w ∧
    (∀ k, k ∈ keys cs → mapContains (Some m) (Some k) w = Done true w).
Proof.
  intros Hreach Hmap.
  destruct (reachable_good _ _ _ _ _ Hreach Hmap) as (Hwf & Hs & Hsz & _ & Hlaw).
  destruct (enumerate_spec _ _ _ _ _ Hmap) as (w' & Henum).
  exists w'. split; [|split; [done|split]].
  - rewrite Henum. f_equal. unfold keys. by rewrite <- list_fmap_compose.
  - rewrite (mapGetSize_eq _ _ _ (proj1 Hmap)), Hsz. unfold keys. by rewrite length_fmap.
  - intros k Hk. unfold keys in Hk. apply list_elem_of_fmap in Hk as (c & -> & Hc).
    rewrite (mapContains_eq _ _ _ _ _ (ckey c) Hmap). f_equal.
    apply (hit_iff _ _ _ _ Hlaw Hs). exists c. split; [done|].
    apply (cmp_refl _ _ _ Hlaw).
Qed.

(** X15.  The search [findPrevNode] splits the chain at the place of the
    key: the nodes it walks past have keys below the key, the nodes from
    where it stops have keys not below it, the node it leaves in
    [*prev_node] is the last node walked past (the dummy first node when
    there is none) and points to the rest of the chain; it returns true
    exactly when a node has a key that compares equal.  It changes
    nothing. *)
Theorem X15_search_stops_at_the_place_of_the_key w m r s cs k :
  reachable w →
  is_map w m r s cs →
  ∃ found prev cs1 cs2 pd pk,
    findPrevNode m (At k) w = Done (found, Some prev) w ∧
    cs = cs1 ++ cs2 ∧
    (∀ c, c ∈ cs1 → (0 < compare_keys r k (ckey c))%Z) ∧
    (∀ c, c ∈ cs2 → (compare_keys r k (ckey c) ≤ 0)%Z) ∧
    prev = default s (last (locs cs1)) ∧
    nodes w !! prev = Some (Node pd pk (of_option (head (locs cs2)))) ∧
    (found = true ↔ ∃ c, c ∈ cs ∧ compare_keys r k (ckey c) = 0%Z).
Proof.
  intros Hreach Hmap.
  destruct (reachable_good _ _ _ _ _ Hreach Hmap) as (Hwf & Hs & _ & _ & Hlaw).
  pose proof Hmap as (_ & _ & (sd & sk & nx & Hsn & Hseg) & Hnd).
  apply NoDup_cons in Hnd as [Hs_ni Hnd].
  destruct (relink (nodes w) (compare_keys r) k cs s sd sk nx Hsn Hseg Hs_ni Hnd)
    as (pd & pk & Hprev & _).
  exists (hit (compare_keys r) k cs), (prev_of (compare_keys r) k s cs),
    (before (compare_keys r) k cs), (from (compare_keys r) k cs), pd, pk.
  split; [by apply findPrevNode_spec|]. split; [by rewrite before_from|].
  split; [intros c; apply before_gt|]. split; [intros c; by apply (from_below _ _ _ _ _ Hlaw)|].
  split; [apply prev_of_last|]. split; [done|].
  apply (hit_iff _ _ _ _ Hlaw Hs).
Qed.

(** X16.  Create with its five functions present returns null when the
    record or the dummy first node cannot be allocated, and then leaves
    nothing allocated: the record is freed when the node allocation fails,
    and no function of the client is called. *)
Theorem X16_create_out_of_memory w cd ck fd fk cmp :
  reachable w →
  allocs_ok 2 (oracle w) = false →
  ∃ w', mapCreate (Some cd) (Some ck) (Some fd) (Some fk) (Some cmp) w = Done None w' ∧
    nodes w' = nodes w ∧ maps w' = maps w ∧ trace w' = trace w.
Proof.
  intros Hreach Hfail. apply reachable_wf in Hreach.
  rewrite (mapCreate_eq _ _ _ _ _ _ (wf_fresh_map _ Hreach)).
  simpl in Hfail. rewrite andb_true_r in Hfail.
  destruct (next_ok (oracle w)); [|by eexists].
  destruct (next_ok (tail (oracle w))); [done|by eexists].
Qed.

(** X17.  Copy returns null, and changes nothing, for a null map; when the
    record or the dummy first node of the duplicate cannot be allocated it
    returns null with the node heap and the map records as they were and
    without a call of a function of the client. *)
Theorem X17_copy_without_memory_for_the_record w m r s cs :
  reachable w →
  is_map w m r s cs →
  mapCopy None w = Done None w ∧
  (allocs_ok 2 (oracle w) = false →
   ∃ w', mapCopy (Some m) w = Done None w' ∧
         nodes w' = nodes w ∧ maps w' = maps w ∧ trace w' = trace w).
Proof.
  intros Hreach Hmap. apply reachable_wf in Hreach. split; [done|].
  intros Hfail. by apply (mapCopy_create_fails w m r Hreach (proj1 Hmap)).
Qed.

(** X18.  Copy of a map of [n] nodes, none of which holds a null data
    pointer, returns a duplicate when its [2 + 3 n] allocations succeed (the
    record, the dummy node, [n] nodes and [2 n] copies).  It calls copy-data
    and then copy-key once for each node, in the order of the chain, and
    calls no free function; the duplicate has the size of the source. *)
Theorem X18_copy_succeeds_when_allocations_do w m r s cs :
  reachable w →
  is_map w m r s cs →
  Forall (λ c, is_Some (cdata c)) cs →
  allocs_ok (2 + 3 * length cs) (oracle w) = true →
  ∃ mc w', mapCopy (Some m) w = Done (Some mc) w' ∧
    trace w' = trace w ++ copy_events cs ∧
    mapGetSize (Some mc) w' = Done (size r) w' ∧
    mapGetSize (Some m) w' = Done (size r) w'.
Proof.
  intros Hreach Hmap Hall Hok.
  destruct (reachable_good _ _ _ _ _ Hreach Hmap) as (Hwf & Hgood).
  destruct (mapCopy_ok _ _ _ _ _ Hwf Hmap Hgood Hall Hok) as (w' & Heq & Htr).
  exists (brk w), w'. split; [done|]. split; [done|].
  destruct (ensures_inv _ _ _ _ (mapCopy_spec _ _ _ _ _ Hwf Hmap Hgood) Heq)
    as (_ & _ & Hmap' & sc & ls & Hmapc & _).
  split.
  - by rewrite (mapGetSize_eq _ _ _ (proj1 Hmapc)).
  - by rewrite (mapGetSize_eq _ _ _ (proj1 Hmap')).
Qed.

(** X19.  Copy, when it returns, has written fresh memory only: every node
    that was allocated before is as it was, and so is every other map
    record; of the source only the iterator changes, set to null when the
    duplicate is returned and kept when null is returned. *)
Theorem X19_copy_writes_fresh_memory_only w m r s cs res w' :
  reachable w →
  is_map w m r s cs →
  mapCopy (Some m) w = Done res w' →
  (∀ l n, nodes w !! l = Some n → nodes w' !! l = Some n) ∧
  (∀ m' r', m' ≠ m → maps w !! m' = Some (Some r') → maps w' !! m' = Some (Some r')) ∧
  is_map w' m (match res with Some _ => with_iterator None r | None => r end) s cs.
Proof.
  intros Hreach Hmap Hcopy.
  destruct (reachable_good _ _ _ _ _ Hreach Hmap) as (Hwf & Hgood).
  destruct (ensures_inv _ _ _ _ (mapCopy_frame _ _ _ _ _ Hwf Hmap Hgood) Hcopy)
    as (Hfr & Hother & Hm').
  split; [|split].
  - intros l n Hl. rewrite Hfr; [done|]. apply (wf_nodes _ Hwf). by eexists.
  - intros m' r' Hne Hl. rewrite Hother; [done|done|].
    apply (wf_cells _ Hwf). by eexists.
  - eapply (is_map_frame
              (set_maps (insert m (Some (match res with
                                         | Some _ => with_iterator None r
                                         | None => r
                                         end))) w) w'); [exact Hm'| |].
    + intros l Hl. simpl. apply Hfr, (wf_nodes _ Hwf). by eapply is_map_lookup.
    + eapply (is_map_set_record w); [exact Hmap|done| |by destruct res].
      simpl. apply lookup_insert_eq.
Qed.

(** X20.  When [createNewList] cannot allocate a node after it allocated
    [j] of them, Copy returns null with the records and the old nodes as
    they were and without calling a function of the client, but only the
    node allocated last was freed: for [j] of 2 or more, the nodes allocated
    before it stay allocated, and nothing points to them. *)
Theorem X20_failed_list_allocation_leaks_nodes w m r s cs j :
  reachable w →
  is_map w m r s cs →
  2 ≤ j < length cs →
  allocs_ok (2 + j) (oracle w) = true →
  next_ok (drop (2 + j) (oracle w)) = false →
  ∃ w', mapCopy (Some m) w = Done None w' ∧
    maps w' = maps w ∧ trace w' = trace w ∧
    (∀ l, (l < brk w)%positive → nodes w' !! l = nodes w !! l) ∧
    (Z.pos (brk w') = Z.pos (brk w) + 2 + Z.of_nat j)%Z ∧
    (∀ l, (Pos.succ (Pos.succ (brk w)) ≤ l)%positive → (Pos.succ l < brk w')%positive →
          nodes w !! l = None ∧ is_Some (nodes w' !! l)) ∧
    is_Some (nodes w' !! Pos.succ (Pos.succ (brk w))).
Proof.
  intros Hreach Hmap [Hj1 Hj2] Hok Hfail.
  destruct (reachable_good _ _ _ _ _ Hreach Hmap) as (Hwf & Hgood).
  destruct (mapCopy_list_fails _ _ _ _ _ j Hwf Hmap Hgood Hj2 Hok Hfail)
    as (w' & Heq & Hm' & Ht' & Hb' & Hfr & _ & _ & Hkept).
  exists w'. split; [done|]. split; [done|]. split; [done|]. split; [done|].
  split; [done|]. split.
  - intros l Hl1 Hl2. split; [|by apply Hkept].
    destruct (nodes w !! l) eqn:E; [|done].
    pose proof (wf_nodes _ Hwf _ (mk_is_Some _ _ E)). lia.
  - apply Hkept; lia.
Qed.

(** X21.  A call on one map leaves every other map as it is: after Put,
    Remove, Clear, Destroy, Copy, GetFirst or GetNext on a map, whatever the
    call returns, every other map has the record and the chain it had. *)
Theorem X21_calls_leave_the_other_maps w m m2 r2 s2 cs2 :
  reachable w →
  m2 ≠ m →
  is_map w m2 r2 s2 cs2 →
  (∀ ko vo x w', mapPut (Some m) ko vo w = Done x w' → is_map w' m2 r2 s2 cs2) ∧
  (∀ ko x w', mapRemove (Some m) ko w = Done x w' → is_map w' m2 r2 s2 cs2) ∧
  (∀ x w', mapClear (Some m) w = Done x w' → is_map w' m2 r2 s2 cs2) ∧
  (∀ x w', mapDestroy (Some m) w = Done x w' → is_map w' m2 r2 s2 cs2) ∧
  (∀ x w', mapCopy (Some m) w = Done x w' → is_map w' m2 r2 s2 cs2) ∧
  (∀ x w', mapGetFirst (Some m) w = Done x w' → is_map w' m2 r2 s2 cs2) ∧
  (∀ x w', mapGetNext (Some m) w = Done x w' → is_map w' m2 r2 s2 cs2).
Proof.
  intros Hreach Hne Hmap2. apply reachable_wf in Hreach.
  assert (Some m ≠ Some m2) as Hne' by congruence.
  split; [|split; [|split; [|split; [|split; [|split]]]]].
  - intros ko vo x w' H.
    by apply (proj2 (mapPut_keeps _ _ _ _ _ _ Hreach H) m2 r2 s2 cs2).
  - intros ko x w' H.
    by apply (proj2 (mapRemove_keeps _ _ _ _ _ Hreach H) m2 r2 s2 cs2).
  - intros x w' H. by apply (proj2 (mapClear_keeps _ _ _ _ Hreach H) m2 r2 s2 cs2).
  - intros x w' H. by apply (mapDestroy_keeps _ _ _ _ Hreach H m2 r2 s2 cs2).
  - intros x w' H. by apply (mapCopy_keeps _ _ _ _ Hreach H m2 r2 s2 cs2).
  - intros x w' H. by apply (mapGetFirst_keeps _ _ _ _ H m2 r2 s2 cs2).
  - intros x w' H. by apply (mapGetNext_keeps _ _ _ _ H m2 r2 s2 cs2).
Qed.

(** X22.  A Put of a key the map holds whose copy of the data fails returns
    the out-of-memory code after the old data was given to free-data, and
    leaves the node of the key with a null data pointer: the key is still
    contained, the size is the same, and Get of the key returns null. *)
Theorem X22_failed_replacement_leaves_null_data w m r s cs k v c :
  reachable w →
  is_map w m r s cs →
  c ∈ cs → compare_keys r k (ckey c) = 0%Z →
  next_ok (oracle w) = false →
  ∃ w', mapPut (Some m) (Some k) (Some v) w = Done MAP_OUT_OF_MEMORY w' ∧
    trace w' = trace w ++ [FreeData (cdata c); CopyData v false] ∧
    (∃ nx, nodes w' !! cloc c = Some (Node Null (At (ckey c)) nx)) ∧
    mapContains (Some m) (Some k) w' = Done true w' ∧
    mapGet (Some m) (Some k) w' = Done Null w' ∧
    mapGetSize (Some m) w' = Done (size r) w'.
Proof.
  intros Hreach Hmap Hin Hc Hfail.
  destruct (reachable_good _ _ _ _ _ Hreach Hmap) as (Hwf & Hs & _ & _ & Hlaw).
  destruct (from_unique _ _ k _ c Hlaw Hs Hin Hc) as (cs2 & Hfrom).
  destruct (mapPut_found _ _ _ _ _ _ v _ _ Hmap Hfrom Hc) as (nx & Hn & Heq).
  rewrite Hfail in Heq. simpl in Heq.
  eexists. split; [exact Heq|].
  match type of Heq with _ = Done _ ?W => set (w' := W) in * end.
  pose proof (before_from (compare_keys r) k cs) as Hcs. rewrite Hfrom in Hcs.
  assert (is_map w' m r s (before (compare_keys r) k cs ++ (cloc c, ckey c, None) :: cs2))
    as Hmap'.
  { eapply (is_map_set_data w w' m r r s _ c cs2 nx None);
      [by rewrite Hcs|done|done|apply Hmap|done]. }
  assert (from (compare_keys r) k
            (before (compare_keys r) k cs ++ (cloc c, ckey c, None) :: cs2) =
          (cloc c, ckey c, None) :: cs2) as Hfrom'.
  { rewrite from_before_app. cbn [from].
    by replace (compare_keys r k (ckey (cloc c, ckey c, None))) with 0%Z
      by (symmetry; exact Hc). }
  split; [done|]. split; [|split; [|split]].
  - exists (of_option nx). unfold w'. simpl. by rewrite lookup_insert_eq.
  - rewrite (mapContains_eq _ _ _ _ _ k Hmap'). unfold hit. rewrite Hfrom'.
    by replace (compare_keys r k (ckey (cloc c, ckey c, None))) with 0%Z
      by (symmetry; exact Hc).
  - by rewrite (mapGet_found _ _ _ _ _ _ _ _ Hmap' Hfrom' Hc).
  - by rewrite (mapGetSize_eq _ _ _ (proj1 Hmap')).
Qed.

End Further.

(** * The claims on the integer map *)

Lemma zlawful : lawful zcompare zcopy.
Proof.
  split; unfold zcompare, zcopy; intros; lia.
Qed.

Ltac zeval := vm_compute; reflexivity.

Ltac zreach :=
  lazymatch goal with
  | |- reachable (init_world _) => apply reach_init
  | |- reachable (zw_new ?o) =>
      apply (reach_mapCreate (init_world o) (Some zcopy) (Some zcopy) (Some zfree)
               (Some zfree) (Some zcompare) (Some 1%positive));
      [apply reach_init | intros ? ? [= <-] [= <-]; apply zlawful | zeval]
  | |- reachable (zw_one ?o) =>
      apply (reach_mapPut (zw_new o) (Some 1%positive) (Some 1%Z) (Some 10%Z) MAP_SUCCESS);
      [zreach | zeval]
  | |- reachable (zw_two ?o) =>
      apply (reach_mapPut (zw_one o) (Some 1%positive) (Some 2%Z) (Some 20%Z) MAP_SUCCESS);
      [zreach | zeval]
  | |- reachable (zw_enum ?o) =>
      apply (reach_mapGetFirst (zw_two o) (Some 1%positive) (At 1%Z));
      [zreach | zeval]
  end.

Ltac znodup :=
  lazymatch goal with
  | |- NoDup ?l => apply (bool_decide_eq_true_1 (NoDup l)); zeval
  end.

Lemma zw_one_is_map :
  is_map (zw_one []) 1 (zrecord None 1) 2 [(3%positive, 1%Z, Some 10%Z)].
Proof.
  split; [zeval|]. split; [reflexivity|]. split; [|znodup].
  exists Null, Null, (Some 3%positive). split; [zeval|].
  simpl. split; [reflexivity|]. exists None. split; [zeval|reflexivity].
Qed.

Lemma zw_two_is_map :
  is_map (zw_two []) 1 (zrecord None 2) 2
         [(3%positive, 1%Z, Some 10%Z); (4%positive, 2%Z, Some 20%Z)].
Proof.
  split; [zeval|]. split; [reflexivity|]. split; [|znodup].
  exists Null, Null, (Some 3%positive). split; [zeval|].
  simpl. split; [reflexivity|]. exists (Some 4%positive). split; [zeval|].
  split; [reflexivity|]. exists None. split; [zeval|reflexivity].
Qed.

Lemma zw_two_reach : reachable (zw_two []).
Proof. zreach. Qed.

Lemma C1_witness :
  reachable (zw_enum []) ∧
  mapRemove (Some 1%positive) (Some 1%Z) (zw_enum []) = Done MAP_SUCCESS zw_removed ∧
  getNext_times 2 (Some 1%positive) zw_removed = Done (replicate 2 Null) zw_removed.
Proof.
  split; [zreach|]. split; [zeval|].
  apply (C1_success_ends_enumeration (zw_enum []) 1%positive zw_removed 2); [zreach|].
  right. left. exists (Some 1%Z). zeval.
Defined.

(** C1, as stated, fails.  With the enumeration of the map with keys 1 and 2
    at its first key, a Remove of the absent key 5 returns the
    item-does-not-exist code and the next GetNext returns the key 2; after a
    Clear the iterator still points to the freed first node, and the next
    GetNext uses it. *)
Lemma C1_counterexample :
  mapGetFirst (Some 1%positive) (zw_two []) = Done (At 1%Z) (zw_enum []) ∧
  mapRemove (Some 1%positive) (Some 5%Z) (zw_enum []) =
    Done MAP_ITEM_DOES_NOT_EXIST (zw_enum []) ∧
  (∃ w, mapGetNext (Some 1%positive) (zw_enum []) = Done (At 2%Z) w) ∧
  (∃ w, mapClear (Some 1%positive) (zw_enum []) = Done MAP_SUCCESS w ∧
        mapGetNext (Some 1%positive) w = Fault).
Proof.
  split; [zeval|]. split; [zeval|]. split.
  - eexists. zeval.
  - eexists. split; zeval.
Qed.

(** C2.  The code does not keep the old value when the copy of the new value
    fails: in the map holding 1 -> 10, a Put of 1 -> 11 whose copy fails
    returns the out-of-memory code after the old value was given to
    free-data, and the node of key 1 is left with a null data pointer: the key
    is still contained and Get returns none. *)
Theorem C2_failed_copy_loses_old_value :
  mapGet (Some 1%positive) (Some 1%Z) (zw_one zo_put_fails) =
    Done (At 10%Z) (zw_one zo_put_fails) ∧
  ∃ w', mapPut (Some 1%positive) (Some 1%Z) (Some 11%Z) (zw_one zo_put_fails) =
          Done MAP_OUT_OF_MEMORY w' ∧
        mapContains (Some 1%positive) (Some 1%Z) w' = Done true w' ∧
        mapGet (Some 1%positive) (Some 1%Z) w' = Done Null w' ∧
        trace w' = trace (zw_one zo_put_fails) ++
                   [FreeData (Some 10%Z); CopyData 11%Z false].
Proof.
  split; [zeval|]. eexists. split; [zeval|]. split; [zeval|]. split; zeval.
Qed.

Lemma C3_witness :
  reachable (zw_two []) ∧
  maps (zw_two []) !! 1%positive = Some (Some (zrecord None 2)) ∧
  ∃ s cs,
    is_map (zw_two []) 1 (zrecord None 2) s cs ∧
    StronglySorted (key_lt zcompare) (keys cs) ∧
    (∀ i j ki kj, i ≠ j → keys cs !! i = Some ki → keys cs !! j = Some kj →
                  zcompare ki kj ≠ 0%Z) ∧
    2%Z = Z.of_nat (length cs).
Proof.
  split; [zreach|]. split; [zeval|].
  apply (C3_chain_sorted_and_counted (zw_two []) 1%positive (zrecord None 2));
    [zreach|zeval].
Defined.

Lemma C4_witness :
  reachable (init_world (K:=Z) (V:=Z) []) ∧
  lawful zcompare zcopy ∧
  zcreate (init_world []) = Done (Some 1%positive) (zw_new []) ∧
  put_all (Some 1%positive) zpairs (zw_new []) =
    Done [MAP_SUCCESS; MAP_SUCCESS; MAP_SUCCESS] zw_puts ∧
  ∃ ks w3,
    enumerate (Some 1%positive) zw_puts = Done (At <$> ks) w3 ∧
    StronglySorted (key_lt zcompare) ks ∧
    (∀ i j ki kj, i ≠ j → ks !! i = Some ki → ks !! j = Some kj →
                  zcompare ki kj ≠ 0%Z) ∧
    mapGetSize (Some 1%positive) zw_puts = Done (Z.of_nat (length ks)) zw_puts.
Proof.
  split; [apply reach_init|]. split; [apply zlawful|]. split; [zeval|]. split; [zeval|].
  apply (C4_enumeration_after_puts (init_world []) zcopy zcopy zfree zfree zcompare
           1%positive (zw_new []) zpairs [MAP_SUCCESS; MAP_SUCCESS; MAP_SUCCESS] zw_puts);
    [apply reach_init|apply zlawful|zeval|zeval].
Defined.

Lemma C5_witness :
  reachable (zw_one []) ∧
  is_map (zw_one []) 1 (zrecord None 1) 2 [(3%positive, 1%Z, Some 10%Z)] ∧
  mapPut (Some 1%positive) (Some 1%Z) (Some 11%Z) (zw_one []) =
    Done MAP_SUCCESS zw_replaced ∧
  mapGetSize (Some 1%positive) zw_replaced = Done 1%Z zw_replaced ∧
  mapGet (Some 1%positive) (Some 1%Z) zw_replaced = Done (At 11%Z) zw_replaced.
Proof.
  split; [zreach|]. split; [apply zw_one_is_map|]. split; [zeval|].
  destruct (C5_put_replaces_or_adds (zw_one []) 1%positive (zrecord None 1) 2%positive
              [(3%positive, 1%Z, Some 10%Z)] 1%Z 11%Z zw_replaced)
    as [Hpresent _]; [zreach|apply zw_one_is_map|zeval|].
  destruct Hpresent as (Hsize & Hget & _).
  - exists (3%positive, 1%Z, Some 10%Z). split; [apply list_elem_of_here|reflexivity].
  - split; [exact Hsize|exact Hget].
Defined.

Lemma C6_witness :
  reachable (zw_two []) ∧
  is_map (zw_two []) 1 (zrecord None 2) 2
         [(3%positive, 1%Z, Some 10%Z); (4%positive, 2%Z, Some 20%Z)] ∧
  mapRemove None (Some 2%Z) (zw_two []) = Done MAP_NULL_ARGUMENT (zw_two []) ∧
  ∃ w', mapRemove (Some 1%positive) (Some 2%Z) (zw_two []) = Done MAP_SUCCESS w' ∧
        mapGetSize (Some 1%positive) w' = Done 1%Z w' ∧
        mapContains (Some 1%positive) (Some 2%Z) w' = Done false w'.
Proof.
  split; [zreach|]. split; [apply zw_two_is_map|].
  destruct (C6_remove (zw_two []) 1%positive (zrecord None 2) 2%positive
              [(3%positive, 1%Z, Some 10%Z); (4%positive, 2%Z, Some 20%Z)] 2%Z)
    as (Hnull & _ & Hpresent); [zreach|apply zw_two_is_map|].
  split; [apply Hnull; by left|].
  apply Hpresent. exists (4%positive, 2%Z, Some 20%Z).
  split; [apply list_elem_of_further, list_elem_of_here|reflexivity].
Defined.

Lemma C7_witness :
  reachable (zw_two []) ∧
  is_map (zw_two []) 1 (zrecord None 2) 2
         [(3%positive, 1%Z, Some 10%Z); (4%positive, 2%Z, Some 20%Z)] ∧
  mapCopy (Some 1%positive) (zw_two []) = Done (Some 5%positive) zw_copied ∧
  ∃ rc sc ccs,
    is_map zw_copied 5 rc sc ccs ∧
    mapGetSize (Some 5%positive) zw_copied = Done 2%Z zw_copied ∧
    keys ccs = [1%Z; 2%Z] ∧
    (cdata <$> ccs) = [Some 10%Z; Some 20%Z] ∧
    (∀ ko vo x w'', mapPut (Some 5%positive) ko vo zw_copied = Done x w'' →
       is_map w'' 1 (zrecord None 2) 2
              [(3%positive, 1%Z, Some 10%Z); (4%positive, 2%Z, Some 20%Z)]).
Proof.
  split; [zreach|]. split; [apply zw_two_is_map|]. split; [zeval|].
  destruct (C7_copy_is_equal_and_independent (zw_two []) 1%positive (zrecord None 2)
              2%positive [(3%positive, 1%Z, Some 10%Z); (4%positive, 2%Z, Some 20%Z)]
              5%positive zw_copied)
    as (_ & _ & rc & sc & ccs & Hmap & _ & Hsize & Hkeys & _ & Hdata & _ & Hput & _);
    [zreach|apply zw_two_is_map|zeval|].
  exists rc, sc, ccs. split; [exact Hmap|]. split; [exact Hsize|].
  split; [exact Hkeys|]. split; [exact Hdata|]. exact Hput.
Defined.

(** C8.  The code does not fail cleanly when a copy fails before the last
    node: in a Copy of the map with keys 1 and 2 whose first copy of a value
    fails, [freeList] goes through the new chain and gives the key and data
    of its second node, which [createNewList] left indeterminate, to the free
    functions. *)
Theorem C8_failed_copy_frees_indeterminate :
  mapCopy (Some 1%positive) (zw_two zo_copy_fails) = Fault.
Proof. zeval. Qed.

Lemma C9_witness :
  reachable (init_world (K:=Z) (V:=Z) []) ∧
  mapCreate (Some zcopy) None (Some zfree) (Some zfree) (Some zcompare) (init_world []) =
    Done None (init_world []) ∧
  ∃ m w', zcreate (init_world []) = Done (Some m) w' ∧
          mapGetSize (Some m) w' = Done 0%Z w' ∧
          mapGetFirst (Some m) w' = Done Null w'.
Proof.
  split; [apply reach_init|].
  split.
  - apply (C9_create (init_world []) (Some zcopy) None (Some zfree) (Some zfree)
             (Some zcompare)); [apply reach_init|]. right. by left.
  - apply (C9_create (init_world []) (Some zcopy) (Some zcopy) (Some zfree) (Some zfree)
             (Some zcompare)); [apply reach_init|by eexists..|reflexivity|reflexivity].
Defined.

Lemma C10_witness :
  reachable (zw_one []) ∧
  is_map (zw_one []) 1 (zrecord None 1) 2 [(3%positive, 1%Z, Some 10%Z)] ∧
  mapPut (Some 1%positive) (Some 1%Z) (Some 11%Z) (zw_one []) =
    Done MAP_SUCCESS zw_replaced ∧
  ∃ d' b nx,
    nodes zw_replaced = <[3%positive := node_of (3%positive, 1%Z, d') nx]> (nodes (zw_one [])) ∧
    trace zw_replaced = trace (zw_one []) ++ [FreeData (Some 10%Z); CopyData 11%Z b].
Proof.
  split; [zreach|]. split; [apply zw_one_is_map|]. split; [zeval|].
  destruct (C10_put_present_changes_value_only (zw_one []) 1%positive (zrecord None 1)
              2%positive [(3%positive, 1%Z, Some 10%Z)] 1%Z 11%Z
              (3%positive, 1%Z, Some 10%Z) MAP_SUCCESS zw_replaced)
    as (d' & b & nx & _ & _ & _ & _ & _ & Hnodes & Htrace & _);
    [zreach|apply zw_one_is_map|apply list_elem_of_here|reflexivity|zeval|].
  exists d', b, nx. split; [exact Hnodes|exact Htrace].
Defined.

(** * The further properties on the integer map *)

Ltac zin := repeat first [apply list_elem_of_here | apply list_elem_of_further].

Ltac zall :=
  let c := fresh "c" in
  let H := fresh "H" in
  let E := fresh "E" in
  intros c H;
  repeat (apply elem_of_cons in H as [->|H]; [vm_compute; intros E; discriminate E|]);
  destruct (not_elem_of_nil _ H).

Lemma zw_enum_is_map : is_map (zw_enum []) 1 (zrecord (Some 3%positive) 2) 2 zcells2.
Proof.
  split; [zeval|]. split; [reflexivity|]. split; [|znodup].
  exists Null, Null, (Some 3%positive). split; [zeval|].
  cbv [zcells1 zcells2 zcells3]. cbn [seg]. split; [reflexivity|]. exists (Some 4%positive). split; [zeval|].
  split; [reflexivity|]. exists None. split; [zeval|reflexivity].
Qed.

Lemma zw_one_full_is_map : is_map (zw_one zo_put_fails) 1 (zrecord None 1) 2 zcells1.
Proof.
  split; [zeval|]. split; [reflexivity|]. split; [|znodup].
  exists Null, Null, (Some 3%positive). split; [zeval|].
  cbv [zcells1 zcells2 zcells3]. cbn [seg]. split; [reflexivity|]. exists None. split; [zeval|reflexivity].
Qed.

Lemma zw_three_is_map : is_map (zw_three zo_list_fails) 1 (zrecord None 3) 2 zcells3.
Proof.
  split; [zeval|]. split; [reflexivity|]. split; [|znodup].
  exists Null, Null, (Some 3%positive). split; [zeval|].
  cbv [zcells1 zcells2 zcells3]. cbn [seg]. split; [reflexivity|]. exists (Some 4%positive). split; [zeval|].
  split; [reflexivity|]. exists (Some 5%positive). split; [zeval|].
  split; [reflexivity|]. exists None. split; [zeval|reflexivity].
Qed.

Lemma zw_three_reach : reachable (zw_three zo_list_fails).
Proof.
  apply (reach_mapPut (zw_two zo_list_fails) (Some 1%positive) (Some 3%Z) (Some 30%Z)
           MAP_SUCCESS); [zreach|zeval].
Qed.

Lemma zw_copied_reach : reachable zw_copied.
Proof.
  apply (reach_mapCopy (zw_two []) (Some 1%positive) (Some 5%positive)); [zreach|zeval].
Qed.

Lemma zw_copied_is_map :
  is_map zw_copied 5 (copy_record (zrecord None 2) 6) 6
         [(8%positive, 1%Z, Some 10%Z); (7%positive, 2%Z, Some 20%Z)].
Proof.
  split; [zeval|]. split; [reflexivity|]. split; [|znodup].
  exists Null, Null, (Some 8%positive). split; [zeval|].
  cbv [zcells1 zcells2 zcells3]. cbn [seg]. split; [reflexivity|]. exists (Some 7%positive). split; [zeval|].
  split; [reflexivity|]. exists None. split; [zeval|reflexivity].
Qed.

Lemma X1_witness :
  mapGetSize (Some 1%positive) (zw_two []) = Done 2%Z (zw_two []) ∧
  mapGetSize None (zw_two []) = Done (-1)%Z (zw_two []).
Proof.
  apply (X1_size_counts_nodes (zw_two []) 1%positive (zrecord None 2) 2%positive zcells2);
    [zreach|apply zw_two_is_map].
Defined.

Lemma X2_witness :
  mapContains (Some 1%positive) (Some 2%Z) (zw_two []) = Done true (zw_two []) ∧
  mapContains (Some 1%positive) (Some 7%Z) (zw_two []) = Done false (zw_two []).
Proof.
  split.
  - destruct (X2_contains_iff_key_in_chain (zw_two []) 1%positive (zrecord None 2)
                2%positive zcells2 2%Z) as (_ & Hin & _); [zreach|apply zw_two_is_map|].
    apply Hin. exists (4%positive, 2%Z, Some 20%Z). split; [zin|reflexivity].
  - destruct (X2_contains_iff_key_in_chain (zw_two []) 1%positive (zrecord None 2)
                2%positive zcells2 7%Z) as (_ & _ & Hout); [zreach|apply zw_two_is_map|].
    apply Hout. zall.
Defined.

Lemma X3_witness :
  mapGet (Some 1%positive) None (zw_two []) = Done Null (zw_two []) ∧
  mapGet (Some 1%positive) (Some 7%Z) (zw_two []) = Done Null (zw_two []) ∧
  mapGet (Some 1%positive) (Some 2%Z) (zw_two []) = Done (At 20%Z) (zw_two []).
Proof.
  split; [|split].
  - destruct (X3_get_returns_stored_pointer (zw_two []) 1%positive (zrecord None 2)
                2%positive zcells2 7%Z) as (Hnull & _ & _); [zreach|apply zw_two_is_map|].
    apply Hnull. right. reflexivity.
  - destruct (X3_get_returns_stored_pointer (zw_two []) 1%positive (zrecord None 2)
                2%positive zcells2 7%Z) as (_ & Hout & _); [zreach|apply zw_two_is_map|].
    apply Hout. zall.
  - destruct (X3_get_returns_stored_pointer (zw_two []) 1%positive (zrecord None 2)
                2%positive zcells2 2%Z) as (_ & _ & Hin); [zreach|apply zw_two_is_map|].
    apply (Hin (4%positive, 2%Z, Some 20%Z)); [zin|reflexivity].
Defined.

Lemma X4_witness :
  mapPut (Some 1%positive) (Some 2%Z) (Some 20%Z) (zw_one []) =
    Done MAP_SUCCESS (zw_two []) ∧
  mapGet (Some 1%positive) (Some 2%Z) (zw_two []) = Done (At 20%Z) (zw_two []) ∧
  mapContains (Some 1%positive) (Some 2%Z) (zw_two []) = Done true (zw_two []).
Proof.
  split; [zeval|].
  apply (X4_put_then_get (zw_one []) 1%positive (zrecord None 1) 2%positive zcells1
           2%Z 20%Z (zw_two [])); [zreach|apply zw_one_is_map|zeval].
Defined.

Lemma X5_witness :
  ∃ d b,
    mapGet (Some 1%positive) (Some 1%Z) (zw_one []) = Done d (zw_one []) ∧
    mapGet (Some 1%positive) (Some 1%Z) (zw_two []) = Done d (zw_two []) ∧
    mapContains (Some 1%positive) (Some 1%Z) (zw_one []) = Done b (zw_one []) ∧
    mapContains (Some 1%positive) (Some 1%Z) (zw_two []) = Done b (zw_two []).
Proof.
  apply (X5_put_keeps_other_keys (zw_one []) 1%positive (zrecord None 1) 2%positive
           zcells1 2%Z 20%Z MAP_SUCCESS (zw_two []) 1%Z);
    [zreach|apply zw_one_is_map|zeval|vm_compute; discriminate].
Defined.

Lemma X6_witness :
  ∃ w', mapRemove (Some 1%positive) (Some 2%Z) (zw_two []) = Done MAP_SUCCESS w' ∧
    mapGet (Some 1%positive) (Some 2%Z) w' = Done Null w' ∧
    nodes w' !! 4%positive = None ∧
    trace w' = trace (zw_two []) ++ [FreeData (Some 20%Z); FreeKey (Some 2%Z)].
Proof.
  destruct (X6_remove_frees_one_node (zw_two []) 1%positive (zrecord None 2) 2%positive
              zcells2 2%Z (4%positive, 2%Z, Some 20%Z))
    as (w' & Hrem & Hget & Hfree & _ & Htrace & _);
    [zreach|apply zw_two_is_map|zin|reflexivity|].
  exists w'. split; [exact Hrem|]. split; [exact Hget|]. split; [exact Hfree|exact Htrace].
Defined.

Lemma X7_witness :
  mapPut (Some 1%positive) (Some 2%Z) (Some 20%Z) (zw_one []) =
    Done MAP_SUCCESS (zw_two []) ∧
  ∃ w2, mapRemove (Some 1%positive) (Some 2%Z) (zw_two []) = Done MAP_SUCCESS w2 ∧
        is_map w2 1 (with_iterator None (zrecord None 1)) 2 zcells1 ∧
        mapGetSize (Some 1%positive) w2 = Done 1%Z w2.
Proof.
  split; [zeval|].
  apply (X7_put_then_remove_restores_chain (zw_one []) 1%positive (zrecord None 1)
           2%positive zcells1 2%Z 20%Z (zw_two []));
    [zreach|apply zw_one_is_map|zall|zeval].
Defined.

Lemma X8_witness :
  mapPut (Some 1%positive) (Some 2%Z) (Some 20%Z) (zw_one zo_put_fails) =
    Done MAP_OUT_OF_MEMORY zw_full ∧
  nodes zw_full = nodes (zw_one zo_put_fails) ∧
  maps zw_full = maps (zw_one zo_put_fails).
Proof.
  split; [zeval|].
  destruct (X8_failed_put_of_new_key_rolls_back (zw_one zo_put_fails) 1%positive
              (zrecord None 1) 2%positive zcells1 2%Z 20%Z zw_full)
    as (Hnodes & Hmaps & _); [zreach|apply zw_one_full_is_map|zall|zeval|].
  split; [exact Hnodes|exact Hmaps].
Defined.

Lemma X9_witness :
  mapPut None (Some 2%Z) (Some 20%Z) (zw_one []) = Done MAP_NULL_ARGUMENT (zw_one []) ∧
  ∃ w', mapPut (Some 1%positive) (Some 2%Z) (Some 20%Z) (zw_one []) =
          Done MAP_SUCCESS w'.
Proof.
  destruct (X9_put_result_follows_allocations (zw_one []) 1%positive (zrecord None 1)
              2%positive zcells1 2%Z 20%Z)
    as (Hnull & x & w' & Hput & _ & Hnew); [zreach|apply zw_one_is_map|reflexivity|].
  split; [apply Hnull; left; reflexivity|].
  exists w'. rewrite Hput. f_equal. apply Hnew. zall.
Defined.

Lemma X10_witness :
  ∃ w', mapClear (Some 1%positive) (zw_two []) = Done MAP_SUCCESS w' ∧
    mapGetSize (Some 1%positive) w' = Done 0%Z w' ∧
    mapGetFirst (Some 1%positive) w' = Done Null w' ∧
    mapContains (Some 1%positive) (Some 1%Z) w' = Done false w'.
Proof.
  destruct (X10_clear_empties_the_map (zw_two []) 1%positive (zrecord None 2) 2%positive
              zcells2) as (_ & w' & Hclear & _ & Hsize & Hfirst & Hkeys);
    [zreach|apply zw_two_is_map|].
  exists w'. split; [exact Hclear|]. split; [exact Hsize|]. split; [exact Hfirst|].
  exact (proj1 (Hkeys 1%Z)).
Defined.

Lemma X11_witness :
  ∃ w', mapClear (Some 1%positive) (zw_two []) = Done MAP_SUCCESS w' ∧
    nodes w' !! 3%positive = None ∧ nodes w' !! 4%positive = None ∧
    is_Some (nodes w' !! 2%positive) ∧
    trace w' = trace (zw_two []) ++
      [FreeData (Some 10%Z); FreeKey (Some 1%Z); FreeData (Some 20%Z); FreeKey (Some 2%Z)].
Proof.
  destruct (X11_clear_frees_every_node (zw_two []) 1%positive (zrecord None 2) 2%positive
              zcells2) as (w' & Hclear & Hfreed & Hdummy & _ & Htrace & _);
    [zreach|apply zw_two_is_map|].
  exists w'. split; [exact Hclear|].
  split; [apply Hfreed; zin|]. split; [apply Hfreed; zin|].
  split; [exact Hdummy|exact Htrace].
Defined.

Lemma X12_witness :
  ∃ w' r', mapClear (Some 1%positive) (zw_enum []) = Done MAP_SUCCESS w' ∧
    maps w' !! 1%positive = Some (Some r') ∧ iterator r' = Some 3%positive ∧
    nodes w' !! 3%positive = None ∧
    mapGetNext (Some 1%positive) w' = Fault.
Proof.
  apply (X12_clear_leaves_iterator_dangling (zw_enum []) 1%positive
           (zrecord (Some 3%positive) 2) 2%positive zcells2 3%positive);
    [zreach|apply zw_enum_is_map|reflexivity|zin].
Defined.

Lemma X13_witness :
  mapDestroy None (zw_two []) = Done tt (zw_two []) ∧
  ∃ w', mapDestroy (Some 1%positive) (zw_two []) = Done tt w' ∧
    maps w' !! 1%positive = None ∧
    nodes w' !! 2%positive = None ∧ nodes w' !! 3%positive = None ∧
    nodes w' !! 4%positive = None.
Proof.
  destruct (X13_destroy_frees_the_map (zw_two []) 1%positive (zrecord None 2) 2%positive
              zcells2) as (Hnull & w' & Hdestroy & Hrec & Hfreed & _);
    [zreach|apply zw_two_is_map|].
  split; [exact Hnull|]. exists w'. split; [exact Hdestroy|]. split; [exact Hrec|].
  split; [apply Hfreed; zin|]. split; apply Hfreed; zin.
Defined.

Lemma X14_witness :
  ∃ w', enumerate (Some 1%positive) (zw_two []) = Done [At 1%Z; At 2%Z] w' ∧
    mapGetSize (Some 1%positive) (zw_two []) = Done 2%Z (zw_two []).
Proof.
  destruct (X14_enumeration_lists_the_chain (zw_two []) 1%positive (zrecord None 2)
              2%positive zcells2) as (w' & Henum & _ & Hsize & _);
    [zreach|apply zw_two_is_map|].
  exists w'. split; [exact Henum|exact Hsize].
Defined.

Lemma X15_witness :
  ∃ found prev cs1 cs2 pd pk,
    findPrevNode 1%positive (At 2%Z) (zw_two []) = Done (found, Some prev) (zw_two []) ∧
    zcells2 = cs1 ++ cs2 ∧
    (∀ c, c ∈ cs1 → (0 < zcompare 2 (ckey c))%Z) ∧
    (∀ c, c ∈ cs2 → (zcompare 2 (ckey c) ≤ 0)%Z) ∧
    prev = default 2%positive (last (locs cs1)) ∧
    nodes (zw_two []) !! prev = Some (Node pd pk (of_option (head (locs cs2)))) ∧
    (found = true ↔ ∃ c, c ∈ zcells2 ∧ zcompare 2 (ckey c) = 0%Z).
Proof.
  apply (X15_search_stops_at_the_place_of_the_key (zw_two []) 1%positive
           (zrecord None 2) 2%positive zcells2 2%Z); [zreach|apply zw_two_is_map].
Defined.

Lemma X16_witness :
  ∃ w', zcreate (init_world [false]) = Done None w' ∧
    nodes w' = nodes (init_world (K:=Z) (V:=Z) [false]) ∧
    maps w' = maps (init_world (K:=Z) (V:=Z) [false]) ∧
    trace w' = trace (init_world (K:=Z) (V:=Z) [false]).
Proof.
  apply (X16_create_out_of_memory (init_world [false]) zcopy zcopy zfree zfree zcompare);
    [apply reach_init|reflexivity].
Defined.

Lemma X17_witness :
  mapCopy None (zw_one zo_put_fails) = Done None (zw_one zo_put_fails) ∧
  ∃ w', mapCopy (Some 1%positive) (zw_one zo_put_fails) = Done None w' ∧
    nodes w' = nodes (zw_one zo_put_fails) ∧ maps w' = maps (zw_one zo_put_fails) ∧
    trace w' = trace (zw_one zo_put_fails).
Proof.
  destruct (X17_copy_without_memory_for_the_record (zw_one zo_put_fails) 1%positive
              (zrecord None 1) 2%positive zcells1) as (Hnull & Hfail);
    [zreach|apply zw_one_full_is_map|].
  split; [exact Hnull|]. apply Hfail. zeval.
Defined.

Lemma X18_witness :
  ∃ mc w', mapCopy (Some 1%positive) (zw_two []) = Done (Some mc) w' ∧
    trace w' = trace (zw_two []) ++
      [CopyData 10%Z true; CopyKey 1%Z true; CopyData 20%Z true; CopyKey 2%Z true] ∧
    mapGetSize (Some mc) w' = Done 2%Z w' ∧
    mapGetSize (Some 1%positive) w' = Done 2%Z w'.
Proof.
  apply (X18_copy_succeeds_when_allocations_do (zw_two []) 1%positive (zrecord None 2)
           2%positive zcells2); [zreach|apply zw_two_is_map| |zeval].
  repeat constructor; eexists; reflexivity.
Defined.

Lemma X19_witness :
  mapCopy (Some 1%positive) (zw_two []) = Done (Some 5%positive) zw_copied ∧
  (∀ l n, nodes (zw_two []) !! l = Some n → nodes zw_copied !! l = Some n) ∧
  is_map zw_copied 1 (with_iterator None (zrecord None 2)) 2 zcells2.
Proof.
  split; [zeval|].
  destruct (X19_copy_writes_fresh_memory_only (zw_two []) 1%positive (zrecord None 2)
              2%positive zcells2 (Some 5%positive) zw_copied) as (Hnodes & _ & Hmap);
    [zreach|apply zw_two_is_map|zeval|].
  split; [exact Hnodes|exact Hmap].
Defined.

Lemma X20_witness :
  ∃ w', mapCopy (Some 1%positive) (zw_three zo_list_fails) = Done None w' ∧
    maps w' = maps (zw_three zo_list_fails) ∧
    nodes (zw_three zo_list_fails) !! 8%positive = None ∧
    is_Some (nodes w' !! 8%positive).
Proof.
  destruct (X20_failed_list_allocation_leaks_nodes (zw_three zo_list_fails) 1%positive
              (zrecord None 3) 2%positive zcells3 2)
    as (w' & Hcopy & Hmaps & _ & _ & _ & _ & Hleak);
    [apply zw_three_reach|apply zw_three_is_map|simpl; lia|zeval|zeval|].
  exists w'. split; [exact Hcopy|]. split; [exact Hmaps|]. split; [zeval|exact Hleak].
Defined.

Lemma X21_witness :
  ∃ w', mapClear (Some 1%positive) zw_copied = Done MAP_SUCCESS w' ∧
    is_map w' 5 (copy_record (zrecord None 2) 6) 6
           [(8%positive, 1%Z, Some 10%Z); (7%positive, 2%Z, Some 20%Z)].
Proof.
  destruct (X21_calls_leave_the_other_maps zw_copied 1%positive 5%positive
              (copy_record (zrecord None 2) 6) 6%positive
              [(8%positive, 1%Z, Some 10%Z); (7%positive, 2%Z, Some 20%Z)])
    as (_ & _ & Hclear & _); [apply zw_copied_reach|discriminate|apply zw_copied_is_map|].
  eexists. split; [zeval|]. apply (Hclear MAP_SUCCESS). zeval.
Defined.

Lemma X22_witness :
  ∃ w', mapPut (Some 1%positive) (Some 1%Z) (Some 11%Z) (zw_one zo_put_fails) =
          Done MAP_OUT_OF_MEMORY w' ∧
    trace w' = trace (zw_one zo_put_fails) ++ [FreeData (Some 10%Z); CopyData 11%Z false] ∧
    mapContains (Some 1%positive) (Some 1%Z) w' = Done true w' ∧
    mapGet (Some 1%positive) (Some 1%Z) w' = Done Null w'.
Proof.
  destruct (X22_failed_replacement_leaves_null_data (zw_one zo_put_fails) 1%positive
              (zrecord None 1) 2%positive zcells1 1%Z 11%Z (3%positive, 1%Z, Some 10%Z))
    as (w' & Hput & Htrace & _ & Hcontains & Hget & _);
    [zreach|apply zw_one_full_is_map|zin|reflexivity|zeval|].
  exists w'. split; [exact Hput|]. split; [exact Htrace|].
  split; [exact Hcontains|exact Hget].
Defined.
